(** * Polytropos: variables, tracks, casters, document lookup and changes

    A shallow embedding of the parts of the polytropos sources that the
    specification speaks about:

    - [polytropos/ontology/variable/__variable.py]: the class hierarchy of
      variables, equality and hashing, the validators, the memoised path
      properties, [check_ancestor], [update_sort_order] and the primitive
      casters;
    - [polytropos/actions/translate/__document.py]: [DocumentValueProvider];
    - [polytropos/actions/translate/type_translators/__named_list.py]:
      [NamedListTranslator];
    - [fixtures/conf/changes/vitals.py]: [CalculateWeightGain] and
      [DetermineGender];
    - [etl4/ontology/metamorphosis/__metamorphosis.py]:
      [Metamorphosis.__call__];
    - [etl4/transform/translate/__reporter.py]: [Reporter].

    Python objects are mutable and reach each other through references.  The
    embedding follows the arena reading of the code: a track owns its
    variables in a dictionary keyed by variable id, and every method of a
    variable that consults [self.track] takes the track as an argument.
    Methods that mutate return the new track.  Exceptions are values of
    [result]. *)

From Stdlib Require Import ZArith String Ascii List Floats.PrimFloat.
From Stdlib Require Floats.SpecFloat Floats.FloatOps.
From stdpp Require Import gmap strings list fin_maps.

Set Warnings "-register-all".

Local Open Scope string_scope.
Local Open Scope Z_scope.

(** ** Exceptions and results *)

(** The exception classes that the embedded code can raise. *)
Inductive exn : Type :=
  | ValueError
  | KeyError
  | AttributeError
  | TypeError
  | RuntimeError
  | AssertionError
  | RecursionError
  | SourceNotFoundException
  | OverflowError.

Global Instance exn_eq_dec : EqDecision exn.
Proof. solve_decision. Defined.

(** The outcome of a call: a returned value or a raised exception. *)
Inductive result (A : Type) : Type :=
  | Ok (a : A)
  | Raise (e : exn).
Arguments Ok {A} a.
Arguments Raise {A} e.

(** [result] is a monad: [x ← r; k] runs [k] on the value of [r] and
    propagates the exception of [r]. *)
Global Instance result_ret : MRet result := fun A a => Ok a.
Global Instance result_bind : MBind result := fun A B k r =>
  match r with
  | Ok a => k a
  | Raise e => Raise e
  end.

(** ** Raw JSON values

    Documents and raw cast inputs are what [json.load] produces.  A Python
    [dict] keeps its items in insertion order; it is embedded as the list of
    its items. *)
Inductive json : Type :=
  | JNull
  | JBool (b : bool)
  | JInt (z : Z)
  | JFloat (f : PrimFloat.float)
  | JStr (s : string)
  | JList (l : list json)
  | JDict (items : list (string * json)).

(** [key in d] and [d[key]] on the items of a dict. *)
Fixpoint dict_get {A : Type} (key : string) (items : list (string * A)) : option A :=
  match items with
  | [] => None
  | (k, v) :: rest => if decide (k = key) then Some v else dict_get key rest
  end.

Definition dict_mem {A : Type} (key : string) (items : list (string * A)) : bool :=
  match dict_get key items with
  | Some _ => true
  | None => false
  end.

(** [d[key] = value]: replaces the value of an existing key in place, and
    appends a new key at the end. *)
Fixpoint dict_set {A : Type} (key : string) (value : A) (items : list (string * A))
  : list (string * A) :=
  match items with
  | [] => [(key, value)]
  | (k, v) :: rest =>
      if decide (k = key) then (k, value) :: rest
      else (k, v) :: dict_set key value rest
  end.

(** ** The class hierarchy of variables *)

Module Cls.

(** Every class of [__variable.py] that derives from [Variable],
    [Variable] itself included (written [Variable_]). *)
Inductive t : Type :=
  | Variable_
  | Container
  | Primitive
  | Integer
  | Text
  | Decimal
  | Unary
  | Binary
  | Currency
  | Phone
  | Email
  | URL
  | Date
  | Folder
  | GenericList
  | List
  | NamedList.

Global Instance eq_dec : EqDecision t.
Proof. solve_decision. Defined.

(** The base class named in each [class] statement. *)
Definition base (c : t) : option t :=
  match c with
  | Variable_ => None
  | Container => Some Variable_
  | Primitive => Some Variable_
  | Integer | Text | Decimal | Unary | Binary | Currency
  | Phone | Email | URL | Date => Some Primitive
  | Folder => Some Container
  | GenericList => Some Container
  | List => Some GenericList
  | NamedList => Some GenericList
  end.

(** [issubclass c d].  The hierarchy is three levels deep under
    [Variable], so four steps along [base] reach every ancestor. *)
Fixpoint issubclass_upto (n : nat) (c d : t) : bool :=
  if decide (c = d) then true
  else match n with
       | O => false
       | S n' => match base c with
                 | Some b => issubclass_upto n' b d
                 | None => false
                 end
       end.

Definition issubclass (c d : t) : bool := issubclass_upto 4 c d.

(** The kinds that the data model instantiates: the leaves of the
    hierarchy. *)
Definition concrete (c : t) : bool :=
  match c with
  | Variable_ | Container | Primitive | GenericList => false
  | _ => true
  end.

(** [cls.__name__]. *)
Definition name (c : t) : string :=
  match c with
  | Variable_ => "Variable"
  | Container => "Container"
  | Primitive => "Primitive"
  | Integer => "Integer"
  | Text => "Text"
  | Decimal => "Decimal"
  | Unary => "Unary"
  | Binary => "Binary"
  | Currency => "Currency"
  | Phone => "Phone"
  | Email => "Email"
  | URL => "URL"
  | Date => "Date"
  | Folder => "Folder"
  | GenericList => "GenericList"
  | List => "List"
  | NamedList => "NamedList"
  end.

End Cls.

(** ** Variables and tracks *)

Abbreviation VariableId := string.

(** A value memoised by [cachedmethod] in [Variable._cache]. *)
Inductive cached : Type :=
  | CachedPath (path : list string).

Global Instance cached_eq_dec : EqDecision cached.
Proof. solve_decision. Defined.

(** An instance of (a subclass of) [Variable].  [cls] is [self.__class__];
    the other fields are the attributes set by [__init__].  [self.track] is
    not a field: the owning track is passed to the methods that use it. *)
Record Var : Type := mkVar {
  cls : Cls.t;
  var_id : VariableId;
  name : string;
  sort_order : Z;
  notes : option string;
  earliest_epoch : option string;
  latest_epoch : option string;
  short_description : option string;
  long_description : option string;
  sources : list VariableId;
  parent : option VariableId;
  _cache : gmap string cached
}.

(** [isinstance(v, c)]. *)
Definition isinstance (v : Var) (c : Cls.t) : bool := Cls.issubclass (cls v) c.

(** [Variable.data_type]. *)
Definition data_type (v : Var) : string := Cls.name (cls v).

(** A track: its variables by id, and the upstream track it translates
    from, if any. *)
Inductive Track : Type :=
  | mkTrack (variables : gmap string Var) (source : option Track).

Definition variables (t : Track) : gmap string Var :=
  match t with mkTrack vs _ => vs end.

Definition source (t : Track) : option Track :=
  match t with mkTrack _ s => s end.

Definition with_variables (t : Track) (vs : gmap string Var) : Track :=
  mkTrack vs (source t).

(** [track[var_id]]: raises [KeyError] for an unknown id. *)
Definition track_getitem (t : Track) (vid : VariableId) : result Var :=
  match variables t !! vid with
  | Some v => Ok v
  | None => Raise KeyError
  end.

(** [var_id in track]. *)
Definition track_contains (t : Track) (vid : VariableId) : bool :=
  bool_decide (is_Some (variables t !! vid)).

(** [track.values()]. *)
Definition track_values (t : Track) : list Var := (map_to_list (variables t)).*2.

(** ** Equality and hashing of variables *)

(** [Variable.__eq__]. *)
Definition __eq__ (self other : Var) : bool :=
  isinstance other (cls self) && bool_decide (var_id other = var_id self).

Section Hash.

(** Python's built-in [hash] on strings. *)
Variable hash : string -> Z.

(** [Variable.__hash__].  The attribute is an optional id here so that the
    guard against [None] is kept. *)
Definition hash_var_id (vid : option VariableId) : Z :=
  match vid with
  | Some s => hash s
  | None => 0
  end.

Definition __hash__ (self : Var) : Z := hash_var_id (Some (var_id self)).

End Hash.

(** ** Navigation inside a track *)

(** Modelled from the spec: [Track.roots] is not among the sources; the
    spec describes it as the root variables, those with no parent. *)
Definition roots (t : Track) : list Var :=
  filter (fun v => parent v = None) (track_values t).

(** [Variable.children]. *)
Definition children (t : Track) (self : Var) : list Var :=
  filter (fun variable => parent variable = Some (var_id self)) (track_values t).

(** [Variable.siblings]: the ids of the roots, or of the children of the
    parent. *)
Definition siblings (t : Track) (self : Var) : result (list VariableId) :=
  match parent self with
  | None => Ok (var_id <$> roots t)
  | Some p =>
      pv ← track_getitem t p;
      Ok (var_id <$> children t pv)
  end.

(** Python's truth value of an optional string: [None] and the empty string
    are false.  [truthy p] is the string of a true [p]. *)
Definition truthy (p : option string) : option string :=
  match p with
  | None => None
  | Some s => if bool_decide (s = "") then None else Some s
  end.

(** [Variable.check_ancestor].  [fuel] bounds the depth of the recursion, as
    the interpreter's recursion limit does.  The recursive call passes
    [variable.parent] alone, so [stop_at_list] takes its default [False]
    there. *)
Fixpoint check_ancestor (fuel : nat) (t : Track) (self : Var)
    (child_id : VariableId) (stop_at_list : bool) : result bool :=
  match fuel with
  | O => Raise RecursionError
  | S fuel' =>
      variable ← track_getitem t child_id;
      match parent variable with
      | None => Ok false
      | Some p =>
          is_list ← (if stop_at_list
                     then pv ← track_getitem t p; Ok (isinstance pv Cls.GenericList)
                     else Ok false);
          if (is_list : bool) then Ok false
          else if bool_decide (p = var_id self) then Ok true
          else check_ancestor fuel' t self p false
      end
  end.

(** [Variable.ancestors]: the variable, its parent, and so on, up to the
    root or to the variable whose parent is [parent_id_to_stop].  The loop
    of the generator is run for at most [fuel] rounds; [None] says that the
    rounds did not suffice. *)
Fixpoint ancestors_from (fuel : nat) (t : Track) (current : Var)
    (parent_id_to_stop : option VariableId) : option (result (list Var)) :=
  match parent current with
  | None => Some (Ok [current])
  | Some p =>
      if bool_decide (Some p = parent_id_to_stop) then Some (Ok [current])
      else match fuel with
           | O => None
           | S fuel' =>
               match track_getitem t p with
               | Raise e => Some (Raise e)
               | Ok next =>
                   match ancestors_from fuel' t next parent_id_to_stop with
                   | Some (Ok rest) => Some (Ok (current :: rest))
                   | other => other
                   end
               end
           end
  end.

Definition ancestors (fuel : nat) (t : Track) (self : Var)
    (parent_id_to_stop : option VariableId) : option (result (list Var)) :=
  ancestors_from fuel t self parent_id_to_stop.

(** ** Memoised properties *)

Definition set_cache (v : Var) (c : gmap string cached) : Var :=
  mkVar (cls v) (var_id v) (name v) (sort_order v) (notes v) (earliest_epoch v)
        (latest_epoch v) (short_description v) (long_description v)
        (sources v) (parent v) c.

Definition set_name (v : Var) (n : string) : Var :=
  mkVar (cls v) (var_id v) n (sort_order v) (notes v) (earliest_epoch v)
        (latest_epoch v) (short_description v) (long_description v)
        (sources v) (parent v) (_cache v).

Definition set_sort_order (v : Var) (z : Z) : Var :=
  mkVar (cls v) (var_id v) (name v) z (notes v) (earliest_epoch v)
        (latest_epoch v) (short_description v) (long_description v)
        (sources v) (parent v) (_cache v).

(** The store of [cachedmethod]: [self._cache[key] = value] on the variable
    that the track holds under [vid]. *)
Definition cache_store (t : Track) (vid : VariableId) (key : string) (value : cached)
  : Track :=
  with_variables t (alter (fun v => set_cache v (<[key := value]> (_cache v))) vid
                          (variables t)).

(** [Variable.absolute_path] of the variable that the track holds under
    [vid].  A cached value is returned as it is; otherwise the path is
    computed, through the parent's own memoised property, and stored. *)
Fixpoint absolute_path (fuel : nat) (t : Track) (vid : VariableId)
  : result (Track * list string) :=
  match fuel with
  | O => Raise RecursionError
  | S fuel' =>
      self ← track_getitem t vid;
      match _cache self !! "absolute_path" with
      | Some (CachedPath path) => Ok (t, path)
      | None =>
          '(t', path) ← match truthy (parent self) with
                         | None => Ok (t, [name self])
                         | Some p =>
                             '(t', parent_path) ← absolute_path fuel' t p;
                             Ok (t', (parent_path ++ [name self])%list)
                         end;
          Ok (cache_store t' vid "absolute_path" (CachedPath path), path)
      end
  end.

(** [Variable.relative_path]: as [absolute_path], but the path starts anew
    below a list or named list. *)
Fixpoint relative_path (fuel : nat) (t : Track) (vid : VariableId)
  : result (Track * list string) :=
  match fuel with
  | O => Raise RecursionError
  | S fuel' =>
      self ← track_getitem t vid;
      match _cache self !! "relative_path" with
      | Some (CachedPath path) => Ok (t, path)
      | None =>
          '(t', path) ← match truthy (parent self) with
                         | None => Ok (t, [name self])
                         | Some p =>
                             parent_var ← track_getitem t p;
                             if isinstance parent_var Cls.GenericList
                             then Ok (t, [name self])
                             else '(t', parent_path) ← relative_path fuel' t p;
                                  Ok (t', (parent_path ++ [name self])%list)
                         end;
          Ok (cache_store t' vid "relative_path" (CachedPath path), path)
      end
  end.

(** [Variable.invalidate_cache]. *)
Definition invalidate_cache (self : Var) : Var := set_cache self ∅.

(** Modelled from the spec: [Track.invalidate_variables_cache] is not among
    the sources, only its call in [validate_attribute_value], which passes
    no variable.  The spec has the memoised properties of a variable
    invalidated whenever the name, parent or sort order of any variable of
    the same track changes: the cache of every variable of the track is
    cleared. *)
Definition invalidate_variables_cache (t : Track) : Track :=
  with_variables t (invalidate_cache <$> variables t).

(** ** Validation *)

(** [c in s] for a character and a string. *)
Fixpoint char_in (c : ascii) (s : string) : bool :=
  match s with
  | EmptyString => false
  | String a rest => if decide (a = c) then true else char_in c rest
  end.

(** [Validator.validate_name]. *)
Definition validate_name (t : Track) (variable : Var) (new_name : string) : result unit :=
  if char_in "/"%char new_name || char_in "."%char new_name then Raise ValueError
  else
    sibs ← siblings t variable;
    sibling_names ← mapM (fun sibling => sv ← track_getitem t sibling; Ok (name sv))
                         (filter (fun sibling => sibling ≠ var_id variable) sibs);
    if bool_decide (new_name ∈ sibling_names) then Raise ValueError else Ok tt.

(** [_incompatible_type]. *)
Definition _incompatible_type (source_var variable : Var) : bool :=
  if decide (cls variable = Cls.List) then
    if bool_decide (cls source_var ∈ [Cls.List; Cls.Folder]) then false else true
  else if decide (cls source_var ≠ cls variable) then true
  else false.

(** [_check_folder_has_sources]. *)
Definition _check_folder_has_sources (variable : Var) (srcs : list VariableId)
  : result unit :=
  if bool_decide (0 < length srcs)%nat && isinstance variable Cls.Folder
  then Raise ValueError
  else Ok tt.

(** [_verify_source_exists]. *)
Definition _verify_source_exists (t : Track) (variable : Var) (source_var_id : VariableId)
  : result unit :=
  match source t with
  | None => Raise AssertionError
  | Some upstream =>
      if negb (track_contains upstream source_var_id) then Raise ValueError
      else Ok tt
  end.

(** [_verify_source_compatible]. *)
Definition _verify_source_compatible (t : Track) (variable : Var)
    (source_var_id : VariableId) : result unit :=
  match source t with
  | None => Raise AssertionError
  | Some upstream =>
      source_var ← track_getitem upstream source_var_id;
      if _incompatible_type source_var variable then Raise ValueError
      else Ok tt
  end.

(** The loop of [validate_sources] over the sources. *)
Fixpoint verify_each_source (t : Track) (variable : Var) (srcs : list VariableId)
  : result unit :=
  match srcs with
  | [] => Ok tt
  | src :: rest =>
      _verify_source_exists t variable src;;
      _verify_source_compatible t variable src;;
      verify_each_source t variable rest
  end.

(** [Validator.validate_sources]. *)
Definition validate_sources (t : Track) (variable : Var) (srcs : list VariableId)
    (init : bool) : result unit :=
  (if negb init then _check_folder_has_sources variable srcs else Ok tt);;
  match srcs with
  | [] => Ok tt
  | _ => verify_each_source t variable srcs
  end.

(** [Validator.validate_sort_order]. *)
Definition validate_sort_order (t : Track) (variable : Var) (order : Z) (adding : bool)
  : result unit :=
  if bool_decide (order < 0) then Raise ValueError
  else
    sibs ← siblings t variable;
    if bool_decide (Z.of_nat (length sibs) + (if adding then 1 else 0) <= order)
    then Raise ValueError
    else Ok tt.

(** ** Assignment to attributes *)

Section SetAttr.

(** [Track.invalidate_variables_cache], which [validate_attribute_value]
    calls on the track with no argument. *)
Variable invalidate : Track -> Track.

(** [variable.name = value] on the variable that the track holds under
    [vid]: [__setattr__] runs [validate_attribute_value], which validates
    the name and then invalidates the caches of the track, and stores the
    value. *)
Definition setattr_name_with (t : Track) (vid : VariableId) (value : string)
  : result Track :=
  self ← track_getitem t vid;
  validate_name t self value;;
  let t' := invalidate t in
  Ok (with_variables t' (alter (fun v => set_name v value) vid (variables t'))).

End SetAttr.

(** Assignment to [name] with the invalidation of the track as modelled
    above. *)
Definition setattr_name : Track -> VariableId -> string -> result Track :=
  setattr_name_with invalidate_variables_cache.

(** The body of the loop of [update_sort_order] for one sibling. *)
Definition shift_sibling (t : Track) (self : Var) (old_order new_order : Z)
    (sibling : VariableId) : result Track :=
  if bool_decide (sibling = var_id self) then Ok t
  else
    sv ← track_getitem t sibling;
    let diff := 0 in
    let diff := if bool_decide (new_order <= sort_order sv) then diff + 1 else diff in
    let diff := if bool_decide (old_order <= sort_order sv) then diff - 1 else diff in
    Ok (with_variables t
          (<[sibling := set_sort_order sv (sort_order sv + diff)]> (variables t))).

Fixpoint shift_siblings (t : Track) (self : Var) (old_order new_order : Z)
    (sibs : list VariableId) : result Track :=
  match sibs with
  | [] => Ok t
  | sibling :: rest =>
      t' ← shift_sibling t self old_order new_order sibling;
      shift_siblings t' self old_order new_order rest
  end.

(** [Variable.update_sort_order].  The loop changes no parent, so the
    siblings it walks are those found before it starts. *)
Definition update_sort_order (t : Track) (self : Var) (old_order new_order : option Z)
  : result Track :=
  old ← match old_order with
        | Some o => Ok o
        | None => sibs ← siblings t self; Ok (Z.of_nat (length sibs) + 1)
        end;
  new ← match new_order with
        | Some n => Ok n
        | None => sibs ← siblings t self; Ok (Z.of_nat (length sibs) + 1)
        end;
  sibs ← siblings t self;
  shift_siblings t self old new sibs.

(** ** Primitive casters *)

(** [str.lower] on the capital letters of ASCII, byte by byte; every other
    byte is kept.  The casters below compare the outcome with "x", "1",
    "true", "0" and "false": no character outside ASCII has a lower case
    made of these letters, so the comparisons come out as in the code. *)
Definition lower_char (c : ascii) : ascii :=
  let n := nat_of_ascii c in
  if bool_decide (65 <= n)%nat && bool_decide (n <= 90)%nat
  then ascii_of_nat (n + 32)
  else c.

Fixpoint lower (s : string) : string :=
  match s with
  | EmptyString => EmptyString
  | String c rest => String (lower_char c) (lower rest)
  end.

(** [value is None]. *)
Definition is_none (value : json) : bool :=
  match value with
  | JNull => true
  | _ => false
  end.

(** [value == s] for a string literal [s]. *)
Definition eq_str (value : json) (s : string) : bool :=
  match value with
  | JStr v => bool_decide (v = s)
  | _ => false
  end.

(** [value.lower()]: only strings have the method. *)
Definition method_lower (value : json) : result string :=
  match value with
  | JStr s => Ok (lower s)
  | _ => Raise AttributeError
  end.

(** [Binary.cast]. *)
Definition Binary_cast (value : json) : result (option bool) :=
  if is_none value || eq_str value "" then Ok None
  else match value with
       | JBool b => Ok (Some b)
       | _ =>
           vl ← method_lower value;
           if bool_decide (vl ∈ ["1"; "true"]) then Ok (Some true)
           else if bool_decide (vl ∈ ["0"; "false"]) then Ok (Some false)
           else Raise ValueError
       end.

(** ** Strings as sequences of characters

    A Python [str] is a sequence of code points.  A [string] here holds its
    UTF-8 encoding: a character is one byte below 128, or a leading byte
    followed by one to three continuation bytes, each from 128 to 191. *)

Definition byte_value (c : ascii) : Z := Z.of_nat (nat_of_ascii c).

Definition continuation (c : ascii) : bool :=
  bool_decide (Z.land (byte_value c) 192 = 128).

(** The characters of a string, each as the bytes that encode it. *)
Fixpoint characters (s : string) : list string :=
  match s with
  | EmptyString => []
  | String c rest =>
      match characters rest with
      | String d more :: others =>
          if continuation d then String c (String d more) :: others
          else String c EmptyString :: String d more :: others
      | _ => [String c EmptyString]
      end
  end.

(** [len(s)], [s[:n]] and [s[n:]]. *)
Definition len (s : string) : nat := length (characters s).

Definition slice_to (n : nat) (s : string) : string :=
  String.concat "" (take n (characters s)).

Definition slice_from (n : nat) (s : string) : string :=
  String.concat "" (drop n (characters s)).

(** The code point of a character, from its bytes. *)
Definition continued (acc : Z) (c : ascii) : option Z :=
  if continuation c then Some (Z.lor (Z.shiftl acc 6) (Z.land (byte_value c) 63))
  else None.

Definition code_point (character : string) : option Z :=
  match list_ascii_of_string character with
  | [a] => if bool_decide (byte_value a < 128) then Some (byte_value a) else None
  | [a; b] =>
      if bool_decide (Z.land (byte_value a) 224 = 192)
      then continued (Z.land (byte_value a) 31) b
      else None
  | [a; b; c] =>
      if bool_decide (Z.land (byte_value a) 240 = 224)
      then cp ← continued (Z.land (byte_value a) 15) b; continued cp c
      else None
  | [a; b; c; d] =>
      if bool_decide (Z.land (byte_value a) 248 = 240)
      then cp ← continued (Z.land (byte_value a) 7) b; cp ← continued cp c; continued cp d
      else None
  | _ => None
  end.

(** The decimal digits of Unicode 14.0, the tables of CPython 3.11: 66 runs
    of ten code points, for the digits 0 to 9 in their order.  Each run is
    given by its first code point. *)
Definition decimal_runs : list Z :=
  [48; 1632; 1776; 1984; 2406; 2534; 2662; 2790; 2918; 3046; 3174; 3302; 3430;
   3558; 3664; 3792; 3872; 4160; 4240; 6112; 6160; 6470; 6608; 6784; 6800; 6992;
   7088; 7232; 7248; 42528; 43216; 43264; 43472; 43504; 43600; 44016; 65296;
   66720; 68912; 69734; 69872; 69942; 70096; 70384; 70736; 70864; 71248; 71360;
   71472; 71904; 72016; 72784; 73040; 73120; 92768; 92864; 93008; 120782;
   120792; 120802; 120812; 120822; 123200; 123632; 125264; 130032].

(** The digit that a character writes, if it is a decimal digit: what
    [str.isdecimal], [\d] in a pattern and [int] go by. *)
Definition decimal (character : string) : option Z :=
  cp ← code_point character;
  start ← head (filter (λ start, start <= cp < start + 10) decimal_runs);
  Some (cp - start).

(** [str.isdecimal]: every character is a decimal digit, and there is one
    at least. *)
Definition isdecimal (s : string) : bool :=
  match characters s with
  | [] => false
  | cs => forallb (λ c, bool_decide (is_Some (decimal c))) cs
  end.

(** ** [datetime.strptime] for the format [%Y-%m-%d]

    The library turns the format into the pattern
    [(\d\d\d\d)-(1[0-2]|0[1-9]|[1-9])-(3[0-1]|[1-2]\d|0[1-9]|[1-9]| [1-9])],
    takes the first way in which a beginning of the string matches it,
    rejects a string with characters left over, and builds a date of the
    three numbers. *)

(** A digit from [lo] to [hi], written in ASCII. *)
Definition ascii_digit (lo hi : Z) (character : string) : option Z :=
  cp ← code_point character;
  if bool_decide (48 + lo <= cp <= 48 + hi) then Some (cp - 48) else None.

(** The ways in which a month, and a day, begins the characters, in the
    order in which the pattern lists them: the number read, and the
    characters after it. *)
Definition month_alternatives (cs : list string) : list (Z * list string) :=
  match cs with
  | a :: b :: rest =>
      (if decide (a = "1")
       then option_list ((λ d, (10 + d, rest)) <$> ascii_digit 0 2 b) else [])
      ++ (if decide (a = "0")
          then option_list ((λ d, (d, rest)) <$> ascii_digit 1 9 b) else [])
      ++ option_list ((λ d, (d, b :: rest)) <$> ascii_digit 1 9 a)
  | [a] => option_list ((λ d, (d, [])) <$> ascii_digit 1 9 a)
  | [] => []
  end%list.

Definition day_alternatives (cs : list string) : list (Z * list string) :=
  match cs with
  | a :: b :: rest =>
      (if decide (a = "3")
       then option_list ((λ d, (30 + d, rest)) <$> ascii_digit 0 1 b) else [])
      ++ option_list (t ← ascii_digit 1 2 a; d ← decimal b; Some (10 * t + d, rest))
      ++ (if decide (a = "0")
          then option_list ((λ d, (d, rest)) <$> ascii_digit 1 9 b) else [])
      ++ option_list ((λ d, (d, b :: rest)) <$> ascii_digit 1 9 a)
      ++ (if decide (a = " ")
          then option_list ((λ d, (d, rest)) <$> ascii_digit 1 9 b) else [])
  | [a] => option_list ((λ d, (d, [])) <$> ascii_digit 1 9 a)
  | [] => []
  end%list.

(** The first match of the pattern: year, month, day, and the characters
    left over. *)
Definition match_ymd (cs : list string) : option (Z * Z * Z * list string) :=
  match cs with
  | y1 :: y2 :: y3 :: y4 :: hyphen :: rest =>
      d1 ← decimal y1; d2 ← decimal y2; d3 ← decimal y3; d4 ← decimal y4;
      if decide (hyphen = "-")
      then head (month_alternatives rest ≫= λ '(month, rest),
                   match rest with
                   | hyphen :: rest =>
                       if decide (hyphen = "-")
                       then option_list
                              ((λ '(day, rest),
                                  (1000 * d1 + 100 * d2 + 10 * d3 + d4, month, day, rest))
                                 <$> head (day_alternatives rest))
                       else []
                   | [] => []
                   end)
      else None
  | _ => None
  end.

(** The calendar of [datetime.date]: years from 1, and the days that a
    month has. *)
Definition _is_leap (year : Z) : bool :=
  bool_decide (year mod 4 = 0)
  && (negb (bool_decide (year mod 100 = 0)) || bool_decide (year mod 400 = 0)).

Definition _days_in_month (year month : Z) : Z :=
  if bool_decide (month = 2) && _is_leap year then 29
  else nth (Z.to_nat month) [-1; 31; 28; 31; 30; 31; 30; 31; 31; 30; 31; 30; 31] (-1).

(** [strptime s] says whether [datetime.strptime(s, "%Y-%m-%d")] returns
    rather than raises [ValueError]. *)
Definition strptime (s : string) : bool :=
  match match_ymd (characters s) with
  | Some (year, month, day, []) =>
      bool_decide (1 <= year) && bool_decide (day <= _days_in_month year month)
  | _ => false
  end.

(** ** The Date caster *)

(** [value in {"", "000000"}]: membership in a set hashes the value, which
    raises [TypeError] for a list and for a dict. *)
Definition in_absence_markers (value : json) : result bool :=
  match value with
  | JList _ | JDict _ => Raise TypeError
  | _ => Ok (eq_str value "" || eq_str value "000000")
  end.

(** [Date.cast].  Past the absence markers, [len(value)] raises
    [TypeError] for [True], [False] and numbers. *)
Definition Date_cast (value : json) : result (option string) :=
  if is_none value then Ok None
  else
    absent ← in_absence_markers value;
    if (absent : bool) then Ok None
    else match value with
         | JStr s =>
             if bool_decide (len s = 6%nat) && isdecimal s then
               let year := slice_to 4 s in
               let month := slice_from 4 s in
               Ok (Some (year +:+ "-" +:+ month +:+ "-01"))
             else if bool_decide (10 <= len s)%nat then
               let retained := slice_to 10 s in
               if strptime retained then Ok (Some retained)
               else Raise ValueError
             else Raise ValueError
         | _ => Raise TypeError
         end.

(** ** Looking a variable up in a document *)

(** [DocumentValueProvider]: the object holds the document. *)
Record DocumentValueProvider : Type := mkProvider {
  document : list (string * json)
}.

(** The loop of [DocumentValueProvider.value], from the value reached so
    far. *)
Fixpoint value_from (reached : json) (path : list string) : result json :=
  match path with
  | [] => Ok reached
  | key :: rest =>
      match reached with
      | JDict items =>
          match dict_get key items with
          | Some v => value_from v rest
          | None => Raise KeyError
          end
      | _ => Raise KeyError
      end
  end.

(** [DocumentValueProvider.value]. *)
Definition value (self : DocumentValueProvider) (path : list string) : result json :=
  value_from (JDict (document self)) path.

(** [DocumentValueProvider.variable_value].  The outcome comes with the
    provider as the call leaves it.  [None] says that [fuel] rounds did not
    suffice for the ancestors of the variable. *)
Definition variable_value (self : DocumentValueProvider) (fuel : nat) (t : Track)
    (variable : Var) (parent_id_to_stop : option VariableId)
  : option (DocumentValueProvider * result json) :=
  if bool_decide (length (document self) = 0%nat)
  then Some (self, Raise SourceNotFoundException)
  else
    match ancestors fuel t variable parent_id_to_stop with
    | None => None
    | Some (Raise e) => Some (self, Raise e)
    | Some (Ok ancs) =>
        let path := reverse (name <$> ancs) in
        match value self path with
        | Raise KeyError => Some (self, Raise SourceNotFoundException)
        | other => Some (self, other)
        end
    end.

(** ** Translating a named list *)

(** The state of a [NamedListTranslator]: the target variable and the
    accumulated [self.result], with the two flags of the base class. *)
Record NamedListTranslator : Type := mkNamedListTranslator {
  variable : Var;
  self_result : list (string * json);
  has_result : bool;
  skip_source_not_found : bool
}.

Section NamedList.

(** [self.translator.translate(item, var_id, source_id)]: the translator
    of the nested elements, which may raise. *)
Variable translate : json -> VariableId -> VariableId -> result json.

(** [NamedListTranslator.initial_result] *)
Definition initial_result : list (string * json) := [].

(** [NamedListTranslator.initialize] *)
Definition initialize (self : NamedListTranslator) : NamedListTranslator :=
  mkNamedListTranslator (variable self) (self_result self) true false.

(** The loop of [process_source_value] over [source_value.items()]. *)
Fixpoint process_items (self : NamedListTranslator) (items : list (string * json))
    (source_id : VariableId) : result NamedListTranslator :=
  match items with
  | [] => Ok self
  | (key, item) :: rest =>
      if dict_mem key (self_result self) then Raise ValueError
      else
        translated ← translate item (var_id (variable self)) source_id;
        process_items
          (mkNamedListTranslator (variable self)
             (dict_set key translated (self_result self)) true
             (skip_source_not_found self))
          rest source_id
  end.

(** [NamedListTranslator.process_source_value].  A value that is not a
    dict has no [items]. *)
Definition process_source_value (self : NamedListTranslator) (source_value : json)
    (source_id : VariableId) : result NamedListTranslator :=
  match source_value with
  | JNull => Raise RuntimeError
  | JDict items => process_items self items source_id
  | _ => Raise AttributeError
  end.

(** Modelled from the spec: the driver of the base class of the translators
    is not among the sources.  The spec has a translator accumulate its
    result from the (source value, source id) pairs in order. *)
Fixpoint accumulate (self : NamedListTranslator)
    (contributions : list (json * VariableId)) : result NamedListTranslator :=
  match contributions with
  | [] => Ok self
  | (source_value, source_id) :: rest =>
      self' ← process_source_value self source_value source_id;
      accumulate self' rest
  end.

(** A fresh translator for [target], run over the contributions. *)
Definition translate_named_list (target : Var)
    (contributions : list (json * VariableId)) : result (list (string * json)) :=
  let self := initialize (mkNamedListTranslator target initial_result false true) in
  self' ← accumulate self contributions;
  Ok (self_result self').

End NamedList.

(** ** Nested dictionaries *)

Module nesteddicts.

(** Modelled from the spec: [nesteddicts.get] is not among the sources.
    It reads the value at a path of keys in a nested mapping. *)
Fixpoint get_from (target : json) (spec : list string) : result json :=
  match spec with
  | [] => Ok target
  | key :: rest =>
      match target with
      | JDict items =>
          match dict_get key items with
          | Some v => get_from v rest
          | None => Raise KeyError
          end
      | _ => Raise TypeError
      end
  end.

Definition get (target : list (string * json)) (spec : list string) : result json :=
  get_from (JDict target) spec.

(** Modelled from the spec: [nesteddicts.put] is not among the sources.
    It writes a value at a path of keys in a nested mapping; a mapping
    missing on the way is created, and a value on the way that is not a
    mapping is an error. *)
Fixpoint put (target : list (string * json)) (spec : list string) (value : json)
  : result (list (string * json)) :=
  match spec with
  | [] => Raise ValueError
  | key :: rest =>
      match rest with
      | [] => Ok (dict_set key value target)
      | _ :: _ =>
          match dict_get key target with
          | None =>
              inner ← put [] rest value;
              Ok (dict_set key (JDict inner) target)
          | Some (JDict items) =>
              inner ← put items rest value;
              Ok (dict_set key (JDict inner) target)
          | Some _ => Raise TypeError
          end
      end
  end.

End nesteddicts.

(** ** The change [CalculateWeightGain] *)

(** [min] and [max] of a collection of strings, in the order of their
    characters; the empty collection raises [ValueError]. *)
Definition str_min (a b : string) : string := if String.leb a b then a else b.
Definition str_max (a b : string) : string := if String.leb a b then b else a.

Definition py_min (l : list string) : result string :=
  match l with
  | [] => Raise ValueError
  | x :: rest => Ok (foldl str_min x rest)
  end.

Definition py_max (l : list string) : result string :=
  match l with
  | [] => Raise ValueError
  | x :: rest => Ok (foldl str_max x rest)
  end.

(** The numbers among the values of a document: an integer, a boolean,
    which is the integer 0 or 1, and a float. *)
Inductive number : Type :=
  | NInt (z : Z)
  | NFloat (f : PrimFloat.float).

Definition as_number (value : json) : option number :=
  match value with
  | JBool b => Some (NInt (if b then 1 else 0))
  | JInt z => Some (NInt z)
  | JFloat f => Some (NFloat f)
  | _ => None
  end.

(** [float(z)] for an integer: the nearest binary64 float, ties to even;
    [OverflowError] when that is beyond the largest float. *)
Definition float_of_int (z : Z) : result PrimFloat.float :=
  match SpecFloat.binary_normalize FloatOps.prec FloatOps.emax z 0 false with
  | SpecFloat.S754_infinity _ => Raise OverflowError
  | rounded => Ok (FloatOps.SF2Prim rounded)
  end.

(** [a - b] on two values of a document: integers (booleans among them)
    subtract exactly, floats as binary64 floats, an integer beside a float is
    converted first, and no other value has a difference. *)
Definition py_sub (a b : json) : result json :=
  match as_number a, as_number b with
  | Some (NInt x), Some (NInt y) => Ok (JInt (x - y))
  | Some (NFloat x), Some (NFloat y) => Ok (JFloat (PrimFloat.sub x y))
  | Some (NInt x), Some (NFloat y) =>
      fx ← float_of_int x; Ok (JFloat (PrimFloat.sub fx y))
  | Some (NFloat x), Some (NInt y) =>
      fy ← float_of_int y; Ok (JFloat (PrimFloat.sub x fy))
  | _, _ => Raise TypeError
  end.

(** The subjects bound by [CalculateWeightGain.__init__], by id. *)
Record CalculateWeightGain : Type := mkCalculateWeightGain {
  weight_var : VariableId;
  weight_gain_var : VariableId
}.

(** [set(composite.keys()) - {"invariant"}]. *)
Definition periods_of (composite : list (string * json)) : list string :=
  filter (fun key => key ≠ "invariant") (remove_dups (composite.*1)).

(** [CalculateWeightGain.__call__]: the composite after the change, with
    the track, whose path caches the call fills. *)
Definition CalculateWeightGain_call (self : CalculateWeightGain) (fuel : nat)
    (t : Track) (composite : list (string * json))
  : result (Track * list (string * json)) :=
  let periods := periods_of composite in
  earliest ← py_min periods;
  latest ← py_max periods;
  '(t1, weight_path) ← absolute_path fuel t (weight_var self);
  let earliest_weight_path := earliest :: weight_path in
  earliest_weight ← nesteddicts.get composite earliest_weight_path;
  let latest_weight_path := latest :: weight_path in
  latest_weight ← nesteddicts.get composite latest_weight_path;
  weight_gain ← py_sub latest_weight earliest_weight;
  '(t2, gain_path) ← absolute_path fuel t1 (weight_gain_var self);
  let weight_gain_path := "invariant" :: gain_path in
  composite' ← nesteddicts.put composite weight_gain_path weight_gain;
  Ok (t2, composite').

(** * Statements of the specification, and examples *)

(** *** Equality and hashing *)

(** Two folders and a text variable that share ids in pairs. *)
Definition eq_folder_a : Var :=
  mkVar Cls.Folder "v1" "a" 0 None None None None None [] None ∅.
Definition eq_folder_b : Var :=
  mkVar Cls.Folder "v1" "renamed" 3 (Some "n") None None None None [] (Some "p") ∅.
Definition eq_text_a : Var :=
  mkVar Cls.Text "v1" "a" 0 None None None None None [] None ∅.

(** *** The Binary caster *)

(** The strings that the Binary caster reads as true and as false. *)
Definition reads_true (s : string) : Prop := lower s = "1" ∨ lower s = "true".
Definition reads_false (s : string) : Prop := lower s = "0" ∨ lower s = "false".

(** The Binary caster as the specification words it, at one raw value:
    absence on null and on the empty string, true exactly on the strings
    that read as true, false exactly on those that read as false, and an
    exception on every other value. *)
Definition Binary_cast_as_specified (value : json) : Prop :=
  (value = JNull ∨ value = JStr "" → Binary_cast value = Ok None) ∧
  (Binary_cast value = Ok (Some true) ↔ ∃ s, value = JStr s ∧ reads_true s) ∧
  (Binary_cast value = Ok (Some false) ↔ ∃ s, value = JStr s ∧ reads_false s) ∧
  (value ≠ JNull → value ≠ JStr "" →
   (¬ ∃ s, value = JStr s ∧ (reads_true s ∨ reads_false s)) →
   ∃ e, Binary_cast value = Raise e).

(** *** Sources *)

(** The kinds that the specification lets a variable of kind [target] take
    as a source: its own kind, and for a List also Folder. *)
Definition kind_compatible (target src : Cls.t) : Prop :=
  if decide (target = Cls.List) then src = Cls.List ∨ src = Cls.Folder
  else src = target.

(** A plain variable of a class, for the examples. *)
Definition plain (c : Cls.t) (vid : VariableId) (n : string) (order : Z)
    (p : option VariableId) (srcs : list VariableId) : Var :=
  mkVar c vid n order None None None None None srcs p ∅.

(** An upstream track with a folder, a text and a list, and a track that
    translates from it. *)
Definition upstream_track : Track :=
  mkTrack (<["src_folder" := plain Cls.Folder "src_folder" "folder" 0 None []]>
          (<["src_text" := plain Cls.Text "src_text" "text" 1 None []]>
          (<["src_list" := plain Cls.List "src_list" "list" 2 None []]> ∅))) None.

Definition downstream_track : Track := mkTrack ∅ (Some upstream_track).

(** *** Ancestors across a list *)

(** A folder [root] that holds a list [items]; the list holds a folder
    [entry], and that folder holds a text [leaf]. *)
Definition nested_root : Var := plain Cls.Folder "root" "root" 0 None [].
Definition nested_items : Var := plain Cls.List "items" "items" 0 (Some "root") [].
Definition nested_entry : Var := plain Cls.Folder "entry" "entry" 0 (Some "items") [].
Definition nested_leaf : Var := plain Cls.Text "leaf" "leaf" 0 (Some "entry") [].

Definition nested_track : Track :=
  mkTrack (<["root" := nested_root]> (<["items" := nested_items]>
          (<["entry" := nested_entry]> (<["leaf" := nested_leaf]> ∅)))) None.

(** The chain of parents from [child_id] up to, and without, [self]: the
    variables strictly between the two.  [None] when the chain of parents
    ends, or [fuel] does, before it reaches [self]. *)
Fixpoint strictly_between (fuel : nat) (t : Track) (self : Var) (child_id : VariableId)
  : option (list Var) :=
  match fuel with
  | O => None
  | S fuel' =>
      match variables t !! child_id with
      | None => None
      | Some variable =>
          match parent variable with
          | None => None
          | Some p =>
              if bool_decide (p = var_id self) then Some []
              else match variables t !! p with
                   | None => None
                   | Some pv => cons pv <$> strictly_between fuel' t self p
                   end
          end
      end
  end.

(** The answer that the specification asks of
    [check_ancestor(child_id, stop_at_list=True)]: the chain of parents
    reaches [self] and no variable strictly between is a list or a named
    list. *)
Definition reaches_without_list (fuel : nat) (t : Track) (self : Var)
    (child_id : VariableId) : bool :=
  match strictly_between fuel t self child_id with
  | None => false
  | Some between => forallb (fun v => negb (isinstance v Cls.GenericList)) between
  end.

(** *** Renaming and the caches *)

(** Two roots [a] and [b], and a child [a1] of [a]. *)
Definition family_track : Track :=
  mkTrack (<["a" := plain Cls.Folder "a" "a" 0 None []]>
          (<["a1" := plain Cls.Text "a1" "a1" 0 (Some "a") []]>
          (<["b" := plain Cls.Folder "b" "b" 1 None []]> ∅))) None.

(** Reads [absolute_path] of each of the variables in turn, which fills
    their caches and those of their ancestors. *)
Definition warm (fuel : nat) (t : Track) (ids : list VariableId) : Track :=
  foldl (fun t vid => match absolute_path fuel t vid with
                      | Ok (t', _) => t'
                      | Raise _ => t
                      end) t ids.

Definition warm_family_track : Track := warm 3 family_track ["a1"; "b"].

(** The cache of the variable that a track holds under [vid]. *)
Definition cache_of (t : Track) (vid : VariableId) : option (gmap string cached) :=
  _cache <$> variables t !! vid.

(** The second half of the claim on renaming, for one renamed variable and
    one other variable: if the renaming succeeds, the cache of the other is
    what it was. *)
Definition rename_keeps_cache (t : Track) (vid : VariableId) (value : string)
    (other : VariableId) : Prop :=
  ∀ t', setattr_name t vid value = Ok t' → cache_of t' other = cache_of t other.

(** *** Sort orders of siblings *)

(** The track holds every variable under its own id. *)
Definition well_keyed (t : Track) : Prop :=
  ∀ k v, variables t !! k = Some v → var_id v = k.

(** The sort order of the variable that a track holds under [vid], and the
    sort orders of a list of ids. *)
Definition order_of (t : Track) (vid : VariableId) : option Z :=
  sort_order <$> variables t !! vid.

Definition orders_of (t : Track) (ids : list VariableId) : list Z :=
  omap (order_of t) ids.

(** The sort order that the specification gives an existing sibling once a
    variable is inserted at [k]. *)
Definition shifted (k order : Z) : Z := if decide (k <= order) then order + 1 else order.

(** Three roots in the orders 0, 1 and 2, and a fourth to insert. *)
Definition three_roots : Track :=
  mkTrack (<["x" := plain Cls.Text "x" "x" 1 None []]>
          (<["y" := plain Cls.Text "y" "y" 0 None []]>
          (<["z" := plain Cls.Text "z" "z" 2 None []]> ∅))) None.

Definition newcomer : Var := plain Cls.Text "w" "w" 1 None [].

(** *** Paths in a document *)

(** [resolves d path x]: walking [path] from [d], one key of a mapping at a
    time, ends at [x]. *)
Inductive resolves : json → list string → json → Prop :=
  | resolves_nil d : resolves d [] d
  | resolves_cons items key rest v x :
      dict_get key items = Some v →
      resolves v rest x →
      resolves (JDict items) (key :: rest) x.

(** Some name of the path is absent as a key at its nesting level: the
    names before it lead to a mapping that lacks it. *)
Definition key_absent (d : json) (path : list string) : Prop :=
  ∃ before key after items,
    path = (before ++ key :: after)%list ∧
    resolves d before (JDict items) ∧ dict_get key items = None.

(** Some value reached on the way is not a mapping, with names of the path
    still to look up in it. *)
Definition not_a_mapping (d : json) (path : list string) : Prop :=
  ∃ before key after x,
    path = (before ++ key :: after)%list ∧
    resolves d before x ∧ ∀ items, x ≠ JDict items.

(** [chain_ends t v n]: the chain of parents from [v] reaches a root within
    [n] steps, through variables of the track. *)
Inductive chain_ends (t : Track) : Var → nat → Prop :=
  | chain_root v n : parent v = None → chain_ends t v n
  | chain_step v p pv n :
      parent v = Some p → variables t !! p = Some pv →
      chain_ends t pv n → chain_ends t v (S n).

(** A document about a person, for the examples. *)
Definition person_document : list (string * json) :=
  [("person", JDict [("name", JStr "Ada"); ("age", JInt 36)])].

Definition person_track : Track :=
  mkTrack (<["p" := plain Cls.Folder "p" "person" 0 None []]>
          (<["n" := plain Cls.Text "n" "name" 0 (Some "p") []]>
          (<["z" := plain Cls.Text "z" "zip" 1 (Some "p") []]>
          (<["f" := plain Cls.Text "f" "first" 0 (Some "n") []]> ∅)))) None.

(** *** Contributions to a named list *)

(** The elements that the contributing mappings hold, in the order in which
    the translator meets them: key, raw element and source id. *)
Definition contributed (contributions : list (json * VariableId))
  : list (string * json * VariableId) :=
  contributions ≫= (λ '(source_value, source_id),
    match source_value with
    | JDict items => (λ '(key, item), (key, item, source_id)) <$> items
    | _ => []
    end).

Definition contributed_keys (contributions : list (json * VariableId)) : list string :=
  (λ '(key, _, _), key) <$> contributed contributions.

(** Two contributed elements, of one source or of two, have the same key. *)
Definition keys_collide (contributions : list (json * VariableId)) : Prop :=
  ∃ i j key, i ≠ j ∧
    contributed_keys contributions !! i = Some key ∧
    contributed_keys contributions !! j = Some key.

(** Every contributing source value is a mapping. *)
Definition all_mappings (contributions : list (json * VariableId)) : Prop :=
  Forall (λ c, ∃ items, c.1 = JDict items) contributions.

(** A translator of elements for the examples: it keeps booleans and fails
    on everything else. *)
Definition keep_booleans (item : json) (_ _ : VariableId) : result json :=
  match item with
  | JBool b => Ok (JBool b)
  | _ => Raise ValueError
  end.

(** *** The weight gain scenario *)

(** The schema of the scenario: the roots [weight] and [weight_gain]. *)
Definition vitals_track : Track :=
  mkTrack (<["w" := plain Cls.Decimal "w" "weight" 0 None []]>
          (<["g" := plain Cls.Decimal "g" "weight_gain" 1 None ["w"]]> ∅)) None.

Definition vitals_change : CalculateWeightGain := mkCalculateWeightGain "w" "g".

Definition vitals_composite : list (string * json) :=
  [("2021", JDict [("weight", JFloat 75.0); ("height", JFloat 1.75)]);
   ("2020", JDict [("weight", JFloat 70.0)])].

(** What one sibling becomes in the loop of [update_sort_order]. *)
Definition shift_by (old_order new_order : Z) (v : Var) : Var :=
  set_sort_order v
    (sort_order v + ((if bool_decide (new_order <= sort_order v) then 0 + 1 else 0)
                     + (if bool_decide (old_order <= sort_order v) then -1 else 0))).

(** One contributed element and the entry that the result holds for it,
    for a translator [translate] of the elements. *)
Definition entry_of (translate : json → VariableId → VariableId → result json)
    (target : Var) (c : string * json * VariableId) (e : string * json) : Prop :=
  c.1.1 = e.1 ∧ translate c.1.2 (var_id target) c.2 = Ok e.2.

(** *** A strict date *)

(** The digits 0 to 9 of ASCII, and the number that a string of them
    writes. *)
Definition is_digit (c : ascii) : bool :=
  let n := nat_of_ascii c in
  bool_decide (48 <= n)%nat && bool_decide (n <= 57)%nat.

Fixpoint all_digits (s : string) : bool :=
  match s with
  | EmptyString => true
  | String c rest => is_digit c && all_digits rest
  end.

Definition digit_value (c : ascii) : nat := nat_of_ascii c - 48.

Definition number_of (s : string) : nat :=
  foldl (λ acc c, 10 * acc + digit_value c)%nat 0%nat (list_ascii_of_string s).

Definition leap_year (y : nat) : bool :=
  (bool_decide (y mod 4 = 0)%nat && negb (bool_decide (y mod 100 = 0)%nat))
  || bool_decide (y mod 400 = 0)%nat.

Definition days_in_month (y m : nat) : nat :=
  match m with
  | 2 => if leap_year y then 29 else 28
  | 4 | 6 | 9 | 11 => 30
  | _ => 31
  end%nat.

(** A strict YYYY-MM-DD calendar date, as the specification asks for: ten
    characters, four, two and two of the digits 0 to 9 around two hyphens,
    a year from 0001, a month from 01 to 12, and a day from 01 that the
    month has. *)
Definition strict_ymd (s : string) : bool :=
  let year := String.substring 0 4 s in
  let month := String.substring 5 2 s in
  let day := String.substring 8 2 s in
  bool_decide (String.length s = 10%nat)
  && bool_decide (String.substring 4 1 s = "-")
  && bool_decide (String.substring 7 1 s = "-")
  && all_digits year && all_digits month && all_digits day
  && bool_decide (1 <= number_of year)%nat
  && bool_decide (1 <= number_of month <= 12)%nat
  && bool_decide (1 <= number_of day
                  <= days_in_month (number_of year) (number_of month))%nat.

(** ** Further methods of variables *)

(** [Unary.cast]. *)
Definition Unary_cast (value : json) : result (option bool) :=
  if is_none value || eq_str value "" then Ok None
  else match value with
       | JBool true => Ok (Some true)
       | _ =>
           if negb (match value with
                    | JStr s => bool_decide (lower s = "x")
                    | _ => false
                    end)
           then Raise ValueError
           else Ok (Some true)
       end.

(** [Variable.descends_from_list]. *)
Fixpoint descends_from_list (fuel : nat) (t : Track) (self : Var) : result bool :=
  match fuel with
  | O => Raise RecursionError
  | S fuel' =>
      match truthy (parent self) with
      | None => Ok false
      | Some p =>
          pv ← track_getitem t p;
          if isinstance pv Cls.GenericList then Ok true
          else descends_from_list fuel' t pv
      end
  end.

(** [Variable.get_first_list_ancestor]. *)
Fixpoint get_first_list_ancestor (fuel : nat) (t : Track) (self : Var)
  : result (option Var) :=
  match fuel with
  | O => Raise RecursionError
  | S fuel' =>
      match parent self with
      | None => Ok None
      | Some parent_id =>
          pv ← track_getitem t parent_id;
          if isinstance pv Cls.GenericList then Ok (Some pv)
          else get_first_list_ancestor fuel' t pv
      end
  end.

(** A list [records] in a folder [root], with a folder [address] below it
    that holds a text [city]. *)
Definition records_track : Track :=
  mkTrack (<["root" := plain Cls.Folder "root" "root" 0 None []]>
          (<["records" := plain Cls.NamedList "records" "records" 0 (Some "root") []]>
          (<["address" := plain Cls.Folder "address" "address" 0 (Some "records") []]>
          (<["city" := plain Cls.Text "city" "city" 0 (Some "address") []]> ∅)))) None.

Definition records_city : Var := plain Cls.Text "city" "city" 0 (Some "address") [].

(** *** Paths of names *)

(** [path_to t vid path]: [path] is the names from the root down to the
    variable that the track holds under [vid], along the parents. *)
Inductive path_to (t : Track) : VariableId → list string → Prop :=
  | path_root vid v :
      variables t !! vid = Some v → truthy (parent v) = None →
      path_to t vid [name v]
  | path_below vid v p above :
      variables t !! vid = Some v → truthy (parent v) = Some p →
      path_to t p above →
      path_to t vid (above ++ [name v])%list.

(** Every absolute path that a cache holds is the path of its variable. *)
Definition cache_sound (t : Track) : Prop :=
  ∀ vid v path,
    variables t !! vid = Some v →
    _cache v !! "absolute_path" = Some (CachedPath path) →
    path_to t vid path.

(** Two tracks differ in the caches of their variables at most. *)
Definition same_structure (t t' : Track) : Prop :=
  source t' = source t ∧
  ∀ vid, (λ v, set_cache v ∅) <$> variables t' !! vid
         = (λ v, set_cache v ∅) <$> variables t !! vid.

(** *** Moving among siblings *)

(** The sort orders 0 to n-1 without [k]. *)
Definition seqZ_without (k n : Z) : list Z :=
  (seqZ 0 k ++ seqZ (k + 1) (n - 1 - k))%list.

(** The sort order of an existing sibling once the gap at [k] is closed. *)
Definition lowered (k order : Z) : Z := if decide (k < order) then order - 1 else order.

(** The change that the loop of [update_sort_order] makes to one sort
    order. *)
Definition moved (old_order new_order order : Z) : Z :=
  order + ((if bool_decide (new_order <= order) then 0 + 1 else 0)
           + (if bool_decide (old_order <= order) then -1 else 0)).

(** The position that a move leaves free among the siblings. *)
Definition free_slot (old_order new_order : Z) : Z :=
  if decide (new_order <= old_order) then new_order else new_order - 1.

(** Four roots in the orders 0 to 3. *)
Definition four_roots : Track :=
  mkTrack (<["a" := plain Cls.Text "a" "a" 0 None []]>
          (<["b" := plain Cls.Text "b" "b" 1 None []]>
          (<["c" := plain Cls.Text "c" "c" 2 None []]>
          (<["d" := plain Cls.Text "d" "d" 3 None []]> ∅)))) None.

(** *** Names among siblings *)

(** A sibling other than [vid] bears the name. *)
Definition name_taken (t : Track) (sibs : list VariableId) (vid : VariableId)
    (value : string) : Prop :=
  ∃ id v, id ∈ sibs ∧ id ≠ vid ∧ variables t !! id = Some v ∧ name v = value.

(** *** The change [DetermineGender] *)

(** [container[key]] for a string key: a mapping gives the value under the
    key or raises [KeyError]; no other value that a JSON file holds can be
    subscripted by a string. *)
Definition getitem (container : json) (key : string) : result json :=
  match container with
  | JDict items =>
      match dict_get key items with
      | Some v => Ok v
      | None => Raise KeyError
      end
  | _ => Raise TypeError
  end.

(** The subjects bound by [DetermineGender.__init__], by id, and the lookup
    tables that the constructor is given, by name. *)
Record DetermineGender : Type := mkDetermineGender {
  person_name_var : VariableId;
  gender_var : VariableId;
  lookups : list (string * json)
}.

Section DetermineGenderCall.

(** [str.lower] of the interpreter, which goes by the case mappings of
    Unicode: a table that is not among the sources. *)
Variable str_lower : string → string.

(** [person_name.lower()]: only strings have the method. *)
Definition person_name_lower (person_name : json) : result string :=
  match person_name with
  | JStr s => Ok (str_lower s)
  | _ => Raise AttributeError
  end.

(** [DetermineGender.__call__]: the composite after the change, with the
    track, whose path caches the call fills. *)
Definition DetermineGender_call (self : DetermineGender) (fuel : nat)
    (t : Track) (composite : list (string * json))
  : result (Track * list (string * json)) :=
  '(t1, name_path) ← absolute_path fuel t (person_name_var self);
  let person_name_path := "invariant" :: name_path in
  person_name ← nesteddicts.get composite person_name_path;
  lc_name ← person_name_lower person_name;
  table ← getitem (JDict (lookups self)) "genders";
  gender ← getitem table lc_name;
  '(t2, gender_path) ← absolute_path fuel t1 (gender_var self);
  let gender_path := "invariant" :: gender_path in
  composite' ← nesteddicts.put composite gender_path gender;
  Ok (t2, composite').

End DetermineGenderCall.

(** The schema of the example: the roots [name] and [gender]. *)
Definition gender_track : Track :=
  mkTrack (<["n" := plain Cls.Text "n" "name" 0 None []]>
          (<["s" := plain Cls.Text "s" "gender" 1 None []]> ∅)) None.

Definition gender_change : DetermineGender :=
  mkDetermineGender "n" "s"
    [("genders", JDict [("ada", JStr "female"); ("alan", JStr "male")])].

Definition gender_composite : list (string * json) :=
  [("invariant", JDict [("name", JStr "Ada")])].

(** *** Metamorphoses *)

(** A change is called with the composite, which it alters in place; here
    it is given the depth allowed and the track as well, and returns the
    track and the composite as it leaves them. *)
Definition Change : Type :=
  nat → Track → list (string * json) → result (Track * list (string * json)).

(** [Metamorphosis.__call__]: the changes in their order, each on the
    composite that the one before has left. *)
Fixpoint Metamorphosis_call (changes : list Change) (fuel : nat) (t : Track)
    (composite : list (string * json)) : result (Track * list (string * json)) :=
  match changes with
  | [] => Ok (t, composite)
  | change :: rest =>
      '(t1, composite1) ← change fuel t composite;
      Metamorphosis_call rest fuel t1 composite1
  end.

(** Two changes for an example, on the roots [name], [gender] and [code]:
    the first writes the gender of the name, the second reads the gender and
    writes its code.  The names are in ASCII, whose lower case is [lower]. *)
Definition code_track : Track :=
  mkTrack (<["n" := plain Cls.Text "n" "name" 0 None []]>
          (<["s" := plain Cls.Text "s" "gender" 1 None []]>
          (<["k" := plain Cls.Text "k" "code" 2 None []]> ∅))) None.

Definition gender_of_name : Change :=
  DetermineGender_call lower
    (mkDetermineGender "n" "s" [("genders", JDict [("ada", JStr "female")])]).

Definition code_of_gender : Change :=
  DetermineGender_call lower
    (mkDetermineGender "s" "k" [("genders", JDict [("female", JStr "f")])]).

(** *** Relative paths *)

(** [rel_path_to t vid path]: [path] is the names down to the variable that
    the track holds under [vid], from the root or from just below the
    nearest list or named list above it. *)
Inductive rel_path_to (t : Track) : VariableId → list string → Prop :=
  | rel_path_root vid v :
      variables t !! vid = Some v → truthy (parent v) = None →
      rel_path_to t vid [name v]
  | rel_path_in_list vid v p pv :
      variables t !! vid = Some v → truthy (parent v) = Some p →
      variables t !! p = Some pv → isinstance pv Cls.GenericList = true →
      rel_path_to t vid [name v]
  | rel_path_below vid v p pv above :
      variables t !! vid = Some v → truthy (parent v) = Some p →
      variables t !! p = Some pv → isinstance pv Cls.GenericList = false →
      rel_path_to t p above →
      rel_path_to t vid (above ++ [name v])%list.

(** Every relative path that a cache holds is the relative path of its
    variable. *)
Definition rel_cache_sound (t : Track) : Prop :=
  ∀ vid v path,
    variables t !! vid = Some v →
    _cache v !! "relative_path" = Some (CachedPath path) →
    rel_path_to t vid path.

(** ** Reports of a translation *)

(** The state of a [Reporter].  The two counters are [defaultdict(int)]: a
    key that is absent counts as 0. *)
Record Reporter : Type := mkReporter {
  primitive_match : gmap string Z;
  primitive_mismatch : gmap string Z;
  primitive_failures : list (VariableId * json * json);
  document_name : option string
}.

(** [Reporter.__init__]. *)
Definition Reporter_init : Reporter := mkReporter ∅ ∅ [] None.

(** [counter[key]] and [counter[key] += d] on a [defaultdict(int)]. *)
Definition counter_get (counter : gmap string Z) (key : string) : Z :=
  default 0 (counter !! key).

Definition counter_add (counter : gmap string Z) (key : string) (d : Z)
  : gmap string Z :=
  <[key := counter_get counter key + d]> counter.

(** [Reporter.set_document_name]. *)
Definition set_document_name (self : Reporter) (name : string) : Reporter :=
  mkReporter (primitive_match self) (primitive_mismatch self)
             (primitive_failures self) (Some name).

Section Report.

(** The variables that are reported are those of [etl4.ontology.variable],
    which is not among the sources: their type, the tests of their class,
    their expected values by document name and the equality of two raw
    values are parameters here. *)
Context {V : Type}.
Variable is_Primitive : V → bool.
Variable is_List : V → bool.
Variable is_NamedList : V → bool.
Variable simple_expected_values : V → list (string * json).
Variable py_eq : json → json → bool.

(** [Reporter.report_primitive]. *)
Definition report_primitive (self : Reporter) (var_id : VariableId) (variable : V)
    (value : json) : Reporter :=
  match document_name self with
  | None => self
  | Some name =>
      match dict_get name (simple_expected_values variable) with
      | None => self
      | Some expected =>
          if py_eq expected value
          then mkReporter (counter_add (primitive_match self) var_id 1)
                          (primitive_mismatch self)
                          (primitive_failures self) (document_name self)
          else mkReporter (primitive_match self)
                          (counter_add (primitive_mismatch self) var_id (-1))
                          (primitive_failures self ++ [(var_id, value, expected)])
                          (document_name self)
      end
  end.

(** [Reporter.report_list] and [Reporter.report_named_list]. *)
Definition report_list (self : Reporter) (var_id : VariableId) (variable : V)
    (value : json) : Reporter := self.

Definition report_named_list (self : Reporter) (var_id : VariableId) (variable : V)
    (value : json) : Reporter := self.

(** [Reporter.report]. *)
Definition report (self : Reporter) (var_id : VariableId) (variable : V)
    (value : json) : Reporter :=
  if is_Primitive variable then report_primitive self var_id variable value
  else if is_List variable then report_list self var_id variable value
  else if is_NamedList variable then report_list self var_id variable value
  else self.

(** A use of a reporter: a document is named, or a value is reported. *)
Inductive Reporter_use : Type :=
  | UseSetDocumentName (name : string)
  | UseReport (var_id : VariableId) (variable : V) (value : json).

Definition Reporter_step (self : Reporter) (use : Reporter_use) : Reporter :=
  match use with
  | UseSetDocumentName name => set_document_name self name
  | UseReport var_id variable value => report self var_id variable value
  end.

(** A new reporter after a sequence of uses. *)
Definition Reporter_after (uses : list Reporter_use) : Reporter :=
  foldl Reporter_step Reporter_init uses.

End Report.

(** The failures that a reporter has recorded for one variable. *)
Definition failures_for (self : Reporter) (var_id : VariableId)
  : list (VariableId * json * json) :=
  filter (λ failure, failure.1.1 = var_id) (primitive_failures self).

(** *** Assignment of a parent *)

Definition set_parent (v : Var) (p : option VariableId) : Var :=
  mkVar (cls v) (var_id v) (name v) (sort_order v) (notes v) (earliest_epoch v)
        (latest_epoch v) (short_description v) (long_description v)
        (sources v) p (_cache v).

(** [Validator.validate_parent].  The last test reads
    [variable.descends_from_list], along the parents that the variable has
    at the time, for a list or a named list only; its outcome is logged and
    nothing else. *)
Definition validate_parent (fuel : nat) (t : Track) (variable : Var)
    (new_parent : option VariableId) : result unit :=
  match new_parent with
  | None => Ok tt
  | Some p =>
      if bool_decide (p = "") then Raise ValueError
      else if negb (track_contains t p) then Raise ValueError
      else
        pv ← track_getitem t p;
        if negb (isinstance pv Cls.Container) then Raise ValueError
        else if isinstance variable Cls.GenericList
             then descends_from_list fuel t variable;; Ok tt
             else Ok tt
  end.

(** [variable.parent = value] on the variable that the track holds under
    [vid]: [__setattr__] runs [validate_attribute_value], which validates
    the parent and then invalidates the caches of the track, and stores the
    value. *)
Definition setattr_parent (fuel : nat) (t : Track) (vid : VariableId)
    (value : option VariableId) : result Track :=
  self ← track_getitem t vid;
  validate_parent fuel t self value;;
  let t' := invalidate_variables_cache t in
  Ok (with_variables t' (alter (fun v => set_parent v value) vid (variables t'))).

(** A folder [a] with a folder [b] in it. *)
Definition nest_track : Track :=
  mkTrack (<["a" := plain Cls.Folder "a" "a" 0 None []]>
          (<["b" := plain Cls.Folder "b" "b" 0 (Some "a") []]> ∅)) None.

(** *** Assignment of sources *)

Definition set_sources (v : Var) (s : list VariableId) : Var :=
  mkVar (cls v) (var_id v) (name v) (sort_order v) (notes v) (earliest_epoch v)
        (latest_epoch v) (short_description v) (long_description v)
        s (parent v) (_cache v).

(** [self.children], each child with the key under which the track holds
    it: the key stands for the object, which the branch below alters in
    place. *)
Definition keyed_children (t : Track) (self : Var) : list (VariableId * Var) :=
  filter (λ kv, parent kv.2 = Some (var_id self)) (map_to_list (variables t)).

(** [child_sources[source_id].append(child)] on a [defaultdict(list)]. *)
Definition append_child (child_sources : list (VariableId * list VariableId))
    (source_id child : VariableId) : list (VariableId * list VariableId) :=
  dict_set source_id (default [] (dict_get source_id child_sources) ++ [child])%list
           child_sources.

(** The loops that fill [child_sources]: for every source of every child,
    the child is appended under the source. *)
Definition collect_child_sources (kids : list (VariableId * Var))
  : list (VariableId * list VariableId) :=
  foldl (λ acc kid,
           foldl (λ acc source_id, append_child acc source_id kid.1) acc
                 (sources kid.2))
        [] kids.

(** The loops that fill [safe]: the sources of children that descend from
    one of the new sources of the list. *)
Fixpoint safe_below (fuel : nat) (upstream : Track) (source_var : Var)
    (child_sources : list VariableId) (safe : gset VariableId)
  : result (gset VariableId) :=
  match child_sources with
  | [] => Ok safe
  | child_source :: rest =>
      found ← check_ancestor fuel upstream source_var child_source false;
      safe_below fuel upstream source_var rest
                 (if (found : bool) then {[child_source]} ∪ safe else safe)
  end.

Fixpoint collect_safe (fuel : nat) (upstream : Track) (value : list VariableId)
    (child_sources : list VariableId) (safe : gset VariableId)
  : result (gset VariableId) :=
  match value with
  | [] => Ok safe
  | source_id :: rest =>
      source_var ← track_getitem upstream source_id;
      safe' ← safe_below fuel upstream source_var child_sources safe;
      collect_safe fuel upstream rest child_sources safe'
  end.

(** [l.remove(x)]: the list without the first [x]; [ValueError] when it has
    none. *)
Fixpoint list_remove (x : VariableId) (l : list VariableId)
  : result (list VariableId) :=
  match l with
  | [] => Raise ValueError
  | y :: rest =>
      if decide (y = x) then Ok rest
      else rest' ← list_remove x rest; Ok (y :: rest')
  end.

(** [child.sources.remove(child_source)] on the child that the track holds
    under [child]. *)
Definition remove_source (t : Track) (child_source child : VariableId)
  : result Track :=
  child_var ← track_getitem t child;
  remaining ← list_remove child_source (sources child_var);
  Ok (with_variables t (<[child := set_sources child_var remaining]> (variables t))).

Fixpoint remove_from_children (t : Track) (child_source : VariableId)
    (kids : list VariableId) : result Track :=
  match kids with
  | [] => Ok t
  | child :: rest =>
      t' ← remove_source t child_source child;
      remove_from_children t' child_source rest
  end.

(** The last loop: a source that is not safe is removed from the children
    that were collected under it. *)
Fixpoint prune_child_sources (t : Track)
    (child_sources : list (VariableId * list VariableId)) (safe : gset VariableId)
  : result Track :=
  match child_sources with
  | [] => Ok t
  | (child_source, kids) :: rest =>
      t' ← (if decide (child_source ∈ safe) then Ok t
            else remove_from_children t child_source kids);
      prune_child_sources t' rest safe
  end.

(** [variable.sources = value] on the variable that the track holds under
    [vid]: [__setattr__] runs [validate_attribute_value], which validates
    the sources and, for a list or a named list, prunes the sources of the
    children, and stores the value.  The track of a variable that it holds
    is not empty, so [self.track] is true. *)
Definition setattr_sources (fuel : nat) (t : Track) (vid : VariableId)
    (value : list VariableId) : result Track :=
  self ← track_getitem t vid;
  validate_sources t self value false;;
  t' ← (if isinstance self Cls.GenericList
        then
          let child_sources := collect_child_sources (keyed_children t self) in
          upstream ← match source t with
                     | Some upstream => Ok upstream
                     | None => Raise AssertionError
                     end;
          safe ← collect_safe fuel upstream value (child_sources.*1) ∅;
          prune_child_sources t child_sources safe
        else Ok t);
  Ok (with_variables t' (alter (fun v => set_sources v value) vid (variables t'))).

(** A source of a child descends from one of the new sources of the list,
    as [check_ancestor] finds in the upstream track. *)
Definition descends_from_one (fuel : nat) (upstream : Track) (value : list VariableId)
    (child_source : VariableId) : bool :=
  existsb (λ source_id,
             match variables upstream !! source_id with
             | Some source_var =>
                 match check_ancestor fuel upstream source_var child_source false with
                 | Ok true => true
                 | _ => false
                 end
             | None => false
             end) value.

(** The children collected under a source: each child once for every
    occurrence of the source among its sources. *)
Definition collected_under (child_source : VariableId) (kids : list (VariableId * Var))
  : list VariableId :=
  kids ≫= λ kid,
    replicate (length (filter (λ s, s = child_source) (sources kid.2))) kid.1.

(** A list [l] whose text [c] draws on two upstream texts: [ut], in the
    upstream folder [uf], and the root [ux]. *)
Definition pruning_upstream : Track :=
  mkTrack (<["uf" := plain Cls.Folder "uf" "uf" 0 None []]>
          (<["ut" := plain Cls.Text "ut" "ut" 0 (Some "uf") []]>
          (<["ux" := plain Cls.Text "ux" "ux" 1 None []]> ∅))) None.

Definition pruning_track : Track :=
  mkTrack (<["l" := plain Cls.List "l" "l" 0 None []]>
          (<["c" := plain Cls.Text "c" "c" 0 (Some "l") ["ut"; "ux"]]> ∅))
          (Some pruning_upstream).

(** * Properties *)

(** ** Equality and hashing of variables *)

Lemma issubclass_concrete (c d : Cls.t) :
  Cls.concrete d = true → Cls.issubclass c d = true → c = d.
Proof. destruct c, d; simpl; intros Hd Hs; try reflexivity; discriminate. Qed.

Lemma issubclass_refl (c : Cls.t) : Cls.issubclass c c = true.
Proof. destruct c; reflexivity. Qed.

(** C10: a variable of a concrete class equals another variable exactly when
    the other has the same class and the same id; equality reads nothing but
    the classes and the ids of the two variables, and the hash reads nothing
    but the id, so both survive any change of name, parent, sort order,
    sources or the other attributes. *)
Theorem variable_eq_hash (v w : Var) :
  Cls.concrete (cls v) = true →
  (__eq__ v w = true ↔ cls w = cls v ∧ var_id w = var_id v) ∧
  (∀ v' w' : Var,
      cls v' = cls v → var_id v' = var_id v →
      cls w' = cls w → var_id w' = var_id w →
      __eq__ v' w' = __eq__ v w) ∧
  (∀ (hash : string → Z) (v' : Var),
      var_id v' = var_id v → __hash__ hash v' = __hash__ hash v).
Proof.
  intros Hc. split; [|split].
  - unfold __eq__, isinstance. rewrite andb_true_iff, bool_decide_eq_true. split.
    + intros [Hs Hid]. split; [|exact Hid]. by apply issubclass_concrete.
    + intros [Hcls Hid]. split; [|exact Hid]. rewrite Hcls. apply issubclass_refl.
  - intros v' w' H1 H2 H3 H4. unfold __eq__, isinstance. by rewrite H1, H2, H3, H4.
  - intros hash v' H. unfold __hash__. by rewrite H.
Qed.

Lemma variable_eq_hash_witness :
  __eq__ eq_folder_a eq_folder_b = true ∧ __eq__ eq_folder_a eq_text_a = false.
Proof.
  pose proof (variable_eq_hash eq_folder_a eq_folder_b eq_refl) as [H _].
  split; [apply H; split; reflexivity | reflexivity].
Defined.

(** ** The Binary caster *)

(** C7, as specified, fails on a boolean: [True] is returned, not rejected. *)
Lemma Binary_cast_bool_not_as_specified : ¬ Binary_cast_as_specified (JBool true).
Proof.
  intros (_ & Htrue & _). destruct Htrue as [Htrue _].
  destruct (Htrue eq_refl) as (s & Hs & _). discriminate Hs.
Qed.

Lemma elem_of_two (x a b : string) : x ∈ [a; b] ↔ x = a ∨ x = b.
Proof. rewrite !elem_of_cons, elem_of_nil. tauto. Qed.

(** C7, amended: the Binary caster returns absence on null and on the empty
    string, returns a boolean as it is, and on a string that is not empty
    returns true exactly when it reads "1" or "true" in any case, false
    exactly when it reads "0" or "false" in any case, and raises
    [ValueError] on every other string. *)
Theorem Binary_cast_amended :
  Binary_cast JNull = Ok None ∧
  Binary_cast (JStr "") = Ok None ∧
  (∀ b : bool, Binary_cast (JBool b) = Ok (Some b)) ∧
  (∀ s : string, s ≠ "" →
     (Binary_cast (JStr s) = Ok (Some true) ↔ reads_true s) ∧
     (Binary_cast (JStr s) = Ok (Some false) ↔ reads_false s) ∧
     (¬ reads_true s → ¬ reads_false s → Binary_cast (JStr s) = Raise ValueError)).
Proof.
  split; [reflexivity|]. split; [reflexivity|]. split; [by intros []|].
  intros s Hs. unfold Binary_cast, reads_true, reads_false.
  simpl. rewrite bool_decide_eq_false_2 by congruence. simpl.
  rewrite <- !elem_of_two.
  destruct (decide (lower s ∈ ["1"; "true"])) as [H1|H1].
  - rewrite bool_decide_eq_true_2 by done. split; [tauto|]. split; [|tauto].
    split; [discriminate|]. intros H0. exfalso.
    rewrite elem_of_two in H1, H0.
    destruct H1 as [E|E], H0 as [E0|E0]; rewrite E in E0; discriminate.
  - rewrite bool_decide_eq_false_2 by done.
    destruct (decide (lower s ∈ ["0"; "false"])) as [H0|H0].
    + rewrite bool_decide_eq_true_2 by done. split; [|tauto].
      split; [discriminate|tauto].
    + rewrite bool_decide_eq_false_2 by done. split; [|split].
      * split; [discriminate|tauto].
      * split; [discriminate|tauto].
      * reflexivity.
Qed.

Lemma Binary_cast_amended_witness :
  Binary_cast (JStr "TrUe") = Ok (Some true) ∧
  Binary_cast (JStr "yes") = Raise ValueError.
Proof.
  destruct Binary_cast_amended as (_ & _ & _ & H). split.
  - apply (H "TrUe"); [discriminate | right; reflexivity].
  - apply (H "yes"); [discriminate | |]; intros [?|?]; discriminate.
Defined.

(** ** The Date caster *)

(** The examples of the specification: six digits, the literal of
    absence, and a string that is neither. *)
Lemma Date_cast_examples :
  Date_cast (JStr "202403") = Ok (Some "2024-03-01") ∧
  Date_cast (JStr "000000") = Ok None ∧
  Date_cast (JStr "bad") = Raise ValueError ∧
  Date_cast (JStr "2024-02-29T10:00") = Ok (Some "2024-02-29") ∧
  Date_cast (JStr "2023-02-29T10:00") = Raise ValueError.
Proof. repeat split; by vm_compute. Qed.

(** C8: the ten characters 2024-03- 5, whose day is written with a space
    for its first digit, are no strict YYYY-MM-DD calendar date, and the
    Date caster returns them where the claim has it raise: [strptime]
    takes a space and one digit for a day, and [Date.cast] returns the
    characters that it has accepted as they are. *)
Theorem Date_cast_accepts_padded_day :
  strict_ymd "2024-03- 5" = false ∧
  strptime "2024-03- 5" = true ∧
  Date_cast (JStr "2024-03- 5") = Ok (Some "2024-03- 5").
Proof. repeat split; by vm_compute. Qed.

(** ** Validation of sources *)

Lemma isinstance_Folder (v : Var) : isinstance v Cls.Folder = true ↔ cls v = Cls.Folder.
Proof. unfold isinstance. destruct (cls v); simpl; split; intros; done. Qed.

Lemma _incompatible_type_false (source_var variable : Var) :
  _incompatible_type source_var variable = false ↔
  kind_compatible (cls variable) (cls source_var).
Proof.
  unfold _incompatible_type, kind_compatible.
  destruct (decide (cls variable = Cls.List)) as [E|E].
  - case_bool_decide as H.
    + split; [|done]. intros _. revert H. rewrite !elem_of_cons, elem_of_nil. tauto.
    + split; [done|]. intros H'. exfalso. apply H.
      rewrite !elem_of_cons, elem_of_nil. tauto.
  - destruct (decide (cls source_var ≠ cls variable)) as [H|H].
    + split; [done|]. intros H'. congruence.
    + split; [|done]. intros _. by destruct (decide (cls source_var = cls variable)).
Qed.

Lemma verify_each_source_ok (t upstream : Track) (variable : Var) (srcs : list VariableId) :
  source t = Some upstream →
  verify_each_source t variable srcs = Ok tt ↔
  ∀ s, s ∈ srcs →
    ∃ sv, variables upstream !! s = Some sv ∧ kind_compatible (cls variable) (cls sv).
Proof.
  intros Hsrc. induction srcs as [|src rest IH]; simpl.
  - split; [|done]. intros _ s Hs. by apply elem_of_nil in Hs.
  - unfold _verify_source_exists, _verify_source_compatible, track_contains, track_getitem.
    rewrite Hsrc. destruct (variables upstream !! src) as [sv|] eqn:E; simpl.
    + destruct (_incompatible_type sv variable) eqn:Hin; simpl.
      * split; [done|]. intros H. destruct (H src) as (sv' & Hsv & Hc); [left|].
        rewrite E in Hsv. injection Hsv as <-.
        apply _incompatible_type_false in Hc. congruence.
      * rewrite IH. apply _incompatible_type_false in Hin. split.
        -- intros H s Hs. apply elem_of_cons in Hs as [->|Hs]; [eauto|auto].
        -- intros H s Hs. apply H. by right.
    + split; [done|]. intros H. destruct (H src) as (sv' & Hsv & _); [left|].
      congruence.
Qed.

(** C3: on a track with an upstream track, validation of a list of
    sources outside init mode succeeds exactly when the variable is not a
    Folder or the list is empty, every source is a variable of the upstream
    track, and the kind of every source is the kind of the variable, or
    List or Folder when the variable is a List. *)
Theorem validate_sources_ok (t upstream : Track) (variable : Var) (srcs : list VariableId) :
  source t = Some upstream →
  validate_sources t variable srcs false = Ok tt ↔
  (cls variable ≠ Cls.Folder ∨ srcs = []) ∧
  (∀ s, s ∈ srcs →
     ∃ sv, variables upstream !! s = Some sv ∧ kind_compatible (cls variable) (cls sv)).
Proof.
  intros Hsrc. unfold validate_sources, _check_folder_has_sources. simpl.
  destruct srcs as [|src rest].
  - simpl. split; [|done]. intros _. split; [by right|].
    intros s Hs. by apply elem_of_nil in Hs.
  - rewrite bool_decide_eq_true_2 by (simpl; lia). simpl.
    destruct (isinstance variable Cls.Folder) eqn:Hf; simpl.
    + apply isinstance_Folder in Hf. split; [done|]. intros [[H|H] _]; done.
    + pose proof (verify_each_source_ok t upstream variable (src :: rest) Hsrc) as Hv.
      simpl in Hv. rewrite Hv.
      split; [|tauto]. intros H. split; [|done]. left. intros Hc.
      apply isinstance_Folder in Hc. congruence.
Qed.

Lemma validate_sources_ok_witness :
  validate_sources downstream_track
    (plain Cls.List "l" "l" 0 None []) ["src_folder"; "src_list"] false = Ok tt ∧
  validate_sources downstream_track
    (plain Cls.List "l" "l" 0 None []) ["src_text"] false = Raise ValueError ∧
  validate_sources downstream_track
    (plain Cls.Folder "f" "f" 0 None []) ["src_folder"] false = Raise ValueError ∧
  validate_sources downstream_track
    (plain Cls.Folder "f" "f" 0 None []) [] false = Ok tt.
Proof.
  split; [|by vm_compute].
  apply (validate_sources_ok downstream_track upstream_track); [reflexivity|].
  split; [left; discriminate|].
  intros s Hs. apply elem_of_cons in Hs as [->|Hs];
    [|apply elem_of_cons in Hs as [->|Hs]; [|by apply elem_of_nil in Hs]].
  - eexists. split; [by vm_compute|]. right. reflexivity.
  - eexists. split; [by vm_compute|]. left. reflexivity.
Defined.

(** ** Ancestors *)

(** Past its first step [check_ancestor] runs with [stop_at_list] false:
    with [stop_at_list] true it differs from the plain check only when the
    parent of the candidate is a list. *)
Lemma check_ancestor_stop_at_list (fuel : nat) (t : Track) (self variable pv : Var)
    (child_id p : VariableId) :
  variables t !! child_id = Some variable →
  parent variable = Some p →
  variables t !! p = Some pv →
  check_ancestor (S fuel) t self child_id true =
    if isinstance pv Cls.GenericList then Ok false
    else check_ancestor (S fuel) t self child_id false.
Proof.
  intros Hc Hp Hpv. simpl. unfold track_getitem. rewrite Hc. simpl.
  rewrite Hp, Hpv. simpl. by destruct (isinstance pv Cls.GenericList).
Qed.

(** C1: on the track root / items (a List) / entry / leaf,
    [root.check_ancestor("leaf", stop_at_list=True)] returns [True], although
    the list [items] lies strictly between [leaf] and [root]; the answer
    that the specification asks for is [False]. *)
Theorem check_ancestor_crosses_deeper_list :
  check_ancestor 4 nested_track nested_root "leaf" true = Ok true ∧
  strictly_between 4 nested_track nested_root "leaf" = Some [nested_entry; nested_items] ∧
  isinstance nested_items Cls.GenericList = true ∧
  reaches_without_list 4 nested_track nested_root "leaf" = false.
Proof. by vm_compute. Qed.

(** ** Renaming and the caches *)

Lemma setattr_name_with_variables (invalidate : Track → Track) (t t' : Track)
    (vid : VariableId) (value : string) :
  setattr_name_with invalidate t vid value = Ok t' →
  variables t' = alter (fun v => set_name v value) vid (variables (invalidate t)).
Proof.
  unfold setattr_name_with. destruct (track_getitem t vid) as [self|]; [|done].
  simpl. destruct (validate_name t self value); [|done]. simpl.
  intros [= <-]. reflexivity.
Qed.

Lemma cache_of_setattr_name_with (invalidate : Track → Track) (t t' : Track)
    (vid other : VariableId) (value : string) :
  setattr_name_with invalidate t vid value = Ok t' →
  cache_of t' other = cache_of (invalidate t) other.
Proof.
  intros H. unfold cache_of. rewrite (setattr_name_with_variables _ _ _ _ _ H).
  rewrite lookup_alter. case_decide as E; [|done].
  subst. by destruct (variables (invalidate t) !! other).
Qed.

(** Whatever the track does to invalidate, it is not told which variable
    was renamed: if renaming [a] keeps the cache of [b], renaming [b] keeps
    it too. *)
Lemma invalidation_ignores_the_renamed (invalidate : Track → Track) (t ta tb : Track)
    (a b : VariableId) (na nb : string) :
  setattr_name_with invalidate t a na = Ok ta →
  setattr_name_with invalidate t b nb = Ok tb →
  cache_of ta b = cache_of t b →
  cache_of tb b = cache_of t b.
Proof.
  intros Ha Hb Hkeep.
  rewrite (cache_of_setattr_name_with _ _ _ _ _ _ Hb).
  by rewrite <- (cache_of_setattr_name_with _ _ _ _ _ _ Ha).
Qed.

(** C2, as specified, fails: with the paths of [a1] and [b] cached, renaming
    the root [a] empties the cache of the unrelated root [b]. *)
Lemma rename_clears_unrelated_sibling :
  cache_of warm_family_track "b" = Some {["absolute_path" := CachedPath ["b"]]} ∧
  ¬ rename_keeps_cache warm_family_track "a" "alpha" "b".
Proof.
  split; [by vm_compute|].
  intros H.
  assert (setattr_name warm_family_track "a" "alpha" =
          Ok (mkTrack (alter (fun v => set_name v "alpha") "a"
                         (variables (invalidate_variables_cache warm_family_track)))
                      None)) as Hset by (by vm_compute).
  specialize (H _ Hset). vm_compute in H. discriminate H.
Qed.

(** C2, amended: a successful assignment of a name to a variable of a track
    leaves every variable of the track, the renamed one, its descendants and
    all others, with an empty cache; the renamed variable carries the new
    name, and no other attribute of any variable changes. *)
Theorem rename_invalidates_every_cache (t t' : Track) (vid : VariableId) (value : string) :
  setattr_name t vid value = Ok t' →
  (∀ w v', variables t' !! w = Some v' → _cache v' = ∅) ∧
  (∀ w, variables t' !! w =
        (fun v => set_cache (if decide (w = vid) then set_name v value else v) ∅)
          <$> variables t !! w).
Proof.
  intros H. apply setattr_name_with_variables in H.
  assert (∀ w, variables t' !! w =
     (fun v => set_cache (if decide (w = vid) then set_name v value else v) ∅)
       <$> variables t !! w) as Hall.
  { intros w. rewrite H. unfold invalidate_variables_cache. simpl.
    rewrite lookup_alter. destruct (decide (vid = w)) as [->|Hne].
    - rewrite lookup_fmap. destruct (decide (w = w)); [|done].
      by destruct (variables t !! w).
    - rewrite lookup_fmap. destruct (decide (w = vid)); [congruence|].
      by destruct (variables t !! w). }
  split; [|exact Hall].
  intros w v' Hw. rewrite Hall in Hw.
  destruct (variables t !! w) as [v|]; [|done]. simpl in Hw. by injection Hw as <-.
Qed.

Lemma rename_invalidates_every_cache_witness :
  ∃ t', setattr_name warm_family_track "a" "alpha" = Ok t' ∧
        cache_of t' "a" = Some ∅ ∧ cache_of t' "a1" = Some ∅ ∧
        cache_of t' "b" = Some ∅ ∧
        name <$> variables t' !! "a" = Some "alpha".
Proof.
  destruct (setattr_name warm_family_track "a" "alpha") as [t'|e] eqn:E;
    [|by vm_compute in E].
  exists t'. split; [reflexivity|].
  destruct (rename_invalidates_every_cache _ _ _ _ E) as [_ H].
  unfold cache_of. rewrite !H. by vm_compute.
Defined.

(** ** Inserting among siblings *)

Lemma shifted_seqZ_insert (k n : Z) :
  0 <= k <= n → k :: (shifted k <$> seqZ 0 n) ≡ₚ seqZ 0 (n + 1).
Proof.
  intros Hk.
  replace n with (k + (n - k)) at 1 by lia.
  rewrite seqZ_app, fmap_app, Z.add_0_l by lia.
  assert (shifted k <$> seqZ 0 k = seqZ 0 k) as ->.
  { rewrite <- (list_fmap_id (seqZ 0 k)) at 2. apply Forall_fmap_ext_1.
    apply Forall_forall. intros x Hx%elem_of_seqZ. unfold shifted.
    destruct (decide (k <= x)); [lia|done]. }
  assert (shifted k <$> seqZ k (n - k) = seqZ (k + 1) (n - k)) as ->.
  { replace (k + 1) with (1 + k) by lia. rewrite <- fmap_add_seqZ.
    apply Forall_fmap_ext_1, Forall_forall. intros x Hx%elem_of_seqZ. unfold shifted.
    destruct (decide (k <= x)); lia. }
  rewrite Permutation_middle.
  replace (k :: seqZ (k + 1) (n - k)) with (seqZ k (n - k + 1)).
  - replace (n + 1) with (k + (n - k + 1)) by lia.
    by rewrite (seqZ_app 0 k (n - k + 1)), Z.add_0_l by lia.
  - rewrite seqZ_cons by lia. f_equal. f_equal; lia.
Qed.

Lemma elem_of_track_values (t : Track) (v : Var) :
  v ∈ track_values t ↔ ∃ k, variables t !! k = Some v.
Proof.
  unfold track_values. rewrite list_elem_of_fmap. split.
  - intros ([k v'] & -> & H). exists k. by apply elem_of_map_to_list.
  - intros [k H]. exists (k, v). split; [done|]. by apply elem_of_map_to_list.
Qed.

Lemma ids_of_values (t : Track) :
  well_keyed t → var_id <$> track_values t = (map_to_list (variables t)).*1.
Proof.
  intros Hwk. unfold track_values. rewrite <- list_fmap_compose.
  apply Forall_fmap_ext_1, Forall_forall. intros [k v] H. simpl.
  apply Hwk. by apply elem_of_map_to_list.
Qed.

Lemma ids_of_filter_NoDup (t : Track) (P : Var → Prop) `{!∀ v, Decision (P v)} :
  well_keyed t → NoDup (var_id <$> filter P (track_values t)).
Proof.
  intros Hwk. apply (sublist_NoDup _ (var_id <$> track_values t)).
  - rewrite ids_of_values by done. apply NoDup_fst_map_to_list.
  - apply fmap_sublist, sublist_filter.
Qed.

Lemma ids_of_filter_present (t : Track) (P : Var → Prop) `{!∀ v, Decision (P v)}
    (id : VariableId) :
  well_keyed t → id ∈ var_id <$> filter P (track_values t) →
  is_Some (variables t !! id).
Proof.
  intros Hwk (v & -> & Hv)%list_elem_of_fmap.
  apply list_elem_of_filter in Hv as [_ Hv].
  apply elem_of_track_values in Hv as [k Hk].
  rewrite (Hwk _ _ Hk). eauto.
Qed.

(** The siblings of a variable are distinct ids of the track. *)
Lemma siblings_wf (t : Track) (self : Var) (sibs : list VariableId) :
  well_keyed t → siblings t self = Ok sibs →
  NoDup sibs ∧ ∀ id, id ∈ sibs → is_Some (variables t !! id).
Proof.
  intros Hwk. unfold siblings, roots, children.
  destruct (parent self) as [p|].
  - destruct (track_getitem t p) as [pv|]; [|done]. simpl. intros [= <-].
    split; [by apply ids_of_filter_NoDup|].
    intros id. by apply ids_of_filter_present.
  - intros [= <-]. split; [by apply ids_of_filter_NoDup|].
    intros id. by apply ids_of_filter_present.
Qed.

Lemma shift_sibling_eq (t : Track) (self sv : Var) (old_order new_order : Z)
    (sibling : VariableId) :
  sibling ≠ var_id self → variables t !! sibling = Some sv →
  shift_sibling t self old_order new_order sibling =
    Ok (with_variables t (<[sibling := shift_by old_order new_order sv]> (variables t))).
Proof.
  intros Hne Hs. unfold shift_sibling, track_getitem.
  rewrite bool_decide_eq_false_2, Hs by done. simpl. do 3 f_equal.
  unfold shift_by. f_equal.
  destruct (bool_decide (new_order <= sort_order sv)),
           (bool_decide (old_order <= sort_order sv)); lia.
Qed.

(** The loop shifts every listed variable other than [self] once, and
    touches no other. *)
Lemma shift_siblings_lookup (self : Var) (old_order new_order : Z)
    (sibs : list VariableId) (t : Track) :
  NoDup sibs → (∀ id, id ∈ sibs → is_Some (variables t !! id)) →
  ∃ t', shift_siblings t self old_order new_order sibs = Ok t' ∧
        ∀ id, variables t' !! id =
              if decide (id ∈ sibs ∧ id ≠ var_id self)
              then shift_by old_order new_order <$> variables t !! id
              else variables t !! id.
Proof.
  revert t. induction sibs as [|s rest IH]; intros t Hnd Hpres;
    cbn [shift_siblings].
  - exists t. split; [done|]. intros id.
    destruct (decide (id ∈ [] ∧ id ≠ var_id self)) as [[H _]|]; [|done].
    by apply elem_of_nil in H.
  - apply NoDup_cons in Hnd as [Hs Hnd].
    destruct (decide (s = var_id self)) as [Heq|Hne].
    + unfold shift_sibling. rewrite bool_decide_eq_true_2 by done. simpl.
      destruct (IH t Hnd) as (t' & Ht' & Hl).
      { intros id Hid. apply Hpres. by right. }
      exists t'. split; [done|]. intros id. rewrite Hl.
      destruct (decide (id ∈ rest ∧ id ≠ var_id self)) as [[H1 H2]|H1];
        destruct (decide (id ∈ s :: rest ∧ id ≠ var_id self)) as [[H3 H4]|H3];
        try done.
      * exfalso. apply H3. split; [by right|done].
      * exfalso. apply H1. apply elem_of_cons in H3 as [->|?]; done.
    + destruct (Hpres s) as [sv Hsv]; [by left|].
      rewrite (shift_sibling_eq _ _ sv) by done. simpl.
      set (t1 := with_variables t (<[s:=shift_by old_order new_order sv]> (variables t))).
      destruct (IH t1 Hnd) as (t' & Ht' & Hl).
      { intros id Hid. unfold t1. simpl. rewrite lookup_insert.
        case_decide; [eauto|]. apply Hpres. by right. }
      exists t'. split; [done|]. intros id. rewrite Hl. unfold t1. simpl.
      rewrite lookup_insert. destruct (decide (s = id)) as [<-|Hsid].
      * rewrite decide_False by (by intros [? _]).
        rewrite decide_True by (split; [by left|done]). by rewrite Hsv.
      * destruct (decide (id ∈ rest ∧ id ≠ var_id self)) as [[H1 H2]|H1];
          destruct (decide (id ∈ s :: rest ∧ id ≠ var_id self)) as [[H3 H4]|H3];
          try done.
        -- exfalso. apply H3. split; [by right|done].
        -- exfalso. apply H1. apply elem_of_cons in H3 as [->|?]; done.
Qed.

Lemma orders_of_cons (t : Track) (id : VariableId) (rest : list VariableId) :
  orders_of t (id :: rest) =
    match order_of t id with
    | Some order => order :: orders_of t rest
    | None => orders_of t rest
    end.
Proof. reflexivity. Qed.

Lemma orders_of_shift (t t' : Track) (f : Var → Var) (g : Z → Z) (ids : list VariableId) :
  (∀ v, sort_order (f v) = g (sort_order v)) →
  (∀ id, id ∈ ids → variables t' !! id = f <$> variables t !! id) →
  orders_of t' ids = g <$> orders_of t ids.
Proof.
  intros Hfg. induction ids as [|id rest IH]; intros H; [done|].
  rewrite !orders_of_cons. unfold order_of.
  rewrite (H id) by (by left).
  rewrite IH by (intros ??; apply H; by right).
  destruct (variables t !! id) as [v|]; simpl; [|done]. by rewrite Hfg.
Qed.

Lemma orders_of_length (t : Track) (ids : list VariableId) :
  (length (orders_of t ids) <= length ids)%nat.
Proof.
  induction ids as [|id rest IH]; [simpl; lia|].
  rewrite orders_of_cons. destruct (order_of t id); simpl; lia.
Qed.

Lemma orders_of_elem (t : Track) (ids : list VariableId) (id : VariableId) (v : Var) :
  id ∈ ids → variables t !! id = Some v → sort_order v ∈ orders_of t ids.
Proof.
  intros Hid Hv. unfold orders_of. apply list_elem_of_omap. exists id.
  split; [done|]. unfold order_of. by rewrite Hv.
Qed.

(** C4: let the siblings of a variable other than itself carry the sort
    orders 0 to n-1, and let 0 <= k <= n.  Then [update_sort_order] with no
    old order and the new order k returns; each of those siblings whose sort
    order is at least k has it raised by one and the others keep theirs,
    nothing else in the track changes, and the sort orders of the siblings
    together with k are exactly 0 to n. *)
Theorem update_sort_order_insert (t : Track) (self : Var) (sibs : list VariableId) (k n : Z) :
  well_keyed t →
  siblings t self = Ok sibs →
  let existing := filter (λ id, id ≠ var_id self) sibs in
  orders_of t existing ≡ₚ seqZ 0 n →
  0 <= k <= n →
  ∃ t', update_sort_order t self None (Some k) = Ok t' ∧
        (∀ id, id ∈ existing →
           variables t' !! id =
           (λ v, set_sort_order v (shifted k (sort_order v))) <$> variables t !! id) ∧
        (∀ id, id ∉ existing → variables t' !! id = variables t !! id) ∧
        k :: orders_of t' existing ≡ₚ seqZ 0 (n + 1).
Proof.
  intros Hwk Hsibs existing Hperm Hk.
  destruct (siblings_wf _ _ _ Hwk Hsibs) as [Hnd Hpres].
  unfold update_sort_order. rewrite Hsibs. simpl.
  set (old := Z.of_nat (length sibs) + 1).
  destruct (shift_siblings_lookup self old k sibs t Hnd Hpres) as (t' & Ht' & Hl).
  exists t'. split; [exact Ht'|].
  assert (Hex : ∀ id, id ∈ existing ↔ id ∈ sibs ∧ id ≠ var_id self).
  { intros id. unfold existing. rewrite list_elem_of_filter. tauto. }
  assert (Hlen : n <= Z.of_nat (length sibs)).
  { pose proof (Permutation_length Hperm) as Hl1. rewrite length_seqZ in Hl1.
    pose proof (orders_of_length t existing) as Hl2.
    pose proof (length_filter (λ id, id ≠ var_id self) sibs) as Hl3.
    fold existing in Hl3. lia. }
  assert (Hshift : ∀ id, id ∈ existing →
     variables t' !! id =
     (λ v, set_sort_order v (shifted k (sort_order v))) <$> variables t !! id).
  { intros id Hid. rewrite Hl. rewrite decide_True by (by apply Hex).
    destruct (variables t !! id) as [v|] eqn:Hv; [|done]. simpl. f_equal.
    assert (0 <= sort_order v < n) as Hrange.
    { pose proof (orders_of_elem t existing id v Hid Hv) as He.
      rewrite Hperm in He. apply elem_of_seqZ in He. lia. }
    unfold shift_by, shifted. f_equal.
    rewrite (bool_decide_eq_false_2 (old <= sort_order v)) by (unfold old; lia).
    destruct (decide (k <= sort_order v)).
    - rewrite bool_decide_eq_true_2 by done. lia.
    - rewrite bool_decide_eq_false_2 by done. lia. }
  split; [exact Hshift|]. split.
  - intros id Hid. rewrite Hl. rewrite decide_False; [done|].
    intros H. by apply Hid, Hex.
  - rewrite (orders_of_shift t t' (λ v, set_sort_order v (shifted k (sort_order v)))
               (shifted k) existing); [|done|exact Hshift].
    rewrite Hperm. by apply shifted_seqZ_insert.
Qed.

Lemma update_sort_order_insert_witness :
  ∃ t', update_sort_order three_roots newcomer None (Some 1) = Ok t' ∧
        order_of t' "y" = Some 0 ∧ order_of t' "x" = Some 2 ∧
        order_of t' "z" = Some 3.
Proof.
  assert (well_keyed three_roots) as Hwk.
  { intros k v. unfold three_roots. simpl. rewrite !lookup_insert.
    repeat case_decide; try (intros [= <-]; by subst). }
  destruct (siblings three_roots newcomer) as [sibs|] eqn:Hs; [|by vm_compute in Hs].
  destruct (update_sort_order_insert three_roots newcomer sibs 1 3 Hwk Hs)
    as (t' & Ht' & Hshift & _).
  - vm_compute in Hs. injection Hs as <-. vm_compute.
    apply perm_skip, perm_swap.
  - lia.
  - exists t'. split; [exact Ht'|]. unfold order_of.
    vm_compute in Hs. injection Hs as <-.
    rewrite !Hshift by (by vm_compute; set_solver). by vm_compute.
Defined.

(** ** Looking a variable up in a document *)

Lemma ancestors_fuel_mono (fuel fuel' : nat) (t : Track) (v : Var)
    (stop : option VariableId) (r : result (list Var)) :
  ancestors fuel t v stop = Some r → (fuel <= fuel')%nat →
  ancestors fuel' t v stop = Some r.
Proof.
  unfold ancestors. revert fuel' v r.
  induction fuel as [|fuel IH]; intros fuel' v r H Hle.
  - destruct fuel'; [done|]. simpl in *.
    destruct (parent v) as [p|]; [|done].
    by destruct (bool_decide (Some p = stop)).
  - destruct fuel' as [|fuel']; [lia|]. simpl in *.
    destruct (parent v) as [p|]; [|done].
    destruct (bool_decide (Some p = stop)); [done|].
    destruct (track_getitem t p) as [next|e]; [|done].
    destruct (ancestors_from fuel t next stop) as [r'|] eqn:E; [|done].
    rewrite (IH fuel' next r' E) by lia. done.
Qed.

(** On a chain of parents that ends, [ancestors] needs no more rounds than
    the chain is long. *)
Lemma ancestors_returns (t : Track) (v : Var) (n : nat) :
  chain_ends t v n → ∃ ancs, ancestors n t v None = Some (Ok ancs).
Proof.
  unfold ancestors. induction 1 as [v n Hroot|v p pv n Hp Hpv _ [ancs IH]].
  - exists [v]. destruct n; simpl; by rewrite Hroot.
  - exists (v :: ancs). simpl. rewrite Hp. simpl.
    unfold track_getitem. by rewrite Hpv, IH.
Qed.

Lemma value_from_resolves (d : json) (path : list string) (x : json) :
  value_from d path = Ok x ↔ resolves d path x.
Proof.
  split.
  - revert d. induction path as [|key rest IH]; intros d; simpl.
    + intros [= <-]. constructor.
    + destruct d; try done. destruct (dict_get key items) as [v|] eqn:E; [|done].
      intros H. econstructor; eauto.
  - induction 1 as [|items key rest v x Hget _ IH]; simpl; [done|].
    by rewrite Hget.
Qed.

Lemma value_from_app (d : json) (before after : list string) :
  value_from d (before ++ after)%list = x ← value_from d before; value_from x after.
Proof.
  revert d. induction before as [|key rest IH]; intros d; simpl; [done|].
  destruct d; try done. destruct (dict_get key items); [apply IH|done].
Qed.

Lemma value_from_raises (d : json) (path : list string) (e : exn) :
  value_from d path = Raise e ↔
  e = KeyError ∧ (key_absent d path ∨ not_a_mapping d path).
Proof.
  split.
  - revert d. induction path as [|key rest IH]; intros d; simpl; [done|].
    destruct d as [| | | | | |items];
      try (intros [= <-]; split; [done|]; right; eexists [], key, rest, _;
           split; [done|]; split; [constructor|done]).
    destruct (dict_get key items) as [v|] eqn:E.
    + intros H. destruct (IH _ H) as [-> Hf]. split; [done|].
      destruct Hf as [(b & k & a & its & -> & Hr & Hn)|(b & k & a & x & -> & Hr & Hn)].
      * left. exists (key :: b), k, a, its. split; [done|].
        split; [by econstructor|done].
      * right. exists (key :: b), k, a, x. split; [done|].
        split; [by econstructor|done].
    + intros [= <-]. split; [done|]. left. exists [], key, rest, items.
      split; [done|]. split; [constructor|done].
  - intros [-> [(b & k & a & its & -> & Hr & Hn)|(b & k & a & x & -> & Hr & Hn)]];
      rewrite value_from_app; apply value_from_resolves in Hr; rewrite Hr; simpl.
    + by rewrite Hn.
    + destruct x; try done. by destruct (Hn items).
Qed.

(** C5: for a variable whose ancestors are found, [variable_value] raises
    [SourceNotFoundException] exactly when the document is empty, or a name
    of the root-to-self path is absent as a key at its level, or a value
    reached on the way is not a mapping; it raises nothing else; otherwise
    it returns the value that the path leads to; and the provider keeps the
    document it had. *)
Theorem variable_value_outcome (self : DocumentValueProvider) (fuel : nat) (t : Track)
    (v : Var) (ancs : list Var) :
  ancestors fuel t v None = Some (Ok ancs) →
  let path := reverse (name <$> ancs) in
  let doc := JDict (document self) in
  ∃ r, variable_value self fuel t v None = Some (self, r) ∧
       (r = Raise SourceNotFoundException ↔
        document self = [] ∨ key_absent doc path ∨ not_a_mapping doc path) ∧
       (∀ e, r = Raise e → e = SourceNotFoundException) ∧
       (∀ x, r = Ok x ↔ document self ≠ [] ∧ resolves doc path x).
Proof.
  intros Hancs path doc. unfold variable_value.
  destruct (document self) as [|item items] eqn:Hdoc.
  - simpl. eexists. split; [done|]. split; [|split].
    + split; [by left|done].
    + by intros e [= <-].
    + intros x. split; [done|]. by intros [? _].
  - rewrite bool_decide_eq_false_2 by done. rewrite Hancs. fold path.
    unfold value. rewrite Hdoc. fold doc. subst doc. rewrite <- Hdoc.
    destruct (value_from (JDict (document self)) path) as [x|e] eqn:E.
    + exists (Ok x). split; [done|]. split; [|split].
      * split; [done|]. intros [H|H]; [by rewrite Hdoc in H|].
        assert (value_from (JDict (document self)) path = Raise KeyError) as E'
          by (apply value_from_raises; done).
        congruence.
      * done.
      * intros x'. rewrite <- value_from_resolves. split.
        -- intros [= <-]. split; [by rewrite Hdoc|done].
        -- intros [_ H]. congruence.
    + pose proof (proj1 (value_from_raises _ _ _) E) as [-> Hf].
      exists (Raise SourceNotFoundException). split; [done|]. split; [|split].
      * split; [by right|done].
      * by intros e [= <-].
      * intros x. split; [done|]. intros [_ H%value_from_resolves]. congruence.
Qed.

Lemma variable_value_outcome_witness :
  variable_value (mkProvider person_document) 2 person_track
    (plain Cls.Text "n" "name" 0 (Some "p") []) None
  = Some (mkProvider person_document, Ok (JStr "Ada")) ∧
  variable_value (mkProvider person_document) 2 person_track
    (plain Cls.Text "z" "zip" 1 (Some "p") []) None
  = Some (mkProvider person_document, Raise SourceNotFoundException) ∧
  variable_value (mkProvider person_document) 2 person_track
    (plain Cls.Text "f" "first" 0 (Some "n") []) None
  = Some (mkProvider person_document, Raise SourceNotFoundException) ∧
  variable_value (mkProvider []) 2 person_track
    (plain Cls.Text "n" "name" 0 (Some "p") []) None
  = Some (mkProvider [], Raise SourceNotFoundException).
Proof.
  split; [|by vm_compute].
  destruct (variable_value_outcome (mkProvider person_document) 2 person_track
              (plain Cls.Text "n" "name" 0 (Some "p") [])
              [plain Cls.Text "n" "name" 0 (Some "p") [];
               plain Cls.Folder "p" "person" 0 None []])
    as (r & Hr & _ & _ & Hok); [by vm_compute|].
  rewrite Hr. do 2 f_equal. apply Hok. split; [done|].
  apply value_from_resolves. by vm_compute.
Defined.

(** ** Accumulating a named list *)

Lemma dict_mem_elem {A : Type} (key : string) (items : list (string * A)) :
  dict_mem key items = true ↔ key ∈ items.*1.
Proof.
  unfold dict_mem. induction items as [|[k v] rest IH]; simpl.
  - split; [done|]. by intros ?%elem_of_nil.
  - rewrite elem_of_cons. destruct (decide (k = key)) as [->|Hne]; [tauto|].
    rewrite IH. split; [tauto|]. intros [?|?]; [congruence|done].
Qed.

Lemma dict_set_fresh {A : Type} (key : string) (v : A) (items : list (string * A)) :
  key ∉ items.*1 → dict_set key v items = (items ++ [(key, v)])%list.
Proof.
  induction items as [|[k w] rest IH]; simpl; [done|].
  rewrite not_elem_of_cons. intros [Hne Hrest].
  destruct (decide (k = key)); [congruence|]. by rewrite IH.
Qed.

Lemma not_NoDup_collide (l : list string) :
  ¬ NoDup l → ∃ i j x, i ≠ j ∧ l !! i = Some x ∧ l !! j = Some x.
Proof.
  induction l as [|a l IH]; intros H.
  - exfalso. apply H. constructor.
  - destruct (decide (a ∈ l)) as [Hin|Hin].
    + apply list_elem_of_lookup in Hin as [j Hj]. by exists 0%nat, (S j), a.
    + destruct IH as (i & j & x & Hne & Hi & Hj).
      { intros Hnd. apply H. by constructor. }
      exists (S i), (S j), x. split; [lia|done].
Qed.

Lemma keys_collide_NoDup (contributions : list (json * VariableId)) :
  keys_collide contributions ↔ ¬ NoDup (contributed_keys contributions).
Proof.
  unfold keys_collide. split.
  - intros (i & j & key & Hne & Hi & Hj) H. rewrite NoDup_alt in H.
    by apply Hne, (H i j key).
  - apply not_NoDup_collide.
Qed.

Section NamedListProperties.

Variable translate : json → VariableId → VariableId → result json.

Lemma process_items_outcome (items : list (string * json)) (source_id : VariableId)
    (self : NamedListTranslator) :
  (∀ key item, (key, item) ∈ items →
     ∃ r, translate item (var_id (variable self)) source_id = Ok r) →
  NoDup (self_result self).*1 →
  (NoDup ((self_result self).*1 ++ items.*1) →
   ∃ self' new,
     process_items translate self items source_id = Ok self' ∧
     variable self' = variable self ∧
     self_result self' = (self_result self ++ new)%list ∧
     Forall2 (entry_of translate (variable self))
             ((λ '(key, item), (key, item, source_id)) <$> items) new) ∧
  (¬ NoDup ((self_result self).*1 ++ items.*1) →
   process_items translate self items source_id = Raise ValueError).
Proof.
  revert self. induction items as [|[key item] rest IH]; intros self Htr Hnd.
  - split.
    + intros _. exists self, []. by rewrite app_nil_r.
    + intros H. exfalso. apply H. by rewrite app_nil_r.
  - cbn [process_items].
    destruct (dict_mem key (self_result self)) eqn:Hmem.
    + apply dict_mem_elem in Hmem. split; [|done].
      intros H. exfalso. apply NoDup_app in H as (_ & H & _).
      apply (H key Hmem). by left.
    + assert (key ∉ (self_result self).*1) as Hfresh.
      { intros H%dict_mem_elem. congruence. }
      destruct (Htr key item) as [r Hr]; [by left|]. rewrite Hr. simpl.
      rewrite dict_set_fresh by done.
      set (self1 := mkNamedListTranslator (variable self)
                      (self_result self ++ [(key, r)]) true
                      (skip_source_not_found self)).
      assert (Hkeys : ((self_result self1).*1 ++ rest.*1 =
                       (self_result self).*1 ++ ((key, item) :: rest).*1)%list).
      { unfold self1. simpl. by rewrite fmap_app, <- app_assoc. }
      destruct (IH self1) as [IHok IHdup].
      { intros k i Hin. apply (Htr k i). by right. }
      { unfold self1. simpl. rewrite fmap_app. apply NoDup_app.
        split; [done|]. split; [|apply NoDup_singleton].
        intros k Hk [->|[]%elem_of_nil]%elem_of_cons. done. }
      rewrite Hkeys in IHok, IHdup. split; [|exact IHdup].
      intros H. destruct (IHok H) as (self' & new & Hp & Hv & Hres & Hall).
      exists self', ((key, r) :: new). split; [exact Hp|]. split; [exact Hv|].
      split.
      * rewrite Hres. unfold self1. simpl. by rewrite <- app_assoc.
      * simpl. constructor; [by split|exact Hall].
Qed.

Lemma accumulate_outcome (contributions : list (json * VariableId))
    (self : NamedListTranslator) :
  all_mappings contributions →
  (∀ c, c ∈ contributed contributions →
     ∃ r, translate c.1.2 (var_id (variable self)) c.2 = Ok r) →
  NoDup (self_result self).*1 →
  (NoDup ((self_result self).*1 ++ contributed_keys contributions) →
   ∃ self' new,
     accumulate translate self contributions = Ok self' ∧
     self_result self' = (self_result self ++ new)%list ∧
     Forall2 (entry_of translate (variable self)) (contributed contributions) new) ∧
  (¬ NoDup ((self_result self).*1 ++ contributed_keys contributions) →
   accumulate translate self contributions = Raise ValueError).
Proof.
  revert self.
  induction contributions as [|[source_value source_id] rest IH];
    intros self Hmaps Htr Hnd.
  - split.
    + intros _. exists self, []. by rewrite app_nil_r.
    + intros H. exfalso. apply H. unfold contributed_keys. simpl.
      by rewrite app_nil_r.
  - apply Forall_cons in Hmaps as [[items Hitems] Hmaps]. simpl in Hitems.
    subst source_value. cbn [accumulate process_source_value].
    assert (Hc : contributed ((JDict items, source_id) :: rest) =
                 (((λ '(key, item), (key, item, source_id)) <$> items)
                  ++ contributed rest)%list) by done.
    assert (Hk : contributed_keys ((JDict items, source_id) :: rest) =
                 (items.*1 ++ contributed_keys rest)%list).
    { unfold contributed_keys. rewrite Hc, fmap_app. f_equal.
      rewrite <- list_fmap_compose. apply Forall_fmap_ext_1, Forall_forall.
      by intros [k i] _. }
    rewrite Hk, Hc, app_assoc.
    destruct (process_items_outcome items source_id self) as [Pok Pdup]; [|done|].
    { intros key item Hin. apply (Htr (key, item, source_id)). rewrite Hc.
      apply elem_of_app. left. apply list_elem_of_fmap. by exists (key, item). }
    destruct (decide (NoDup ((self_result self).*1 ++ items.*1))) as [Hnd1|Hnd1].
    + destruct (Pok Hnd1) as (self1 & new1 & Hp & Hv & Hres & Hall1).
      rewrite Hp. simpl.
      assert (Hnew1 : new1.*1 = items.*1).
      { clear -Hall1. revert new1 Hall1.
        induction items as [|[k i] items IHi]; intros new1 H; inv H; [done|].
        simpl. destruct H2 as [<- _]. f_equal. by apply IHi. }
      destruct (IH self1) as [IHok IHdup];
        [done| |by rewrite Hres, fmap_app, Hnew1|].
      { intros c Hin. rewrite Hv. apply Htr. rewrite Hc. apply elem_of_app. by right. }
      rewrite Hres, fmap_app, Hnew1 in IHok, IHdup. split; [|exact IHdup].
      intros H. destruct (IHok H) as (self' & new & Ha & Hr & Hall).
      exists self', (new1 ++ new)%list. split; [exact Ha|]. split.
      * by rewrite Hr, app_assoc.
      * apply Forall2_app; [exact Hall1|]. by rewrite <- Hv.
    + rewrite (Pdup Hnd1). simpl. split; [|done].
      intros H. exfalso. apply Hnd1. by apply NoDup_app in H as [H _].
Qed.

(** C6: let every contributing source value be a mapping and every
    contributed element translate.  Then the accumulation raises the
    [ValueError] of a duplicate key exactly when two contributed elements,
    of one source or of two, have the same key; and when none do, it
    returns a result with one entry for each contributed element, under
    its key and holding its translation, in order. *)
Theorem named_list_duplicate_keys (target : Var)
    (contributions : list (json * VariableId)) :
  all_mappings contributions →
  (∀ c, c ∈ contributed contributions →
     ∃ r, translate c.1.2 (var_id target) c.2 = Ok r) →
  (translate_named_list translate target contributions = Raise ValueError ↔
   keys_collide contributions) ∧
  (¬ keys_collide contributions →
   ∃ res, translate_named_list translate target contributions = Ok res ∧
          res.*1 = contributed_keys contributions ∧
          NoDup res.*1 ∧
          Forall2 (entry_of translate target) (contributed contributions) res).
Proof.
  intros Hmaps Htr. unfold translate_named_list.
  set (self := initialize (mkNamedListTranslator target initial_result false true)).
  destruct (accumulate_outcome contributions self Hmaps Htr) as [Aok Adup].
  { apply NoDup_nil_2. }
  simpl in Aok, Adup. rewrite keys_collide_NoDup.
  destruct (decide (NoDup (contributed_keys contributions))) as [Hnd|Hnd].
  - destruct (Aok Hnd) as (self' & new & Ha & Hr & Hall). simpl in Hr.
    rewrite Ha. simpl. split; [split; done|]. intros _.
    exists (self_result self'). split; [done|]. rewrite Hr.
    assert (new.*1 = contributed_keys contributions) as Hkeys.
    { unfold contributed_keys. clear -Hall.
      induction Hall as [|[[k i] s] [k' r] ?? [H _]]; [done|].
      simpl in *. by f_equal. }
    split; [done|]. split; [by rewrite Hkeys|done].
  - rewrite (Adup Hnd). simpl. split; [done|]. intros H. exfalso. apply H.
    intros H'. done.
Qed.

End NamedListProperties.

Lemma named_list_duplicate_keys_witness :
  translate_named_list keep_booleans (plain Cls.NamedList "nl" "nl" 0 None ["s1"; "s2"])
    [(JDict [("a", JBool true)], "s1"); (JDict [("b", JBool false)], "s2")]
  = Ok [("a", JBool true); ("b", JBool false)] ∧
  translate_named_list keep_booleans (plain Cls.NamedList "nl" "nl" 0 None ["s1"; "s2"])
    [(JDict [("a", JBool true)], "s1"); (JDict [("a", JBool false)], "s2")]
  = Raise ValueError.
Proof.
  split; [by vm_compute|].
  apply (named_list_duplicate_keys keep_booleans).
  - repeat constructor; by eexists.
  - intros c Hc. vm_compute in Hc.
    apply elem_of_cons in Hc as [->|Hc]; [by eexists|].
    apply elem_of_cons in Hc as [->|Hc]; [by eexists|].
    by apply elem_of_nil in Hc.
  - exists 0%nat, 1%nat, "a". by vm_compute.
Defined.

(** ** The change [CalculateWeightGain] *)

Lemma dict_get_set_eq {A : Type} (key : string) (v : A) (items : list (string * A)) :
  dict_get key (dict_set key v items) = Some v.
Proof.
  induction items as [|[k w] rest IH]; simpl.
  - by rewrite decide_True.
  - destruct (decide (k = key)) as [->|Hne]; simpl.
    + by rewrite decide_True.
    + by rewrite decide_False.
Qed.

Lemma dict_get_set_ne {A : Type} (key key' : string) (v : A) (items : list (string * A)) :
  key ≠ key' → dict_get key' (dict_set key v items) = dict_get key' items.
Proof.
  intros Hne. induction items as [|[k w] rest IH]; simpl.
  - by rewrite decide_False.
  - destruct (decide (k = key)) as [->|Hk]; simpl.
    + by rewrite !decide_False.
    + by rewrite IH.
Qed.

Lemma get_from_resolves (d : json) (path : list string) (x : json) :
  nesteddicts.get_from d path = Ok x ↔ resolves d path x.
Proof.
  split.
  - revert d. induction path as [|key rest IH]; intros d; simpl.
    + intros [= <-]. constructor.
    + destruct d; try done. destruct (dict_get key items) as [v|] eqn:E; [|done].
      intros H. econstructor; eauto.
  - induction 1 as [|items key rest v x Hget _ IH]; simpl; [done|].
    by rewrite Hget.
Qed.

Lemma get_from_empty (key : string) (rest : list string) :
  nesteddicts.get_from (JDict []) (key :: rest) = Raise KeyError.
Proof. reflexivity. Qed.

(** A path none of whose values on the way is a non-mapping can be written. *)
Lemma put_returns (spec : list string) (target : list (string * json)) (v : json) :
  spec ≠ [] → ¬ not_a_mapping (JDict target) spec →
  ∃ target', nesteddicts.put target spec v = Ok target'.
Proof.
  revert target. induction spec as [|key rest IH]; intros target Hne Hmap; [done|].
  cbn [nesteddicts.put]. destruct rest as [|key2 rest]; [eauto|].
  destruct (dict_get key target) as [x|] eqn:Hget.
  - destruct x as [| | | | | |items];
      try (exfalso; apply Hmap; exists [key], key2, rest; eexists;
           split; [done|]; split; [econstructor; [exact Hget|constructor]|done]).
    destruct (IH items) as [inner Hinner]; [done| |].
    + intros (b & k & a & x & Heq & Hr & Hx). apply Hmap.
      exists (key :: b), k, a, x. split; [by rewrite Heq|].
      split; [by econstructor|done].
    + rewrite Hinner. simpl. eauto.
  - destruct (IH []) as [inner Hinner]; [done| |].
    + intros (b & k & a & x & Heq & Hr & Hx).
      inv Hr; try done. by destruct (Hx []).
    + rewrite Hinner. simpl. eauto.
Qed.

(** What was written is read back. *)
Lemma get_put_same (spec : list string) (target target' : list (string * json))
    (v : json) :
  nesteddicts.put target spec v = Ok target' → nesteddicts.get target' spec = Ok v.
Proof.
  unfold nesteddicts.get. revert target target'.
  induction spec as [|key rest IH]; intros target target'; [done|].
  cbn [nesteddicts.put]. destruct rest as [|key2 rest].
  - intros [= <-]. simpl. by rewrite dict_get_set_eq.
  - destruct (dict_get key target) as [x|] eqn:Hget.
    + destruct x; try done.
      destruct (nesteddicts.put items (key2 :: rest) v) as [inner|] eqn:Hin; [|done].
      simpl. intros [= <-]. cbn [nesteddicts.get_from].
      rewrite dict_get_set_eq. by apply (IH items).
    + destruct (nesteddicts.put [] (key2 :: rest) v) as [inner|] eqn:Hin; [|done].
      simpl. intros [= <-]. cbn [nesteddicts.get_from].
      rewrite dict_get_set_eq. by apply (IH []).
Qed.

(** A path that neither leads to the written path nor goes through it reads
    what it read before. *)
Lemma get_put_other (spec : list string) (target target' : list (string * json))
    (v : json) (q : list string) :
  nesteddicts.put target spec v = Ok target' →
  ¬ q `prefix_of` spec → ¬ spec `prefix_of` q →
  nesteddicts.get target' q = nesteddicts.get target q.
Proof.
  unfold nesteddicts.get. revert target target' q.
  induction spec as [|key rest IH]; intros target target' q; [done|].
  intros Hput Hq Hspec. destruct q as [|k q]; [exfalso; apply Hq, prefix_nil|].
  destruct (decide (key = k)) as [<-|Hne].
  - assert (¬ q `prefix_of` rest) as Hq' by (intros H; by apply Hq, prefix_cons).
    assert (¬ rest `prefix_of` q) as Hs' by (intros H; by apply Hspec, prefix_cons).
    cbn [nesteddicts.put] in Hput. destruct rest as [|key2 rest].
    { exfalso. apply Hs', prefix_nil. }
    destruct q as [|k2 q]; [exfalso; apply Hq', prefix_nil|].
    destruct (dict_get key target) as [x|] eqn:Hget.
    + destruct x; try done.
      destruct (nesteddicts.put items (key2 :: rest) v) as [inner|] eqn:Hin; [|done].
      simpl in Hput. injection Hput as <-. cbn [nesteddicts.get_from].
      rewrite dict_get_set_eq, Hget. exact (IH items inner (k2 :: q) Hin Hq' Hs').
    + destruct (nesteddicts.put [] (key2 :: rest) v) as [inner|] eqn:Hin; [|done].
      simpl in Hput. injection Hput as <-. cbn [nesteddicts.get_from].
      rewrite dict_get_set_eq, Hget. exact (IH [] inner (k2 :: q) Hin Hq' Hs').
  - assert (∃ x, target' = dict_set key x target) as [x ->].
    { cbn [nesteddicts.put] in Hput. destruct rest as [|key2 rest].
      - injection Hput as <-. eauto.
      - destruct (dict_get key target) as [[| | | | | |items]|]; try done.
        + destruct (nesteddicts.put items (key2 :: rest) v); [|done].
          injection Hput as <-. eauto.
        + destruct (nesteddicts.put [] (key2 :: rest) v); [|done].
          injection Hput as <-. eauto. }
    cbn [nesteddicts.get_from]. by rewrite dict_get_set_ne.
Qed.

Lemma foldl_str_min (l : list string) (acc : string) :
  (acc = "2020" ∨ acc = "2021") → (∀ x, x ∈ l → x = "2020" ∨ x = "2021") →
  foldl str_min acc l = if decide (acc = "2020" ∨ "2020" ∈ l) then "2020" else "2021".
Proof.
  revert acc. induction l as [|x l IH]; intros acc Hacc Hl.
  - simpl. destruct Hacc as [->| ->].
    + by rewrite decide_True by (by left).
    + rewrite decide_False; [done|]. intros [?|?%elem_of_nil]; done.
  - simpl. rewrite IH.
    + destruct (Hl x) as [->| ->]; [by left| |]; destruct Hacc as [->| ->];
        change (str_min "2020" "2020") with "2020";
        change (str_min "2021" "2020") with "2020";
        change (str_min "2020" "2021") with "2020";
        change (str_min "2021" "2021") with "2021".
      * by rewrite !decide_True by (by left).
      * rewrite !decide_True; [done|right; by left|by left].
      * by rewrite !decide_True by (by left).
      * destruct (decide ("2020" ∈ l)) as [Hin|Hin].
        -- rewrite !decide_True; [done|right; by right|by right].
        -- rewrite !decide_False; [done| |].
           ++ intros [?|[?|?]%elem_of_cons]; done.
           ++ intros [?|?]; done.
    + destruct (Hl x) as [->| ->]; [by left| |]; destruct Hacc as [->| ->];
        vm_compute; tauto.
    + intros y Hy. apply Hl. by right.
Qed.

Lemma foldl_str_max (l : list string) (acc : string) :
  (acc = "2020" ∨ acc = "2021") → (∀ x, x ∈ l → x = "2020" ∨ x = "2021") →
  foldl str_max acc l = if decide (acc = "2021" ∨ "2021" ∈ l) then "2021" else "2020".
Proof.
  revert acc. induction l as [|x l IH]; intros acc Hacc Hl.
  - simpl. destruct Hacc as [->| ->].
    + rewrite decide_False; [done|]. intros [?|?%elem_of_nil]; done.
    + by rewrite decide_True by (by left).
  - simpl. rewrite IH.
    + destruct (Hl x) as [->| ->]; [by left| |]; destruct Hacc as [->| ->];
        change (str_max "2020" "2020") with "2020";
        change (str_max "2021" "2020") with "2021";
        change (str_max "2020" "2021") with "2021";
        change (str_max "2021" "2021") with "2021".
      * destruct (decide ("2021" ∈ l)) as [Hin|Hin].
        -- rewrite !decide_True; [done|right; by right|by right].
        -- rewrite !decide_False; [done| |].
           ++ intros [?|[?|?]%elem_of_cons]; done.
           ++ intros [?|?]; done.
      * by rewrite !decide_True by (by left).
      * rewrite !decide_True; [done|right; by left|by left].
      * by rewrite !decide_True by (by left).
    + destruct (Hl x) as [->| ->]; [by left| |]; destruct Hacc as [->| ->];
        vm_compute; tauto.
    + intros y Hy. apply Hl. by right.
Qed.

Lemma periods_of_two (composite : list (string * json)) :
  "2020" ∈ composite.*1 → "2021" ∈ composite.*1 →
  (∀ key, key ∈ composite.*1 → key ∈ ["2020"; "2021"; "invariant"]) →
  py_min (periods_of composite) = Ok "2020" ∧
  py_max (periods_of composite) = Ok "2021".
Proof.
  intros H20 H21 Hkeys.
  assert (Hin : ∀ key, key ∈ periods_of composite ↔
                       key ≠ "invariant" ∧ key ∈ composite.*1).
  { intros key. unfold periods_of.
    by rewrite list_elem_of_filter, elem_of_remove_dups. }
  assert (Hall : ∀ key, key ∈ periods_of composite → key = "2020" ∨ key = "2021").
  { intros key [Hne Hk]%Hin. apply Hkeys in Hk.
    rewrite !elem_of_cons, elem_of_nil in Hk. tauto. }
  assert (H20' : "2020" ∈ periods_of composite) by (by apply Hin).
  assert (H21' : "2021" ∈ periods_of composite) by (by apply Hin).
  destruct (periods_of composite) as [|x rest]; [by apply elem_of_nil in H20'|].
  unfold py_min, py_max.
  rewrite foldl_str_min, foldl_str_max;
    try (apply Hall; by left); try (intros y Hy; apply Hall; by right).
  apply elem_of_cons in H20', H21'.
  rewrite !decide_True by (destruct H20', H21'; auto). done.
Qed.

(** C9: let the top level of a composite have the keys "2020" and "2021"
    and at most "invariant" besides, let the path of the weight variable
    hold 70.0 under "2020" and 75.0 under "2021", and let no value on the
    way to the path of the weight-gain variable under "invariant" be other
    than a mapping.  Then the change returns, the composite it leaves holds
    5.0 at the path of the weight-gain variable under "invariant", and every
    path that neither leads to that path nor goes through it reads as
    before. *)
Theorem weight_gain_written (self : CalculateWeightGain) (fuel : nat) (t t1 t2 : Track)
    (composite : list (string * json)) (weight_path gain_path : list string) :
  absolute_path fuel t (weight_var self) = Ok (t1, weight_path) →
  absolute_path fuel t1 (weight_gain_var self) = Ok (t2, gain_path) →
  "2020" ∈ composite.*1 → "2021" ∈ composite.*1 →
  (∀ key, key ∈ composite.*1 → key ∈ ["2020"; "2021"; "invariant"]) →
  nesteddicts.get composite ("2020" :: weight_path) = Ok (JFloat 70.0) →
  nesteddicts.get composite ("2021" :: weight_path) = Ok (JFloat 75.0) →
  ¬ not_a_mapping (JDict composite) ("invariant" :: gain_path) →
  ∃ composite',
    CalculateWeightGain_call self fuel t composite = Ok (t2, composite') ∧
    nesteddicts.get composite' ("invariant" :: gain_path) = Ok (JFloat 5.0) ∧
    ∀ q, ¬ q `prefix_of` "invariant" :: gain_path →
         ¬ "invariant" :: gain_path `prefix_of` q →
         nesteddicts.get composite' q = nesteddicts.get composite q.
Proof.
  intros Hw Hg H20 H21 Hkeys He Hl Hmap.
  destruct (periods_of_two composite H20 H21 Hkeys) as [Hmin Hmax].
  destruct (put_returns ("invariant" :: gain_path) composite (JFloat 5.0))
    as [composite' Hput]; [done|done|].
  exists composite'. split; [|split].
  - unfold CalculateWeightGain_call. rewrite Hmin, Hmax. simpl.
    rewrite Hw. simpl. rewrite He. simpl. rewrite Hl. simpl.
    rewrite Hg. simpl.
    change (PrimFloat.sub 75.0 70.0) with 5.0%float.
    simpl in Hput. by rewrite Hput.
  - by apply (get_put_same _ composite).
  - intros q Hq Hs.
    by apply (get_put_other ("invariant" :: gain_path) _ _ (JFloat 5.0)).
Qed.

Lemma weight_gain_written_witness :
  ∃ t' composite',
    CalculateWeightGain_call vitals_change 2 vitals_track vitals_composite
      = Ok (t', composite') ∧
    nesteddicts.get composite' ["invariant"; "weight_gain"] = Ok (JFloat 5.0) ∧
    nesteddicts.get composite' ["2021"; "height"] = Ok (JFloat 1.75).
Proof.
  destruct (absolute_path 2 vitals_track "w") as [[t1 wp]|] eqn:Hw;
    [|by vm_compute in Hw].
  destruct (absolute_path 2 t1 "g") as [[t2 gp]|] eqn:Hg.
  2: { vm_compute in Hw. injection Hw as <- <-. by vm_compute in Hg. }
  assert (wp = ["weight"]) as -> by (vm_compute in Hw; congruence).
  assert (gp = ["weight_gain"]) as ->.
  { vm_compute in Hw. injection Hw as <-. vm_compute in Hg. congruence. }
  destruct (weight_gain_written vitals_change 2 vitals_track t1 t2 vitals_composite
              ["weight"] ["weight_gain"] Hw Hg)
    as (composite' & Hcall & Hgain & Hother).
  - change ("2020" ∈ ["2021"; "2020"]). rewrite !elem_of_cons. tauto.
  - change ("2021" ∈ ["2021"; "2020"]). rewrite !elem_of_cons. tauto.
  - intros key Hk. change (key ∈ ["2021"; "2020"]) in Hk.
    rewrite !elem_of_cons, elem_of_nil in Hk. rewrite !elem_of_cons. tauto.
  - reflexivity.
  - reflexivity.
  - intros (b & k & a & x & Heq & Hr & Hx).
    destruct b as [|b1 b]; inv Hr; [by destruct (Hx vitals_composite)|].
    injection Heq as <- _. by vm_compute in H2.
  - exists t2, composite'. split; [exact Hcall|]. split; [exact Hgain|].
    rewrite Hother; [reflexivity| |].
    + intros [k Hk]. discriminate Hk.
    + intros [k Hk]. discriminate Hk.
Defined.

(** * Further properties of the code *)

Set Warnings "-clear-no-such-hyp".

(** ** The Unary caster *)

(** X1: [Unary.cast] on every raw value: absence on null and on the empty
    string, true on [True] and on a string that reads "x" in either case,
    and [ValueError] on everything else, [False] included; it never returns
    false. *)
Theorem Unary_cast_cases (value : json) :
  Unary_cast value =
    match value with
    | JNull => Ok None
    | JBool true => Ok (Some true)
    | JStr s => if decide (s = "") then Ok None
                else if decide (s = "x" ∨ s = "X") then Ok (Some true)
                else Raise ValueError
    | _ => Raise ValueError
    end.
Proof.
  destruct value as [|[]| | |s| |]; try reflexivity.
  unfold Unary_cast. simpl.
  destruct (decide (s = "")) as [->|Hne]; [reflexivity|].
  rewrite bool_decide_eq_false_2 by done. simpl.
  destruct (decide (s = "x" ∨ s = "X")) as [[->| ->]|Hx]; [reflexivity..|].
  rewrite bool_decide_eq_false_2; [reflexivity|].
  intros Hl. apply Hx. destruct s as [|c [|c' s']]; simpl in Hl; try discriminate.
  injection Hl as Hc. unfold lower_char in Hc.
  destruct c as [[] [] [] [] [] [] [] []]; vm_compute in Hc; try discriminate; auto.
Qed.

(** ** Ancestors *)

Lemma check_ancestor_reaches (fuel : nat) (t : Track) (self : Var) (child_id : VariableId) :
  check_ancestor fuel t self child_id false = Ok true ↔
  is_Some (strictly_between fuel t self child_id).
Proof.
  revert child_id. induction fuel as [|fuel IH]; intros child_id; simpl.
  - split; [done|]. by intros [? ?].
  - unfold track_getitem. destruct (variables t !! child_id) as [variable|]; simpl.
    2: { split; [done|]. by intros [? ?]. }
    destruct (parent variable) as [p|]; simpl.
    2: { split; [done|]. by intros [? ?]. }
    case_bool_decide as Hp; [split; eauto|].
    rewrite IH. destruct (variables t !! p) as [pv|] eqn:Hpv.
    + rewrite fmap_is_Some. done.
    + split; [|by intros [? ?]]. intros [b Hb]. destruct fuel; simpl in Hb; [done|].
      by rewrite Hpv in Hb.
Qed.

(** X2: without [stop_at_list], [check_ancestor] answers [True] exactly when the
    chain of parents of the candidate reaches the id of [self], within the
    depth allowed. *)
Theorem check_ancestor_plain (fuel : nat) (t : Track) (self : Var) (child_id : VariableId) :
  check_ancestor fuel t self child_id false = Ok true ↔
  is_Some (strictly_between fuel t self child_id).
Proof.
  split; intros H.
  - by apply check_ancestor_reaches.
  - by apply check_ancestor_reaches in H.
Qed.

(** X3: with [stop_at_list], [check_ancestor] answers [True] exactly when the
    parent of the candidate is no list and the chain of parents reaches
    [self]: the lists further up the chain are not looked at. *)
Theorem check_ancestor_stops_at_parent_only (fuel : nat) (t : Track) (self : Var)
    (child_id : VariableId) :
  check_ancestor fuel t self child_id true = Ok true ↔
  ∃ variable p pv,
    variables t !! child_id = Some variable ∧ parent variable = Some p ∧
    variables t !! p = Some pv ∧ isinstance pv Cls.GenericList = false ∧
    is_Some (strictly_between fuel t self child_id).
Proof.
  destruct fuel as [|fuel].
  { simpl. split; [done|]. by intros (? & ? & ? & _ & _ & _ & _ & [? ?]). }
  split.
  - intros H. pose proof H as H'. simpl in H. unfold track_getitem in H.
    destruct (variables t !! child_id) as [variable|] eqn:Hc; [|done]. simpl in H.
    destruct (parent variable) as [p|] eqn:Hp; [|done].
    destruct (variables t !! p) as [pv|] eqn:Hpv; [|done]. simpl in H.
    rewrite (check_ancestor_stop_at_list fuel t self variable pv child_id p) in H'
      by done.
    exists variable, p, pv. repeat split; try done.
    + by destruct (isinstance pv Cls.GenericList).
    + apply check_ancestor_reaches. by destruct (isinstance pv Cls.GenericList).
  - intros (variable & p & pv & Hc & Hp & Hpv & Hl & H).
    rewrite (check_ancestor_stop_at_list fuel t self variable pv child_id p) by done.
    rewrite Hl. by apply check_ancestor_reaches.
Qed.

Lemma ancestors_from_head (fuel : nat) (t : Track) (v : Var)
    (stop : option VariableId) (ancs : list Var) :
  ancestors_from fuel t v stop = Some (Ok ancs) → ∃ rest, ancs = v :: rest.
Proof.
  destruct fuel; simpl.
  - destruct (parent v) as [p|]; [|intros [= <-]; eauto].
    destruct (bool_decide (Some p = stop)); [intros [= <-]; eauto|done].
  - destruct (parent v) as [p|]; [|intros [= <-]; eauto].
    destruct (bool_decide (Some p = stop)); [intros [= <-]; eauto|].
    destruct (track_getitem t p) as [next|]; [|done].
    destruct (ancestors_from fuel t next stop) as [[rest|]|]; try done.
    intros [= <-]. eauto.
Qed.

(** X4: [descends_from_list] says whether one of the variables above [self] is
    a list or a named list. *)
Theorem descends_from_list_ancestors (fuel : nat) (t : Track) (self : Var)
    (ancs : list Var) :
  ancestors fuel t self None = Some (Ok ancs) →
  (∀ a, a ∈ ancs → parent a ≠ Some "") →
  descends_from_list (S fuel) t self =
    Ok (existsb (λ a, isinstance a Cls.GenericList) (tail ancs)).
Proof.
  unfold ancestors. revert self ancs.
  induction fuel as [|fuel IH]; intros self ancs Hancs Hne.
  - simpl in *. destruct (parent self) as [p|]; [done|].
    injection Hancs as <-. done.
  - cbn [ancestors_from] in Hancs. cbn [descends_from_list].
    destruct (parent self) as [p|] eqn:Hp.
    2: { injection Hancs as <-. done. }
    rewrite bool_decide_eq_false_2 in Hancs by done.
    destruct (track_getitem t p) as [next|] eqn:Hnext; [|done].
    destruct (ancestors_from fuel t next None) as [[rest|]|] eqn:Hrest; try done.
    injection Hancs as <-.
    assert (p ≠ "") as Hpne.
    { intros ->. apply (Hne self); [by left|done]. }
    simpl. rewrite bool_decide_eq_false_2 by done. simpl. rewrite Hnext. simpl.
    destruct (ancestors_from_head _ _ _ _ _ Hrest) as [rest' ->]. simpl.
    destruct (isinstance next Cls.GenericList); [done|]. simpl.
    apply (IH next (next :: rest') Hrest).
    intros a Ha. apply Hne. by right.
Qed.

Lemma descends_from_list_ancestors_witness :
  descends_from_list 4 records_track records_city = Ok true.
Proof.
  rewrite (descends_from_list_ancestors 3 records_track records_city
             [records_city; plain Cls.Folder "address" "address" 0 (Some "records") [];
              plain Cls.NamedList "records" "records" 0 (Some "root") [];
              plain Cls.Folder "root" "root" 0 None []]).
  - reflexivity.
  - by vm_compute.
  - intros a Ha. repeat (apply elem_of_cons in Ha as [->|Ha]; [done|]).
    by apply elem_of_nil in Ha.
Defined.

(** X5: [get_first_list_ancestor] returns the nearest variable above [self]
    that is a list or a named list, and [None] when there is none. *)
Theorem get_first_list_ancestor_nearest (fuel : nat) (t : Track) (self : Var)
    (ancs : list Var) :
  ancestors fuel t self None = Some (Ok ancs) →
  get_first_list_ancestor (S fuel) t self =
    Ok (head (filter (λ a, isinstance a Cls.GenericList = true) (tail ancs))).
Proof.
  unfold ancestors. revert self ancs.
  induction fuel as [|fuel IH]; intros self ancs Hancs.
  - simpl in *. destruct (parent self) as [p|]; [done|].
    injection Hancs as <-. done.
  - cbn [ancestors_from] in Hancs. cbn [get_first_list_ancestor].
    destruct (parent self) as [p|] eqn:Hp.
    2: { injection Hancs as <-. done. }
    rewrite bool_decide_eq_false_2 in Hancs by done.
    destruct (track_getitem t p) as [next|] eqn:Hnext; [|done].
    destruct (ancestors_from fuel t next None) as [[rest|]|] eqn:Hrest; try done.
    injection Hancs as <-. simpl.
    destruct (ancestors_from_head _ _ _ _ _ Hrest) as [rest' ->].
    cbn [tail]. rewrite filter_cons.
    destruct (isinstance next Cls.GenericList) eqn:Hl.
    + by rewrite decide_True.
    + rewrite decide_False by done. apply (IH next (next :: rest') Hrest).
Qed.

Lemma get_first_list_ancestor_nearest_witness :
  get_first_list_ancestor 4 records_track records_city
  = Ok (Some (plain Cls.NamedList "records" "records" 0 (Some "root") [])).
Proof.
  rewrite (get_first_list_ancestor_nearest 3 records_track records_city
             [records_city; plain Cls.Folder "address" "address" 0 (Some "records") [];
              plain Cls.NamedList "records" "records" 0 (Some "root") [];
              plain Cls.Folder "root" "root" 0 None []]).
  - reflexivity.
  - by vm_compute.
Defined.

(** X6: with a parent to stop at, [ancestors] yields the first part of the full
    chain, up to the variable whose parent is the stop; the names it gives
    [DocumentValueProvider] are then the last part of the root-to-self
    path. *)
Theorem ancestors_stop_prefix (fuel : nat) (t : Track) (v : Var)
    (stop : option VariableId) (full : list Var) :
  ancestors fuel t v None = Some (Ok full) →
  ∃ short more,
    ancestors fuel t v stop = Some (Ok short) ∧
    full = (short ++ more)%list ∧
    (more = [] ∨ ∃ l, last short = Some l ∧ parent l = stop ∧ is_Some stop) ∧
    reverse (name <$> short) `suffix_of` reverse (name <$> full).
Proof.
  intros Hfull.
  cut (∃ short more,
         ancestors fuel t v stop = Some (Ok short) ∧
         full = (short ++ more)%list ∧
         (more = [] ∨ ∃ l, last short = Some l ∧ parent l = stop ∧ is_Some stop)).
  { intros (short & more & H1 & -> & H3). exists short, more.
    repeat split; try done. rewrite fmap_app, reverse_app. by eexists. }
  unfold ancestors in *. revert v full Hfull.
  induction fuel as [|fuel IH]; intros v full Hfull.
  - simpl in *. destruct (parent v) as [p|] eqn:Hp; [done|].
    injection Hfull as <-. exists [v], []. split; [done|]. split; [done|]. by left.
  - cbn [ancestors_from] in *. destruct (parent v) as [p|] eqn:Hp.
    2: { injection Hfull as <-. exists [v], []. split; [done|]. split; [done|]. by left. }
    rewrite bool_decide_eq_false_2 in Hfull by done.
    destruct (track_getitem t p) as [next|] eqn:Hnext; [|done].
    destruct (ancestors_from fuel t next None) as [[rest|]|] eqn:Hrest; try done.
    injection Hfull as <-.
    case_bool_decide as Hstop.
    + exists [v], rest. split; [done|]. split; [done|]. right.
      exists v. split; [done|]. split; [by rewrite Hp|]. rewrite <- Hstop. eauto.
    + destruct (IH next rest Hrest) as (short & more & Hs & -> & Hlast).
      rewrite Hs. exists (v :: short), more. split; [done|]. split; [done|].
      destruct Hlast as [->|(l & Hl & Hpl & Hsome)]; [by left|].
      right. exists l. split; [|done].
      destruct short; [done|]. by rewrite last_cons, Hl.
Qed.

Lemma ancestors_stop_prefix_witness :
  ∃ short more,
    ancestors 3 records_track records_city (Some "records") = Some (Ok short) ∧
    name <$> short = ["city"; "address"] ∧ name <$> more = ["records"; "root"].
Proof.
  destruct (ancestors_stop_prefix 3 records_track records_city (Some "records")
              [records_city; plain Cls.Folder "address" "address" 0 (Some "records") [];
               plain Cls.NamedList "records" "records" 0 (Some "root") [];
               plain Cls.Folder "root" "root" 0 None []])
    as (short & more & Hs & Hfull & _); [by vm_compute|].
  exists short, more. split; [exact Hs|].
  vm_compute in Hs. injection Hs as <-.
  injection Hfull as <-. done.
Defined.

(** ** Siblings *)

(** X7: in a track that holds every variable under its own id, the siblings of
    a variable whose parent, if any, is in the track are exactly the
    variables with the same parent, each once; a variable of the track is
    among its own siblings. *)
Theorem siblings_same_parent (t : Track) (self : Var) :
  well_keyed t →
  (∀ p, parent self = Some p → is_Some (variables t !! p)) →
  ∃ sibs, siblings t self = Ok sibs ∧ NoDup sibs ∧
          ∀ id, id ∈ sibs ↔ ∃ w, variables t !! id = Some w ∧ parent w = parent self.
Proof.
  intros Hwk Hp.
  assert (Hmem : ∀ (P : Var → Prop) `{!∀ v, Decision (P v)} id,
             id ∈ var_id <$> filter P (track_values t) ↔
             ∃ w, variables t !! id = Some w ∧ P w).
  { intros P ? id. rewrite list_elem_of_fmap. split.
    - intros (w & -> & [HP Hw%elem_of_track_values]%list_elem_of_filter).
      destruct Hw as [k Hk]. exists w. by rewrite (Hwk _ _ Hk).
    - intros (w & Hw & HP). exists w. split; [by rewrite (Hwk _ _ Hw)|].
      apply list_elem_of_filter. split; [done|]. apply elem_of_track_values. eauto. }
  unfold siblings, roots, children. destruct (parent self) as [p|] eqn:Hpar.
  - destruct (Hp p eq_refl) as [pv Hpv]. unfold track_getitem. rewrite Hpv. simpl.
    eexists. split; [done|]. split; [by apply ids_of_filter_NoDup|].
    intros id. rewrite Hmem. by rewrite (Hwk _ _ Hpv).
  - eexists. split; [done|]. split; [by apply ids_of_filter_NoDup|].
    intros id. by rewrite Hmem.
Qed.

Lemma siblings_same_parent_witness :
  ∃ sibs, siblings three_roots newcomer = Ok sibs ∧
          "x" ∈ sibs ∧ "y" ∈ sibs ∧ "z" ∈ sibs ∧ "w" ∉ sibs.
Proof.
  destruct (siblings_same_parent three_roots newcomer) as (sibs & Hs & _ & Hmem).
  - intros k v. unfold three_roots. simpl. rewrite !lookup_insert.
    repeat case_decide; try (intros [= <-]; by subst).
  - intros p Hp. discriminate Hp.
  - exists sibs. split; [exact Hs|]. rewrite !Hmem.
    repeat split; try (eexists; split; [by vm_compute|done]).
    intros (w & Hw & _). by vm_compute in Hw.
Defined.

(** ** Named lists *)

(** X8: a call of [process_source_value] that returns was given a mapping none
    of whose keys was in the result before; it has appended one entry per
    key, in order, and changed no earlier entry. *)
Theorem process_source_value_appends
    (translate : json → VariableId → VariableId → result json)
    (self self' : NamedListTranslator) (source_value : json) (source_id : VariableId) :
  process_source_value translate self source_value source_id = Ok self' →
  ∃ items new,
    source_value = JDict items ∧
    self_result self' = (self_result self ++ new)%list ∧
    new.*1 = items.*1 ∧
    (∀ key, key ∈ items.*1 → key ∉ (self_result self).*1) ∧
    variable self' = variable self.
Proof.
  destruct source_value as [| | | | | |items]; try done. simpl.
  intros H. exists items.
  cut (∃ new, self_result self' = (self_result self ++ new)%list ∧
              new.*1 = items.*1 ∧
              (∀ key, key ∈ items.*1 → key ∉ (self_result self).*1) ∧
              variable self' = variable self).
  { intros (new & ?). by exists new. }
  revert self H. induction items as [|[key item] rest IH]; intros self H.
  - injection H as <-. exists []. rewrite app_nil_r. repeat split; try done.
    by intros key ?%elem_of_nil.
  - cbn [process_items] in H.
    destruct (dict_mem key (self_result self)) eqn:Hmem; [done|].
    assert (key ∉ (self_result self).*1) as Hfresh.
    { intros Hin%dict_mem_elem. congruence. }
    destruct (translate item (var_id (variable self)) source_id) as [r|]; [|done].
    simpl in H. rewrite dict_set_fresh in H by done.
    destruct (IH _ H) as (new & Hres & Hkeys & Hnew & Hv). simpl in *.
    exists ((key, r) :: new). split; [by rewrite Hres, <- app_assoc|].
    split; [rewrite !fmap_cons; by f_equal|]. split; [|done].
    intros k [->|Hk]%elem_of_cons; [done|].
    intros Hin. apply (Hnew k Hk). rewrite fmap_app. apply elem_of_app. by left.
Qed.

Lemma process_source_value_appends_witness :
  ∃ self',
    process_source_value keep_booleans
      (mkNamedListTranslator (plain Cls.NamedList "nl" "nl" 0 None ["s"])
         [("a", JBool true)] true false)
      (JDict [("b", JBool false)]) "s" = Ok self' ∧
    self_result self' = [("a", JBool true); ("b", JBool false)].
Proof.
  eexists. split; [reflexivity|].
  destruct (process_source_value_appends keep_booleans
              (mkNamedListTranslator (plain Cls.NamedList "nl" "nl" 0 None ["s"])
                 [("a", JBool true)] true false) _
              (JDict [("b", JBool false)]) "s" eq_refl)
    as (items & new & _ & Hres & _). reflexivity.
Defined.

(** ** Absolute paths and their memoisation *)

Lemma same_structure_refl (t : Track) : same_structure t t.
Proof. by split. Qed.

Lemma same_structure_trans (t1 t2 t3 : Track) :
  same_structure t1 t2 → same_structure t2 t3 → same_structure t1 t3.
Proof.
  intros [Hs1 Hv1] [Hs2 Hv2]. split; [congruence|].
  intros vid. by rewrite Hv2, Hv1.
Qed.

Lemma same_structure_lookup (t t' : Track) (vid : VariableId) (v : Var) :
  same_structure t t' → variables t !! vid = Some v →
  ∃ v', variables t' !! vid = Some v' ∧ name v' = name v ∧ parent v' = parent v.
Proof.
  intros [_ H] Hv. specialize (H vid). rewrite Hv in H.
  destruct (variables t' !! vid) as [v'|]; [|done].
  exists v'. split; [done|]. simpl in H. injection H as H.
  by destruct v, v'; simplify_eq/=.
Qed.

Lemma same_structure_cache_store (t : Track) (vid key : string) (c : cached) :
  same_structure t (cache_store t vid key c).
Proof.
  split; [done|]. intros w. unfold cache_store. simpl.
  rewrite lookup_alter. case_decide as E; [|done]. subst.
  by destruct (variables t !! w).
Qed.

Lemma path_to_structure (t t' : Track) (vid : VariableId) (path : list string) :
  same_structure t t' → path_to t vid path → path_to t' vid path.
Proof.
  intros Hs. induction 1 as [vid v Hv Hp|vid v p above Hv Hp _ IH].
  - destruct (same_structure_lookup _ _ _ _ Hs Hv) as (v' & Hv' & <- & Hpar).
    apply path_root; [done|]. by rewrite Hpar.
  - destruct (same_structure_lookup _ _ _ _ Hs Hv) as (v' & Hv' & <- & Hpar).
    eapply path_below; [done| |done]. by rewrite Hpar.
Qed.

Lemma path_to_det (t : Track) (vid : VariableId) (p1 p2 : list string) :
  path_to t vid p1 → path_to t vid p2 → p1 = p2.
Proof.
  intros H1. revert p2. induction H1 as [vid v Hv Hp|vid v p above Hv Hp _ IH];
    intros p2 H2; inv H2; simplify_eq; try done.
  by rewrite (IH above0).
Qed.

Lemma cache_sound_store (t : Track) (vid : VariableId) (path : list string) :
  cache_sound t → path_to t vid path →
  cache_sound (cache_store t vid "absolute_path" (CachedPath path)).
Proof.
  intros Hsound Hpath w v' path' Hw Hc.
  apply (path_to_structure t); [apply same_structure_cache_store|].
  unfold cache_store in Hw. simpl in Hw. rewrite lookup_alter in Hw.
  case_decide as E.
  - subst w. destruct (variables t !! vid) as [v|] eqn:Hv; [|done].
    simpl in Hw. injection Hw as <-. simpl in Hc.
    rewrite lookup_insert_eq in Hc. by injection Hc as <-.
  - by apply (Hsound w v').
Qed.

Lemma absolute_path_sound (fuel : nat) (t : Track) (vid : VariableId)
    (path : list string) :
  cache_sound t → path_to t vid path → (length path <= fuel)%nat →
  ∃ t', absolute_path fuel t vid = Ok (t', path) ∧
        cache_sound t' ∧ same_structure t t' ∧
        ∃ v', variables t' !! vid = Some v' ∧
              _cache v' !! "absolute_path" = Some (CachedPath path).
Proof.
  intros Hsound Hpath. revert fuel.
  induction Hpath as [vid v Hv Hp|vid v p above Hv Hp Habove IH]; intros fuel Hlen.
  - destruct fuel as [|fuel]; [simpl in Hlen; lia|]. simpl.
    unfold track_getitem. rewrite Hv. simpl.
    destruct (_cache v !! "absolute_path") as [[cached_path]|] eqn:Hc.
    + assert (cached_path = [name v]) as ->.
      { apply (path_to_det t vid); [by apply (Hsound vid v)|by apply path_root]. }
      exists t. split; [done|]. split; [done|]. split; [apply same_structure_refl|].
      by exists v.
    + rewrite Hp. simpl. eexists. split; [done|].
      split; [apply cache_sound_store; [done|by apply path_root]|].
      split; [apply same_structure_cache_store|].
      unfold cache_store. simpl. rewrite lookup_alter_eq, Hv. simpl.
      eexists. split; [done|]. simpl. by rewrite lookup_insert_eq.
  - destruct fuel as [|fuel]; [rewrite length_app in Hlen; simpl in Hlen; lia|].
    simpl. unfold track_getitem at 1. rewrite Hv. simpl.
    destruct (_cache v !! "absolute_path") as [[cached_path]|] eqn:Hc.
    + assert (cached_path = (above ++ [name v])%list) as ->.
      { apply (path_to_det t vid); [by apply (Hsound vid v)|].
        by eapply path_below. }
      exists t. split; [done|]. split; [done|]. split; [apply same_structure_refl|].
      by exists v.
    + rewrite Hp. simpl.
      destruct (IH fuel) as (t1 & Ht1 & Hsound1 & Hs1 & _).
      { rewrite length_app in Hlen. simpl in Hlen. lia. }
      rewrite Ht1. simpl.
      destruct (same_structure_lookup _ _ _ _ Hs1 Hv) as (v1 & Hv1 & Hn1 & Hp1).
      rewrite <- Hn1.
      assert (path_to t1 vid (above ++ [name v1])) as Hpath1.
      { eapply path_below; [done|by rewrite Hp1|].
        by apply (path_to_structure t). }
      eexists. split; [done|].
      split; [by apply cache_sound_store|].
      split; [eapply same_structure_trans; [done|apply same_structure_cache_store]|].
      unfold cache_store. simpl. rewrite lookup_alter_eq, Hv1. simpl.
      eexists. split; [done|]. simpl. by rewrite lookup_insert_eq.
Qed.

(** X9: in a track whose caches are sound, [absolute_path] returns the names
    from the root down to the variable, given a depth that covers them; it
    leaves the caches sound and changes nothing but caches. *)
Theorem absolute_path_names (fuel : nat) (t : Track) (vid : VariableId)
    (path : list string) :
  cache_sound t → path_to t vid path → (length path <= fuel)%nat →
  ∃ t', absolute_path fuel t vid = Ok (t', path) ∧
        cache_sound t' ∧ same_structure t t'.
Proof.
  intros Hsound Hpath Hlen.
  destruct (absolute_path_sound fuel t vid path Hsound Hpath Hlen)
    as (t' & Hcall & Hsound' & Hsame & _).
  exists t'. split; [exact Hcall|]. split; [exact Hsound'|exact Hsame].
Qed.

Lemma family_track_sound : cache_sound family_track.
Proof.
  intros vid v path Hv Hc. unfold family_track in Hv. simpl in Hv.
  rewrite !lookup_insert in Hv.
  repeat case_decide; try (injection Hv as <-; by vm_compute in Hc).
  by rewrite lookup_empty in Hv.
Qed.

Lemma absolute_path_names_witness :
  ∃ t', absolute_path 2 family_track "a1" = Ok (t', ["a"; "a1"]).
Proof.
  destruct (absolute_path_names 2 family_track "a1" ["a"; "a1"] family_track_sound)
    as (t' & Ht' & _).
  - apply (path_below family_track "a1" (plain Cls.Text "a1" "a1" 0 (Some "a") [])
             "a" ["a"]); [by vm_compute|by vm_compute|].
    by apply (path_root family_track "a" (plain Cls.Folder "a" "a" 0 None [])).
  - simpl. lia.
  - by exists t'.
Defined.

Lemma absolute_path_cached (fuel : nat) (t t' : Track) (vid : VariableId)
    (path : list string) :
  absolute_path fuel t vid = Ok (t', path) →
  same_structure t t' ∧
  ∃ v', variables t' !! vid = Some v' ∧
        _cache v' !! "absolute_path" = Some (CachedPath path).
Proof.
  revert t t' vid path. induction fuel as [|fuel IH]; intros t t' vid path; [done|].
  simpl. unfold track_getitem at 1.
  destruct (variables t !! vid) as [v|] eqn:Hv; [|done]. simpl.
  destruct (_cache v !! "absolute_path") as [[cached_path]|] eqn:Hc.
  { intros [= <- <-]. split; [apply same_structure_refl|]. by exists v. }
  assert (Hstore : ∀ t1 path1,
            same_structure t t1 →
            same_structure t (cache_store t1 vid "absolute_path" (CachedPath path1)) ∧
            ∃ v', variables (cache_store t1 vid "absolute_path" (CachedPath path1)) !! vid
                  = Some v' ∧
                  _cache v' !! "absolute_path" = Some (CachedPath path1)).
  { intros t1 path1 Hs.
    split; [eapply same_structure_trans; [done|apply same_structure_cache_store]|].
    destruct (same_structure_lookup _ _ _ _ Hs Hv) as (v1 & Hv1 & _).
    unfold cache_store. simpl. rewrite lookup_alter_eq, Hv1. simpl.
    eexists. split; [done|]. simpl. by rewrite lookup_insert_eq. }
  destruct (truthy (parent v)) as [p|]; simpl.
  - destruct (absolute_path fuel t p) as [[t1 above]|] eqn:Hrec; [|done]. simpl.
    intros [= <- <-]. apply Hstore. by destruct (IH _ _ _ _ Hrec).
  - intros [= <- <-]. apply Hstore, same_structure_refl.
Qed.

(** X10: a second read of [absolute_path] returns the path of the first from the
    cache and leaves the track as the first read left it. *)
Theorem absolute_path_memoised (fuel fuel' : nat) (t t' : Track) (vid : VariableId)
    (path : list string) :
  absolute_path fuel t vid = Ok (t', path) →
  absolute_path (S fuel') t' vid = Ok (t', path).
Proof.
  intros H. destruct (absolute_path_cached _ _ _ _ _ H) as (_ & v' & Hv' & Hc).
  simpl. unfold track_getitem. rewrite Hv'. simpl. by rewrite Hc.
Qed.

Lemma absolute_path_memoised_witness :
  ∃ t', absolute_path 2 family_track "a1" = Ok (t', ["a"; "a1"]) ∧
        absolute_path 1 t' "a1" = Ok (t', ["a"; "a1"]).
Proof.
  destruct (absolute_path 2 family_track "a1") as [[t' path]|] eqn:H;
    [|by vm_compute in H].
  assert (path = ["a"; "a1"]) as -> by (vm_compute in H; congruence).
  exists t'. split; [reflexivity|].
  exact (absolute_path_memoised 2 0 family_track t' "a1" ["a"; "a1"] H).
Defined.

(** X11: the root-to-self names that [ancestors] gives [DocumentValueProvider]
    are the absolute path of the variable, when no parent is the empty
    string. *)
Theorem ancestors_names_are_path (fuel : nat) (t : Track) (v : Var) (ancs : list Var) :
  variables t !! var_id v = Some v →
  ancestors fuel t v None = Some (Ok ancs) →
  (∀ a, a ∈ ancs → parent a ≠ Some "") →
  path_to t (var_id v) (reverse (name <$> ancs)).
Proof.
  unfold ancestors.
  assert (∀ vid, variables t !! vid = Some v →
            ancestors_from fuel t v None = Some (Ok ancs) →
            (∀ a, a ∈ ancs → parent a ≠ Some "") →
            path_to t vid (reverse (name <$> ancs))) as H; [|apply H].
  revert v ancs. induction fuel as [|fuel IH]; intros v ancs vid Hv Hancs Hne.
  - simpl in Hancs. destruct (parent v) as [p|] eqn:Hp; [done|].
    injection Hancs as <-. apply path_root; [done|]. by rewrite Hp.
  - cbn [ancestors_from] in Hancs. destruct (parent v) as [p|] eqn:Hp.
    2: { injection Hancs as <-. apply path_root; [done|]. by rewrite Hp. }
    rewrite bool_decide_eq_false_2 in Hancs by done.
    unfold track_getitem in Hancs.
    destruct (variables t !! p) as [next|] eqn:Hnext; [|done].
    destruct (ancestors_from fuel t next None) as [[rest|]|] eqn:Hrest; try done.
    injection Hancs as <-. rewrite fmap_cons, reverse_cons.
    eapply path_below; [done| |].
    + rewrite Hp. simpl. rewrite bool_decide_eq_false_2; [done|].
      intros ->. apply (Hne v); [by left|done].
    + apply (IH next rest p); [done|done|]. intros a Ha. apply Hne. by right.
Qed.

Lemma ancestors_names_are_path_witness :
  path_to records_track "city" ["root"; "records"; "address"; "city"].
Proof.
  apply (ancestors_names_are_path 3 records_track records_city
           [records_city; plain Cls.Folder "address" "address" 0 (Some "records") [];
            plain Cls.NamedList "records" "records" 0 (Some "root") [];
            plain Cls.Folder "root" "root" 0 None []]).
  - by vm_compute.
  - by vm_compute.
  - intros a Ha. repeat (apply elem_of_cons in Ha as [->|Ha]; [done|]).
    by apply elem_of_nil in Ha.
Defined.

(** X12: after a successful assignment of a name, [absolute_path] of any
    variable returns its path under the new names: the path of the renamed
    variable ends in the new name, whatever the caches held before. *)
Theorem rename_then_absolute_path (fuel : nat) (t t' : Track) (vid w : VariableId)
    (value : string) (path : list string) :
  setattr_name t vid value = Ok t' →
  path_to t' w path → (length path <= fuel)%nat →
  (∃ t'', absolute_path fuel t' w = Ok (t'', path)) ∧
  (w = vid → last path = Some value).
Proof.
  intros Hset Hpath Hlen.
  pose proof (setattr_name_with_variables _ _ _ _ _ Hset) as Hvars.
  assert (cache_sound t') as Hsound.
  { intros x v p Hx Hc. rewrite Hvars in Hx. rewrite lookup_alter in Hx.
    unfold invalidate_variables_cache in Hx. simpl in Hx.
    destruct (decide (vid = x)) as [->|Hne].
    - rewrite lookup_fmap in Hx. destruct (variables t !! x) as [v0|]; [|done].
      simpl in Hx. injection Hx as <-. simpl in Hc. by rewrite lookup_empty in Hc.
    - rewrite lookup_fmap in Hx. destruct (variables t !! x) as [v0|]; [|done].
      simpl in Hx. injection Hx as <-. simpl in Hc. by rewrite lookup_empty in Hc. }
  split.
  - destruct (absolute_path_sound fuel t' w path Hsound Hpath Hlen) as (t'' & H & _).
    by exists t''.
  - intros ->.
    assert (∀ v, variables t' !! vid = Some v → name v = value) as Hname.
    { intros v Hv. rewrite Hvars, lookup_alter_eq in Hv.
      destruct (variables (invalidate_variables_cache t) !! vid); [|done].
      simpl in Hv. by injection Hv as <-. }
    inv Hpath.
    + by rewrite (Hname _ H).
    + by rewrite last_snoc, (Hname _ H).
Qed.

Lemma rename_then_absolute_path_witness :
  ∃ t' t'', setattr_name warm_family_track "a" "alpha" = Ok t' ∧
            absolute_path 2 t' "a1" = Ok (t'', ["alpha"; "a1"]).
Proof.
  set (t' := mkTrack (alter (fun v => set_name v "alpha") "a"
                        (variables (invalidate_variables_cache warm_family_track)))
                     None).
  assert (setattr_name warm_family_track "a" "alpha" = Ok t') as Hset
    by (by vm_compute).
  destruct (rename_then_absolute_path 2 warm_family_track t' "a" "a1" "alpha"
              ["alpha"; "a1"] Hset) as [(t'' & H) _].
  - apply (path_below t' "a1" (plain Cls.Text "a1" "a1" 0 (Some "a") []) "a" ["alpha"]);
      [by vm_compute|by vm_compute|].
    by apply (path_root t' "a" (plain Cls.Folder "a" "alpha" 0 None [])).
  - simpl. lia.
  - by exists t', t''.
Defined.

(** ** Removing and moving among siblings *)

Lemma closed_seqZ_without (k n : Z) :
  0 <= k < n →
  (λ x, if decide (k <= x) then x - 1 else x) <$> seqZ_without k n = seqZ 0 (n - 1).
Proof.
  intros Hk. unfold seqZ_without. rewrite fmap_app.
  assert ((λ x, if decide (k <= x) then x - 1 else x) <$> seqZ 0 k = seqZ 0 k) as ->.
  { rewrite <- (list_fmap_id (seqZ 0 k)) at 2. apply Forall_fmap_ext_1, Forall_forall.
    intros x Hx%elem_of_seqZ. destruct (decide (k <= x)); [lia|done]. }
  assert ((λ x, if decide (k <= x) then x - 1 else x) <$> seqZ (k + 1) (n - 1 - k)
          = seqZ k (n - 1 - k)) as ->.
  { replace (seqZ k (n - 1 - k)) with (seqZ (-1 + (k + 1)) (n - 1 - k))
      by (f_equal; lia).
    rewrite <- (fmap_add_seqZ (-1) (k + 1)).
    apply Forall_fmap_ext_1, Forall_forall.
    intros x Hx%elem_of_seqZ. destruct (decide (k <= x)); lia. }
  replace (n - 1) with (k + (n - 1 - k)) at 2 by lia.
  by rewrite (seqZ_app 0 k (n - 1 - k)), Z.add_0_l by lia.
Qed.

Lemma moved_seqZ_without (old_order new_order n : Z) :
  0 <= old_order < n → 0 <= new_order <= n →
  free_slot old_order new_order
    :: (moved old_order new_order <$> seqZ_without old_order n) ≡ₚ seqZ 0 n.
Proof.
  intros Ho Hn.
  assert (moved old_order new_order <$> seqZ_without old_order n =
          shifted (free_slot old_order new_order)
            <$> ((λ x, if decide (old_order <= x) then x - 1 else x)
                   <$> seqZ_without old_order n)) as ->.
  { rewrite <- list_fmap_compose. apply Forall_fmap_ext_1, Forall_forall.
    intros x Hx. unfold seqZ_without in Hx.
    apply elem_of_app in Hx as [Hx%elem_of_seqZ|Hx%elem_of_seqZ];
      unfold moved, shifted, free_slot; simpl;
      repeat case_bool_decide; repeat case_decide; lia. }
  rewrite closed_seqZ_without by done.
  replace n with (n - 1 + 1) at 2 by lia. apply shifted_seqZ_insert.
  unfold free_slot. case_decide; lia.
Qed.

Lemma shift_siblings_orders (t t' : Track) (self : Var) (sibs : list VariableId)
    (old_order new_order : Z) :
  well_keyed t → siblings t self = Ok sibs →
  shift_siblings t self old_order new_order sibs = Ok t' →
  let existing := filter (λ id, id ≠ var_id self) sibs in
  orders_of t' existing = moved old_order new_order <$> orders_of t existing ∧
  (∀ id, id ∉ existing → variables t' !! id = variables t !! id).
Proof.
  intros Hwk Hsibs Hshift existing.
  destruct (siblings_wf _ _ _ Hwk Hsibs) as [Hnd Hpres].
  destruct (shift_siblings_lookup self old_order new_order sibs t Hnd Hpres)
    as (t1 & Ht1 & Hl).
  rewrite Hshift in Ht1. injection Ht1 as <-.
  assert (Hex : ∀ id, id ∈ existing ↔ id ∈ sibs ∧ id ≠ var_id self).
  { intros id. unfold existing. rewrite list_elem_of_filter. tauto. }
  split.
  - apply (orders_of_shift t t' (shift_by old_order new_order)); [done|].
    intros id Hid. rewrite Hl. by rewrite decide_True by (by apply Hex).
  - intros id Hid. rewrite Hl. rewrite decide_False; [done|].
    intros H. by apply Hid, Hex.
Qed.

(** X13: let the siblings of a variable other than itself carry the sort
    orders 0 to n-1 without [old_order].  Then [update_sort_order] with that
    old order and no new order returns and closes the gap: each of those
    siblings whose sort order is above [old_order] has it lowered by one and
    the others keep theirs, nothing else in the track changes, and the sort
    orders of those siblings are then exactly 0 to n-2. *)
Theorem update_sort_order_remove (t : Track) (self : Var) (sibs : list VariableId)
    (old_order n : Z) :
  well_keyed t →
  siblings t self = Ok sibs →
  let existing := filter (λ id, id ≠ var_id self) sibs in
  orders_of t existing ≡ₚ seqZ_without old_order n →
  0 <= old_order < n →
  ∃ t', update_sort_order t self (Some old_order) None = Ok t' ∧
        (∀ id, id ∈ existing →
           variables t' !! id =
           (λ v, set_sort_order v (lowered old_order (sort_order v)))
             <$> variables t !! id) ∧
        (∀ id, id ∉ existing → variables t' !! id = variables t !! id) ∧
        orders_of t' existing ≡ₚ seqZ 0 (n - 1).
Proof.
  intros Hwk Hsibs existing Hperm Hk.
  destruct (siblings_wf _ _ _ Hwk Hsibs) as [Hnd Hpres].
  unfold update_sort_order. rewrite Hsibs. simpl.
  set (new := Z.of_nat (length sibs) + 1).
  destruct (shift_siblings_lookup self old_order new sibs t Hnd Hpres)
    as (t' & Ht' & Hl).
  exists t'. split; [exact Ht'|].
  assert (Hex : ∀ id, id ∈ existing ↔ id ∈ sibs ∧ id ≠ var_id self).
  { intros id. unfold existing. rewrite list_elem_of_filter. tauto. }
  assert (Hlen : n - 1 <= Z.of_nat (length sibs)).
  { pose proof (Permutation_length Hperm) as Hl1. unfold seqZ_without in Hl1.
    rewrite length_app, !length_seqZ in Hl1.
    pose proof (orders_of_length t existing) as Hl2.
    pose proof (length_filter (λ id, id ≠ var_id self) sibs) as Hl3.
    fold existing in Hl3. lia. }
  assert (Hlower : ∀ id, id ∈ existing →
     variables t' !! id =
     (λ v, set_sort_order v (lowered old_order (sort_order v)))
       <$> variables t !! id).
  { intros id Hid. rewrite Hl. rewrite decide_True by (by apply Hex).
    destruct (variables t !! id) as [v|] eqn:Hv; [|done]. simpl. f_equal.
    assert (0 <= sort_order v < n ∧ sort_order v ≠ old_order) as Hrange.
    { pose proof (orders_of_elem t existing id v Hid Hv) as He.
      rewrite Hperm in He. unfold seqZ_without in He.
      apply elem_of_app in He as [He%elem_of_seqZ|He%elem_of_seqZ]; lia. }
    unfold shift_by, lowered. f_equal.
    rewrite (bool_decide_eq_false_2 (new <= sort_order v)) by (unfold new; lia).
    destruct (decide (old_order < sort_order v)).
    - rewrite bool_decide_eq_true_2 by lia. lia.
    - rewrite bool_decide_eq_false_2 by lia. lia. }
  split; [exact Hlower|]. split.
  - intros id Hid. rewrite Hl. rewrite decide_False; [done|].
    intros H. by apply Hid, Hex.
  - rewrite (orders_of_shift t t'
               (λ v, set_sort_order v (lowered old_order (sort_order v)))
               (lowered old_order) existing); [|done|exact Hlower].
    rewrite Hperm. rewrite <- (closed_seqZ_without old_order n) by done.
    assert (lowered old_order <$> seqZ_without old_order n =
            (λ x, if decide (old_order <= x) then x - 1 else x)
              <$> seqZ_without old_order n) as ->; [|done].
    apply Forall_fmap_ext_1, Forall_forall.
    intros x Hx. unfold seqZ_without in Hx.
    apply elem_of_app in Hx as [Hx%elem_of_seqZ|Hx%elem_of_seqZ];
      unfold lowered; repeat case_decide; lia.
Qed.

Lemma update_sort_order_remove_witness :
  ∃ t', update_sort_order four_roots (plain Cls.Text "b" "b" 1 None [])
          (Some 1) None = Ok t' ∧
        order_of t' "a" = Some 0 ∧ order_of t' "c" = Some 1 ∧
        order_of t' "d" = Some 2 ∧ order_of t' "b" = Some 1.
Proof.
  assert (well_keyed four_roots) as Hwk.
  { intros k v. unfold four_roots. simpl. rewrite !lookup_insert.
    repeat case_decide; try (intros [= <-]; by subst). }
  set (self := plain Cls.Text "b" "b" 1 None []).
  destruct (siblings four_roots self) as [sibs|] eqn:Hs; [|by vm_compute in Hs].
  destruct (update_sort_order_remove four_roots self sibs 1 4 Hwk Hs)
    as (t' & Ht' & Hlower & Hother & _).
  - vm_compute in Hs. injection Hs as <-. vm_compute. apply perm_swap.
  - lia.
  - exists t'. split; [exact Ht'|]. unfold order_of.
    vm_compute in Hs. injection Hs as <-.
    rewrite !Hlower by (by vm_compute; set_solver).
    rewrite Hother by (by vm_compute; set_solver). by vm_compute.
Defined.

(** X14: let the siblings of a variable other than itself carry the sort orders
    0 to n-1 without [old_order], and let 0 <= new_order <= n.  Then
    [update_sort_order] with both orders returns, nothing else in the track
    changes, and the siblings end up on 0 to n-1 without one position: the
    new order when it is at most the old one, the position before the new
    order when it is greater. *)
Theorem update_sort_order_move (t : Track) (self : Var) (sibs : list VariableId)
    (old_order new_order n : Z) :
  well_keyed t →
  siblings t self = Ok sibs →
  let existing := filter (λ id, id ≠ var_id self) sibs in
  orders_of t existing ≡ₚ seqZ_without old_order n →
  0 <= old_order < n →
  0 <= new_order <= n →
  ∃ t', update_sort_order t self (Some old_order) (Some new_order) = Ok t' ∧
        free_slot old_order new_order :: orders_of t' existing ≡ₚ seqZ 0 n ∧
        (∀ id, id ∉ existing → variables t' !! id = variables t !! id).
Proof.
  intros Hwk Hsibs existing Hperm Ho Hn.
  destruct (siblings_wf _ _ _ Hwk Hsibs) as [Hnd Hpres].
  unfold update_sort_order. rewrite Hsibs. simpl.
  destruct (shift_siblings_lookup self old_order new_order sibs t Hnd Hpres)
    as (t' & Ht' & _).
  exists t'. split; [exact Ht'|].
  destruct (shift_siblings_orders t t' self sibs old_order new_order Hwk Hsibs Ht')
    as [Horders Hother].
  split; [|exact Hother]. fold existing in Horders. rewrite Horders, Hperm.
  by apply moved_seqZ_without.
Qed.

Lemma update_sort_order_move_witness :
  ∃ t', update_sort_order four_roots (plain Cls.Text "a" "a" 0 None [])
          (Some 0) (Some 2) = Ok t' ∧
        1 :: orders_of t' ["c"; "b"; "d"] ≡ₚ seqZ 0 4.
Proof.
  assert (well_keyed four_roots) as Hwk.
  { intros k v. unfold four_roots. simpl. rewrite !lookup_insert.
    repeat case_decide; try (intros [= <-]; by subst). }
  set (self := plain Cls.Text "a" "a" 0 None []).
  destruct (siblings four_roots self) as [sibs|] eqn:Hs; [|by vm_compute in Hs].
  destruct (update_sort_order_move four_roots self sibs 0 2 4 Hwk Hs)
    as (t' & Ht' & Horders & _).
  - vm_compute in Hs. injection Hs as <-. vm_compute. apply perm_swap.
  - lia.
  - lia.
  - exists t'. split; [exact Ht'|].
    vm_compute in Hs. injection Hs as <-. exact Horders.
Defined.


(** ** Renaming among siblings *)

Lemma sibling_names_mapM (t : Track) (ids : list VariableId) :
  (∀ id, id ∈ ids → is_Some (variables t !! id)) →
  ∃ names, mapM (fun sibling => sv ← track_getitem t sibling; Ok (name sv)) ids
           = Ok names ∧
    ∀ n, n ∈ names ↔ ∃ id v, id ∈ ids ∧ variables t !! id = Some v ∧ name v = n.
Proof.
  induction ids as [|id ids IH]; intros Hpres.
  - exists []. split; [done|]. intros n. split; [by intros ?%elem_of_nil|].
    by intros (? & ? & ?%elem_of_nil & _).
  - destruct IH as (names & Hnames & Hin).
    { intros i Hi. apply Hpres. by right. }
    destruct (Hpres id) as [v Hv]; [by left|].
    exists (name v :: names). split.
    + cbn [mapM].
      assert (track_getitem t id = Ok v) as ->
        by (unfold track_getitem; by rewrite Hv).
      cbn. by rewrite Hnames.
    + intros n. rewrite elem_of_cons, Hin. split.
      * intros [->|(i & w & Hi & Hw & Hn)].
        -- exists id, v. split; [by left|done].
        -- exists i, w. split; [by right|done].
      * intros (i & w & [->|Hi]%elem_of_cons & Hw & Hn).
        -- left. rewrite Hv in Hw. by injection Hw as <-.
        -- right. by exists i, w.
Qed.

(** X15: let a track hold every variable under its own id, and [self] under
    [vid], with the siblings [sibs].  Assigning a name that has a slash or
    a dot, or that another sibling bears, raises ValueError.  Any other
    name is assigned: afterwards the variable bears it, no other sibling
    does, and every other variable has kept its name. *)
Theorem setattr_name_outcome (t : Track) (self : Var) (sibs : list VariableId)
    (vid : VariableId) (value : string) :
  well_keyed t →
  variables t !! vid = Some self →
  siblings t self = Ok sibs →
  (char_in "/" value = true ∨ char_in "." value = true ∨ name_taken t sibs vid value →
   setattr_name t vid value = Raise ValueError) ∧
  (char_in "/" value = false → char_in "." value = false →
   ¬ name_taken t sibs vid value →
   ∃ t', setattr_name t vid value = Ok t' ∧
         name <$> variables t' !! vid = Some value ∧
         ¬ name_taken t' sibs vid value ∧
         ∀ id, id ≠ vid → name <$> variables t' !! id = name <$> variables t !! id).
Proof.
  intros Hwk Hself Hsibs.
  destruct (siblings_wf _ _ _ Hwk Hsibs) as [_ Hpres].
  pose proof (Hwk _ _ Hself) as Hid.
  destruct (sibling_names_mapM t (filter (λ sibling, sibling ≠ var_id self) sibs))
    as (names & Hnames & Hin).
  { intros id [_ Hi]%list_elem_of_filter. by apply Hpres. }
  assert (Htaken : value ∈ names ↔ name_taken t sibs vid value).
  { rewrite Hin. unfold name_taken. split.
    - intros (id & v & [Hne Hi]%list_elem_of_filter & Hv & Hn).
      exists id, v. rewrite Hid in Hne. done.
    - intros (id & v & Hi & Hne & Hv & Hn). exists id, v.
      split; [|done]. apply list_elem_of_filter. by rewrite Hid. }
  assert (Hrun : setattr_name t vid value =
    if char_in "/" value || char_in "." value then Raise ValueError
    else if bool_decide (value ∈ names) then Raise ValueError
    else Ok (with_variables (invalidate_variables_cache t)
               (alter (fun v => set_name v value) vid
                      (variables (invalidate_variables_cache t))))).
  { unfold setattr_name, setattr_name_with, track_getitem. rewrite Hself. cbn.
    unfold validate_name.
    destruct (char_in "/" value || char_in "." value); [done|].
    rewrite Hsibs. cbn. rewrite Hnames. cbn.
    by destruct (bool_decide (value ∈ names)). }
  split.
  - intros [H|[H|H]]; rewrite Hrun.
    + by rewrite H.
    + rewrite H. by rewrite orb_true_r.
    + destruct (char_in "/" value || char_in "." value); [done|].
      by rewrite bool_decide_eq_true_2 by (by apply Htaken).
  - intros H1 H2 Hfree. rewrite Hrun, H1, H2. cbn [orb].
    rewrite bool_decide_eq_false_2 by (by rewrite Htaken).
    set (t0 := with_variables (invalidate_variables_cache t)
                 (alter (fun v => set_name v value) vid
                        (variables (invalidate_variables_cache t)))).
    exists t0. split; [done|].
    assert (Hkeep : ∀ id, id ≠ vid →
      name <$> variables t0 !! id = name <$> variables t !! id).
    { intros id Hne. unfold t0. destruct t as [vs src]. cbn.
      rewrite lookup_alter_ne by done. rewrite lookup_fmap.
      by destruct (vs !! id). }
    split; [|split; [|exact Hkeep]].
    + unfold t0. destruct t as [vs src]. cbn in *.
      rewrite lookup_alter_eq, lookup_fmap, Hself. done.
    + intros (id & v & Hi & Hne & Hv & Hn). apply Hfree.
      pose proof (Hkeep id Hne) as Hk. rewrite Hv in Hk.
      destruct (variables t !! id) as [w|] eqn:Hw; [|done].
      exists id, w. injection Hk as Hk. split; [done|]. split; [done|].
      split; [done|]. congruence.
Qed.


Lemma setattr_name_outcome_witness :
  setattr_name four_roots "a" "b" = Raise ValueError ∧
  ∃ t', setattr_name four_roots "a" "e" = Ok t' ∧
        name <$> variables t' !! "a" = Some "e".
Proof.
  assert (well_keyed four_roots) as Hwk.
  { intros k v. unfold four_roots. simpl. rewrite !lookup_insert.
    repeat case_decide; try (intros [= <-]; by subst). }
  set (self := plain Cls.Text "a" "a" 0 None []).
  assert (variables four_roots !! "a" = Some self) as Hself by (by vm_compute).
  destruct (siblings four_roots self) as [sibs|] eqn:Hs; [|by vm_compute in Hs].
  split.
  - apply (setattr_name_outcome four_roots self sibs "a" "b" Hwk Hself Hs).
    right. right. exists "b", (plain Cls.Text "b" "b" 1 None []).
    vm_compute in Hs. injection Hs as <-.
    split; [set_solver|]. split; [done|]. split; by vm_compute.
  - destruct (setattr_name_outcome four_roots self sibs "a" "e" Hwk Hself Hs)
      as [_ Hok].
    destruct Hok as (t' & Ht' & Hname & _).
    + reflexivity.
    + reflexivity.
    + vm_compute in Hs. injection Hs as <-.
      intros (id & v & Hi & Hne & Hv & Hn).
      repeat (apply elem_of_cons in Hi as [->|Hi]);
        try (by apply elem_of_nil in Hi); try done;
        vm_compute in Hv; injection Hv as <-; discriminate Hn.
    + by exists t'.
Defined.


(** ** The change [CalculateWeightGain], further *)

Lemma periods_of_elem (composite : list (string * json)) (key : string) :
  key ∈ periods_of composite ↔ key ≠ "invariant" ∧ key ∈ composite.*1.
Proof.
  unfold periods_of. rewrite list_elem_of_filter, elem_of_remove_dups. tauto.
Qed.

(** X16: a composite with no key besides "invariant" has no period: the change
    raises ValueError, which is what [min] does on an empty set, and writes
    nothing. *)
Theorem weight_gain_no_period (self : CalculateWeightGain) (fuel : nat) (t : Track)
    (composite : list (string * json)) :
  (∀ key, key ∈ composite.*1 → key = "invariant") →
  CalculateWeightGain_call self fuel t composite = Raise ValueError.
Proof.
  intros Hkeys. unfold CalculateWeightGain_call.
  destruct (periods_of composite) as [|key rest] eqn:Hp; [done|].
  assert (key ∈ periods_of composite) as Hin by (rewrite Hp; by left).
  apply periods_of_elem in Hin as [Hne Hin]. by apply Hkeys in Hin.
Qed.

Lemma weight_gain_no_period_witness :
  CalculateWeightGain_call vitals_change 2 vitals_track [] = Raise ValueError ∧
  CalculateWeightGain_call vitals_change 2 vitals_track
    [("invariant", JDict [("weight_gain", JFloat 5.0)])] = Raise ValueError.
Proof.
  split.
  - apply (weight_gain_no_period vitals_change 2 vitals_track []).
    by intros key ?%elem_of_nil.
  - apply (weight_gain_no_period vitals_change 2 vitals_track
             [("invariant", JDict [("weight_gain", JFloat 5.0)])]).
    intros key Hk. simpl in Hk. apply elem_of_cons in Hk as [->|Hk]; [done|].
    by apply elem_of_nil in Hk.
Defined.


Lemma dict_set_keys_present {A : Type} (key : string) (v : A) (items : list (string * A)) :
  key ∈ items.*1 → (dict_set key v items).*1 = items.*1.
Proof.
  induction items as [|[k w] rest IH]; simpl.
  - by intros ?%elem_of_nil.
  - intros Hin. destruct (decide (k = key)) as [->|Hne]; [done|].
    simpl. f_equal. apply IH. apply elem_of_cons in Hin as [?|?]; [congruence|done].
Qed.

Lemma dict_set_twice {A : Type} (key : string) (v v' : A) (items : list (string * A)) :
  dict_set key v (dict_set key v' items) = dict_set key v items.
Proof.
  induction items as [|[k w] rest IH]; simpl.
  - by rewrite decide_True.
  - destruct (decide (k = key)) as [->|Hne]; simpl.
    + by rewrite decide_True.
    + rewrite decide_False by done. by rewrite IH.
Qed.

Lemma periods_of_snoc_invariant (keys : list string) :
  filter (fun key => key ≠ "invariant") (remove_dups (keys ++ ["invariant"]))
  = filter (fun key => key ≠ "invariant") (remove_dups keys).
Proof.
  induction keys as [|x keys IH]; [done|].
  cbn [app remove_dups].
  destruct (decide_rel elem_of x (keys ++ ["invariant"])%list) as [Hin1|Hnin1];
    destruct (decide_rel elem_of x keys) as [Hin|Hnin].
  - exact IH.
  - assert (x = "invariant") as ->.
    { apply elem_of_app in Hin1 as [?|[->|?%elem_of_nil]%elem_of_cons]; done. }
    rewrite IH, filter_cons. by rewrite decide_False by (intros H; by apply H).
  - exfalso. apply Hnin1, elem_of_app. by left.
  - rewrite !filter_cons. destruct (decide (x ≠ "invariant")); by rewrite IH.
Qed.

Lemma periods_of_dict_set (composite : list (string * json)) (v : json) :
  periods_of (dict_set "invariant" v composite) = periods_of composite.
Proof.
  unfold periods_of.
  destruct (decide ("invariant" ∈ composite.*1)) as [Hin|Hnin].
  - by rewrite dict_set_keys_present.
  - rewrite dict_set_fresh by done. rewrite fmap_app. simpl.
    apply periods_of_snoc_invariant.
Qed.

Lemma put_at_key (target target' : list (string * json)) (key : string)
    (rest : list string) (v : json) :
  nesteddicts.put target (key :: rest) v = Ok target' →
  ∃ x, target' = dict_set key x target.
Proof.
  cbn [nesteddicts.put]. destruct rest as [|key2 rest]; [intros [= <-]; eauto|].
  destruct (dict_get key target) as [[| | | | | |items]|]; try done.
  - destruct (nesteddicts.put items (key2 :: rest) v) as [inner|]; [|done].
    intros [= <-]. eauto.
  - destruct (nesteddicts.put [] (key2 :: rest) v) as [inner|]; [|done].
    intros [= <-]. eauto.
Qed.

Lemma put_twice (spec : list string) (target target' : list (string * json)) (v : json) :
  nesteddicts.put target spec v = Ok target' →
  nesteddicts.put target' spec v = Ok target'.
Proof.
  revert target target'. induction spec as [|key rest IH]; intros target target'; [done|].
  cbn [nesteddicts.put]. destruct rest as [|key2 rest].
  - intros [= <-]. by rewrite dict_set_twice.
  - assert (Hin : ∀ inner items,
              nesteddicts.put items (key2 :: rest) v = Ok inner →
              match dict_get key (dict_set key (JDict inner) target) with
              | Some (JDict items') =>
                  inner' ← nesteddicts.put items' (key2 :: rest) v;
                  Ok (dict_set key (JDict inner') (dict_set key (JDict inner) target))
              | Some _ => Raise TypeError
              | None =>
                  inner' ← nesteddicts.put [] (key2 :: rest) v;
                  Ok (dict_set key (JDict inner') (dict_set key (JDict inner) target))
              end = Ok (dict_set key (JDict inner) target)).
    { intros inner items Hput. rewrite dict_get_set_eq.
      rewrite (IH _ _ Hput). simpl. by rewrite dict_set_twice. }
    destruct (dict_get key target) as [[| | | | | |items]|]; try done.
    + destruct (nesteddicts.put items (key2 :: rest) v) as [inner|] eqn:Hput; [|done].
      intros [= <-]. by apply (Hin inner items).
    + destruct (nesteddicts.put [] (key2 :: rest) v) as [inner|] eqn:Hput; [|done].
      intros [= <-]. by apply (Hin inner []).
Qed.

Lemma absolute_path_keeps_cache (fuel : nat) (t t' : Track) (vid w : VariableId)
    (path kept : list string) (v : Var) :
  absolute_path fuel t vid = Ok (t', path) →
  variables t !! w = Some v →
  _cache v !! "absolute_path" = Some (CachedPath kept) →
  ∃ v', variables t' !! w = Some v' ∧
        _cache v' !! "absolute_path" = Some (CachedPath kept).
Proof.
  revert t t' vid path v. induction fuel as [|fuel IH]; intros t t' vid path v; [done|].
  simpl. unfold track_getitem at 1.
  destruct (variables t !! vid) as [self|] eqn:Hself; [|done]. simpl.
  destruct (_cache self !! "absolute_path") as [[cached_path]|] eqn:Hc.
  { intros [= <- <-] Hw Hk. by exists v. }
  assert (Hstore : ∀ t1 path1 v1,
            variables t1 !! w = Some v1 →
            _cache v1 !! "absolute_path" = Some (CachedPath kept) →
            w ≠ vid →
            ∃ v', variables (cache_store t1 vid "absolute_path" (CachedPath path1)) !! w
                  = Some v' ∧
                  _cache v' !! "absolute_path" = Some (CachedPath kept)).
  { intros t1 path1 v1 Hv1 Hk1 Hne. exists v1. split; [|done].
    unfold cache_store. simpl. by rewrite lookup_alter_ne. }
  intros Hrun Hw Hk.
  assert (w ≠ vid) as Hne by (intros ->; congruence).
  destruct (truthy (parent self)) as [p|]; simpl in Hrun.
  - destruct (absolute_path fuel t p) as [[t1 above]|] eqn:Hrec; [|done].
    simpl in Hrun. injection Hrun as <- <-.
    destruct (IH _ _ _ _ _ Hrec Hw Hk) as (v1 & Hv1 & Hk1).
    by apply (Hstore t1 _ v1).
  - injection Hrun as <- <-. by apply (Hstore t _ v).
Qed.

(** X17: the change can be run again: a second call, on the track and the
    composite that a first call has left, returns and leaves both as they
    are. *)
Theorem weight_gain_idempotent (self : CalculateWeightGain) (fuel : nat) (t t' : Track)
    (composite composite' : list (string * json)) :
  CalculateWeightGain_call self fuel t composite = Ok (t', composite') →
  CalculateWeightGain_call self fuel t' composite' = Ok (t', composite').
Proof.
  unfold CalculateWeightGain_call.
  destruct (py_min (periods_of composite)) as [earliest|] eqn:Hmin; [|done].
  destruct (py_max (periods_of composite)) as [latest|] eqn:Hmax; [|done].
  cbn [mbind result_bind].
  destruct (absolute_path fuel t (weight_var self)) as [[t1 weight_path]|] eqn:Hw;
    [|done].
  cbn [mbind result_bind].
  destruct (nesteddicts.get composite (earliest :: weight_path))
    as [earliest_weight|] eqn:He; [|done].
  destruct (nesteddicts.get composite (latest :: weight_path))
    as [latest_weight|] eqn:Hl; [|done].
  cbn [mbind result_bind].
  destruct (py_sub latest_weight earliest_weight) as [weight_gain|] eqn:Hsub; [|done].
  cbn [mbind result_bind].
  destruct (absolute_path fuel t1 (weight_gain_var self)) as [[t2 gain_path]|] eqn:Hg;
    [|done].
  cbn [mbind result_bind].
  destruct (nesteddicts.put composite ("invariant" :: gain_path) weight_gain)
    as [written|] eqn:Hput; [|done].
  cbn [mbind result_bind]. intros [= <- <-].
  (* the periods *)
  destruct (put_at_key _ _ _ _ _ Hput) as [x ->].
  rewrite periods_of_dict_set, Hmin, Hmax. cbn [mbind result_bind].
  (* the paths, now from the caches *)
  destruct fuel as [|fuel]; [done|].
  destruct (absolute_path_cached _ _ _ _ _ Hw) as (_ & w1 & Hw1 & Hc1).
  destruct (absolute_path_keeps_cache _ _ _ _ _ _ _ _ Hg Hw1 Hc1) as (w2 & Hw2 & Hc2).
  destruct (absolute_path_cached _ _ _ _ _ Hg) as (_ & g2 & Hg2 & Hcg).
  assert (Hagain : ∀ vid v path,
            variables t2 !! vid = Some v →
            _cache v !! "absolute_path" = Some (CachedPath path) →
            absolute_path (S fuel) t2 vid = Ok (t2, path)).
  { intros vid v path Hv Hc. simpl. unfold track_getitem. rewrite Hv. simpl.
    by rewrite Hc. }
  rewrite (Hagain _ _ _ Hw2 Hc2). cbn [mbind result_bind].
  (* the weights *)
  assert (Hperiod : ∀ key, key ∈ periods_of composite → key ≠ "invariant").
  { intros key Hk. by apply periods_of_elem in Hk as [? _]. }
  assert (Hread : ∀ key, key ∈ periods_of composite →
            nesteddicts.get (dict_set "invariant" x composite) (key :: weight_path)
            = nesteddicts.get composite (key :: weight_path)).
  { intros key Hk.
    apply (get_put_other ("invariant" :: gain_path) composite _ weight_gain);
      [done| |].
    - intros [k Hpre]. injection Hpre as Hpre _. by apply (Hperiod key).
    - intros [k Hpre]. injection Hpre as Hpre _. by apply (Hperiod key). }
  assert (earliest ∈ periods_of composite) as Hein.
  { unfold py_min in Hmin. destruct (periods_of composite) as [|a rest]; [done|].
    injection Hmin as <-. clear. revert a. induction rest as [|b rest IH]; intros a.
    - by left.
    - simpl. unfold str_min at 2. destruct (String.leb a b).
      + pose proof (IH a) as HIH. apply elem_of_cons in HIH as [Heq|Hin].
        * rewrite Heq. by left.
        * right. by right.
      + right. apply IH. }
  assert (latest ∈ periods_of composite) as Hlin.
  { unfold py_max in Hmax. destruct (periods_of composite) as [|a rest]; [done|].
    injection Hmax as <-. clear. revert a. induction rest as [|b rest IH]; intros a.
    - by left.
    - simpl. unfold str_max at 2. destruct (String.leb a b).
      + right. apply IH.
      + pose proof (IH a) as HIH. apply elem_of_cons in HIH as [Heq|Hin].
        * rewrite Heq. by left.
        * right. by right. }
  rewrite (Hread _ Hein), He. cbn [mbind result_bind].
  rewrite (Hread _ Hlin), Hl. cbn [mbind result_bind].
  rewrite Hsub. cbn [mbind result_bind].
  rewrite (Hagain _ _ _ Hg2 Hcg). cbn [mbind result_bind].
  by rewrite (put_twice _ _ _ _ Hput).
Qed.

Lemma weight_gain_idempotent_witness :
  ∃ t' composite',
    CalculateWeightGain_call vitals_change 2 vitals_track vitals_composite
      = Ok (t', composite') ∧
    CalculateWeightGain_call vitals_change 2 t' composite' = Ok (t', composite').
Proof.
  destruct (CalculateWeightGain_call vitals_change 2 vitals_track vitals_composite)
    as [[t' composite']|] eqn:H; [|by vm_compute in H].
  exists t', composite'. split; [reflexivity|].
  exact (weight_gain_idempotent vitals_change 2 vitals_track t'
           vitals_composite composite' H).
Defined.


(** ** The change [DetermineGender] *)

(** X18: let the composite hold a string at the path of the name variable
    under "invariant", and let the lookup tables have a mapping named
    "genders"; let [str_lower] be the lower case of strings.  If that
    mapping lacks the name in lower case, the change raises KeyError.
    Otherwise, when no value on the way to the path of the gender variable
    under "invariant" is other than a mapping, the change returns, the
    composite it leaves holds the entry of the lower-case name at that path,
    and every path that neither leads to that path nor goes through it
    reads as before. *)
Theorem gender_written (str_lower : string → string) (self : DetermineGender)
    (fuel : nat) (t t1 t2 : Track)
    (composite : list (string * json)) (name_path gender_path : list string)
    (person_name : string) (table : list (string * json)) :
  absolute_path fuel t (person_name_var self) = Ok (t1, name_path) →
  absolute_path fuel t1 (gender_var self) = Ok (t2, gender_path) →
  nesteddicts.get composite ("invariant" :: name_path) = Ok (JStr person_name) →
  dict_get "genders" (lookups self) = Some (JDict table) →
  match dict_get (str_lower person_name) table with
  | None => DetermineGender_call str_lower self fuel t composite = Raise KeyError
  | Some gender =>
      ¬ not_a_mapping (JDict composite) ("invariant" :: gender_path) →
      ∃ composite',
        DetermineGender_call str_lower self fuel t composite = Ok (t2, composite') ∧
        nesteddicts.get composite' ("invariant" :: gender_path) = Ok gender ∧
        ∀ q, ¬ q `prefix_of` "invariant" :: gender_path →
             ¬ "invariant" :: gender_path `prefix_of` q →
             nesteddicts.get composite' q = nesteddicts.get composite q
  end.
Proof.
  intros Hn Hg Hname Htable.
  assert (Hrun : DetermineGender_call str_lower self fuel t composite =
            gender ← getitem (JDict table) (str_lower person_name);
            composite' ← nesteddicts.put composite ("invariant" :: gender_path) gender;
            Ok (t2, composite')).
  { unfold DetermineGender_call. rewrite Hn. cbn [mbind result_bind].
    rewrite Hname. cbn [mbind result_bind person_name_lower getitem].
    rewrite Htable. cbn [mbind result_bind]. cbn [getitem].
    destruct (dict_get (str_lower person_name) table) as [gender|]; [|done].
    cbn [mbind result_bind]. by rewrite Hg. }
  rewrite Hrun. cbn [getitem].
  destruct (dict_get (str_lower person_name) table) as [gender|]; [|done].
  intros Hmap. cbn [mbind result_bind].
  destruct (put_returns ("invariant" :: gender_path) composite gender)
    as [composite' Hput]; [done|done|].
  exists composite'. rewrite Hput. split; [done|]. split.
  - by apply (get_put_same _ composite).
  - intros q Hq Hs.
    by apply (get_put_other ("invariant" :: gender_path) _ _ gender).
Qed.

(** On names in ASCII the lower case is [lower]. *)
Lemma gender_written_witness :
  (∃ t' composite',
     DetermineGender_call lower gender_change 1 gender_track gender_composite
       = Ok (t', composite') ∧
     nesteddicts.get composite' ["invariant"; "gender"] = Ok (JStr "female") ∧
     nesteddicts.get composite' ["invariant"; "name"] = Ok (JStr "Ada")) ∧
  DetermineGender_call lower gender_change 1 gender_track
    [("invariant", JDict [("name", JStr "Grace")])] = Raise KeyError.
Proof.
  destruct (absolute_path 1 gender_track "n") as [[t1 np]|] eqn:Hn;
    [|by vm_compute in Hn].
  destruct (absolute_path 1 t1 "s") as [[t2 gp]|] eqn:Hg.
  2: { vm_compute in Hn. injection Hn as <- <-. by vm_compute in Hg. }
  assert (np = ["name"]) as -> by (vm_compute in Hn; congruence).
  assert (gp = ["gender"]) as ->.
  { vm_compute in Hn. injection Hn as <-. vm_compute in Hg. congruence. }
  split.
  - pose proof (gender_written lower gender_change 1 gender_track t1 t2
                  gender_composite ["name"] ["gender"] "Ada"
                  [("ada", JStr "female"); ("alan", JStr "male")]
                  Hn Hg eq_refl eq_refl) as H.
    cbn in H. destruct H as (composite' & Hcall & Hgender & Hother).
    + intros (b & k & a & x & Heq & Hr & Hx).
      destruct b as [|b1 b]; inv Hr; [by destruct (Hx gender_composite)|].
      injection Heq as <- Heq. cbn in H2. injection H2 as <-.
      destruct b as [|b2 b]; inv H4; [by destruct (Hx [("name", JStr "Ada")])|].
      destruct b; discriminate Heq.
    + exists t2, composite'. split; [exact Hcall|]. split; [exact Hgender|].
      rewrite Hother; [reflexivity| |].
      * intros [k Hk]. discriminate Hk.
      * intros [k Hk]. discriminate Hk.
  - exact (gender_written lower gender_change 1 gender_track t1 t2
             [("invariant", JDict [("name", JStr "Grace")])]
             ["name"] ["gender"] "Grace"
             [("ada", JStr "female"); ("alan", JStr "male")]
             Hn Hg eq_refl eq_refl).
Defined.

(** ** Metamorphoses *)

(** X19: [Metamorphosis.__call__] applies the changes in their order, each
    to the composite that the one before has left: with no change the
    composite stays as it is, one change alone is that change, and two runs
    of changes are the first run followed by the second on the composite,
    and the track, that the first has left; when the first run raises, the
    second is not started. *)
Theorem Metamorphosis_call_in_order (change : Change) (first second : list Change)
    (fuel : nat) (t : Track) (composite : list (string * json)) :
  Metamorphosis_call [] fuel t composite = Ok (t, composite) ∧
  Metamorphosis_call [change] fuel t composite = change fuel t composite ∧
  Metamorphosis_call (first ++ second) fuel t composite =
    match Metamorphosis_call first fuel t composite with
    | Ok (t1, composite1) => Metamorphosis_call second fuel t1 composite1
    | Raise e => Raise e
    end.
Proof.
  split; [reflexivity|]. split.
  - cbn [Metamorphosis_call].
    by destruct (change fuel t composite) as [[t1 composite1]|e].
  - revert t composite. induction first as [|head rest IH]; intros t composite.
    + reflexivity.
    + cbn [app Metamorphosis_call].
      destruct (head fuel t composite) as [[t1 composite1]|e]; [|reflexivity].
      cbn [mbind result_bind]. apply IH.
Qed.

(** The second change reads what the first has written; in the other order
    it finds no gender yet. *)
Lemma Metamorphosis_call_in_order_witness :
  (∃ t' composite',
     Metamorphosis_call [gender_of_name; code_of_gender] 1 code_track gender_composite
       = Ok (t', composite') ∧
     nesteddicts.get composite' ["invariant"; "code"] = Ok (JStr "f")) ∧
  Metamorphosis_call [code_of_gender; gender_of_name] 1 code_track gender_composite
    = Raise KeyError.
Proof.
  split.
  - destruct (Metamorphosis_call_in_order code_of_gender [gender_of_name]
                [code_of_gender] 1 code_track gender_composite)
      as (_ & _ & Happ).
    change ([gender_of_name] ++ [code_of_gender])%list
      with [gender_of_name; code_of_gender] in Happ.
    destruct (Metamorphosis_call [gender_of_name; code_of_gender] 1 code_track
                gender_composite) as [[t' composite']|] eqn:Hrun;
      [|by vm_compute in Hrun].
    exists t', composite'. split; [reflexivity|].
    vm_compute in Hrun. injection Hrun as <- <-. reflexivity.
  - destruct (Metamorphosis_call_in_order gender_of_name [code_of_gender]
                [gender_of_name] 1 code_track gender_composite)
      as (_ & _ & Happ).
    change ([code_of_gender] ++ [gender_of_name])%list
      with [code_of_gender; gender_of_name] in Happ.
    rewrite Happ. reflexivity.
Defined.

(** ** Values along a path *)

(** X20: reading a path in two parts: [value] along a path is [value] along its
    first part and then, in a provider of the mapping found there, along
    the rest.  A value found there that is no mapping is the result when
    nothing is left of the path, and a KeyError otherwise; [value] raises
    nothing but KeyError. *)
Theorem value_app (doc : list (string * json)) (before after : list string) :
  value (mkProvider doc) (before ++ after) =
    match value (mkProvider doc) before with
    | Ok (JDict found) => value (mkProvider found) after
    | Ok other => if decide (after = []) then Ok other else Raise KeyError
    | Raise e => Raise KeyError
    end.
Proof.
  unfold value. cbn [document]. rewrite value_from_app.
  destruct (value_from (JDict doc) before) as [x|e] eqn:Hx; cbn [mbind result_bind].
  - destruct x; try reflexivity; by destruct after.
  - apply value_from_raises in Hx as [-> _]. reflexivity.
Qed.


(** ** Relative paths *)

Lemma same_structure_lookup_cls (t t' : Track) (vid : VariableId) (v : Var) :
  same_structure t t' → variables t !! vid = Some v →
  ∃ v', variables t' !! vid = Some v' ∧ name v' = name v ∧ parent v' = parent v ∧
        cls v' = cls v.
Proof.
  intros [_ H] Hv. specialize (H vid). rewrite Hv in H.
  destruct (variables t' !! vid) as [v'|]; [|done].
  exists v'. split; [done|]. simpl in H. injection H as H.
  by destruct v, v'; simplify_eq/=.
Qed.

Lemma rel_path_to_structure (t t' : Track) (vid : VariableId) (path : list string) :
  same_structure t t' → rel_path_to t vid path → rel_path_to t' vid path.
Proof.
  intros Hs. induction 1 as [vid v Hv Hp|vid v p pv Hv Hp Hpv Hl
                             |vid v p pv above Hv Hp Hpv Hl _ IH].
  - destruct (same_structure_lookup_cls _ _ _ _ Hs Hv) as (v' & Hv' & <- & Hpar & _).
    apply rel_path_root; [done|]. by rewrite Hpar.
  - destruct (same_structure_lookup_cls _ _ _ _ Hs Hv) as (v' & Hv' & <- & Hpar & _).
    destruct (same_structure_lookup_cls _ _ _ _ Hs Hpv) as (pv' & Hpv' & _ & _ & Hcls).
    eapply rel_path_in_list; [done| |done|].
    + by rewrite Hpar.
    + unfold isinstance in *. by rewrite Hcls.
  - destruct (same_structure_lookup_cls _ _ _ _ Hs Hv) as (v' & Hv' & <- & Hpar & _).
    destruct (same_structure_lookup_cls _ _ _ _ Hs Hpv) as (pv' & Hpv' & _ & _ & Hcls).
    eapply rel_path_below; [done| |done| |done].
    + by rewrite Hpar.
    + unfold isinstance in *. by rewrite Hcls.
Qed.

Lemma rel_path_to_det (t : Track) (vid : VariableId) (p1 p2 : list string) :
  rel_path_to t vid p1 → rel_path_to t vid p2 → p1 = p2.
Proof.
  intros H1. revert p2.
  induction H1 as [vid v Hv Hp|vid v p pv Hv Hp Hpv Hl
                   |vid v p pv above Hv Hp Hpv Hl _ IH];
    intros p2 H2; inv H2; simplify_eq; try done; try congruence.
  f_equal. by apply IH.
Qed.

Lemma rel_cache_sound_store (t : Track) (vid : VariableId) (path : list string) :
  rel_cache_sound t → rel_path_to t vid path →
  rel_cache_sound (cache_store t vid "relative_path" (CachedPath path)).
Proof.
  intros Hsound Hpath w v' path' Hw Hc.
  apply (rel_path_to_structure t); [apply same_structure_cache_store|].
  unfold cache_store in Hw. simpl in Hw. rewrite lookup_alter in Hw.
  case_decide as E.
  - subst w. destruct (variables t !! vid) as [v|] eqn:Hv; [|done].
    simpl in Hw. injection Hw as <-. simpl in Hc.
    rewrite lookup_insert_eq in Hc. by injection Hc as <-.
  - by apply (Hsound w v').
Qed.

Lemma rel_path_to_length (t : Track) (vid : VariableId) (path : list string) :
  rel_path_to t vid path → (1 <= length path)%nat.
Proof. destruct 1; rewrite ?length_app; simpl; lia. Qed.

Lemma relative_path_sound (fuel : nat) (t : Track) (vid : VariableId)
    (path : list string) :
  rel_cache_sound t → rel_path_to t vid path → (length path <= fuel)%nat →
  ∃ t', relative_path fuel t vid = Ok (t', path) ∧
        rel_cache_sound t' ∧ same_structure t t'.
Proof.
  intros Hsound Hpath. revert fuel.
  induction Hpath as [vid v Hv Hp|vid v p pv Hv Hp Hpv Hl
                      |vid v p pv above Hv Hp Hpv Hl Habove IH]; intros fuel Hlen.
  - destruct fuel as [|fuel]; [simpl in Hlen; lia|]. simpl.
    unfold track_getitem. rewrite Hv. simpl.
    destruct (_cache v !! "relative_path") as [[cached_path]|] eqn:Hc.
    + assert (cached_path = [name v]) as ->.
      { apply (rel_path_to_det t vid); [by apply (Hsound vid v)|by apply rel_path_root]. }
      exists t. split; [done|]. split; [done|]. apply same_structure_refl.
    + rewrite Hp. simpl. eexists. split; [done|].
      split; [apply rel_cache_sound_store; [done|by apply rel_path_root]|].
      apply same_structure_cache_store.
  - destruct fuel as [|fuel]; [simpl in Hlen; lia|]. simpl.
    unfold track_getitem. rewrite Hv. simpl.
    destruct (_cache v !! "relative_path") as [[cached_path]|] eqn:Hc.
    + assert (cached_path = [name v]) as ->.
      { apply (rel_path_to_det t vid); [by apply (Hsound vid v)|].
        by eapply rel_path_in_list. }
      exists t. split; [done|]. split; [done|]. apply same_structure_refl.
    + rewrite Hp. simpl. rewrite Hpv. simpl. rewrite Hl. simpl.
      eexists. split; [done|].
      split; [apply rel_cache_sound_store; [done|by eapply rel_path_in_list]|].
      apply same_structure_cache_store.
  - destruct fuel as [|fuel]; [rewrite length_app in Hlen; simpl in Hlen; lia|].
    simpl. unfold track_getitem. rewrite Hv. simpl.
    destruct (_cache v !! "relative_path") as [[cached_path]|] eqn:Hc.
    + assert (cached_path = (above ++ [name v])%list) as ->.
      { apply (rel_path_to_det t vid); [by apply (Hsound vid v)|].
        by eapply rel_path_below. }
      exists t. split; [done|]. split; [done|]. apply same_structure_refl.
    + rewrite Hp. simpl. rewrite Hpv. simpl. rewrite Hl.
      destruct (IH fuel) as (t1 & Ht1 & Hsound1 & Hs1).
      { rewrite length_app in Hlen. simpl in Hlen. lia. }
      rewrite Ht1. simpl.
      destruct (same_structure_lookup_cls _ _ _ _ Hs1 Hv) as (v1 & Hv1 & Hn1 & Hp1 & _).
      destruct (same_structure_lookup_cls _ _ _ _ Hs1 Hpv)
        as (pv1 & Hpv1 & _ & _ & Hcls).
      rewrite <- Hn1.
      assert (rel_path_to t1 vid (above ++ [name v1])) as Hpath1.
      { eapply rel_path_below; [done|by rewrite Hp1|done| |].
        - unfold isinstance in *. by rewrite Hcls.
        - by apply (rel_path_to_structure t). }
      eexists. split; [done|].
      split; [by apply rel_cache_sound_store|].
      eapply same_structure_trans; [done|apply same_structure_cache_store].
Qed.

Lemma path_to_rel_path (t : Track) (vid : VariableId) (path : list string) :
  path_to t vid path →
  ∃ rel, rel_path_to t vid rel ∧ rel `suffix_of` path.
Proof.
  induction 1 as [vid v Hv Hp|vid v p above Hv Hp Habove IH].
  - exists [name v]. split; [by apply rel_path_root|done].
  - destruct IH as (rel & Hrel & Hsuffix).
    assert (∃ pv, variables t !! p = Some pv) as [pv Hpv] by (inv Habove; eauto).
    destruct (isinstance pv Cls.GenericList) eqn:Hl.
    + exists [name v]. split; [by eapply rel_path_in_list|]. by exists above.
    + exists (rel ++ [name v])%list. split; [by eapply rel_path_below|].
      destruct Hsuffix as [k ->]. exists k. by rewrite app_assoc.
Qed.

(** X21: in a track whose caches are sound, [relative_path] returns the names
    from the root, or from just below the nearest list or named list, down
    to the variable, given a depth that covers them; it leaves the caches
    sound and changes nothing but caches. *)
Theorem relative_path_names (fuel : nat) (t : Track) (vid : VariableId)
    (path : list string) :
  rel_cache_sound t → rel_path_to t vid path → (length path <= fuel)%nat →
  ∃ t', relative_path fuel t vid = Ok (t', path) ∧
        rel_cache_sound t' ∧ same_structure t t'.
Proof.
  intros Hsound Hpath Hlen.
  destruct (relative_path_sound fuel t vid path Hsound Hpath Hlen)
    as (t' & Hcall & Hsound' & Hsame).
  exists t'. split; [exact Hcall|]. split; [exact Hsound'|exact Hsame].
Qed.

(** X22: the relative path of a variable is the last part of its absolute path:
    in a track whose caches are sound, and at a depth that covers the
    absolute path, both properties return and the one result ends the
    other. *)
Theorem relative_path_suffix (fuel : nat) (t : Track) (vid : VariableId)
    (path : list string) :
  cache_sound t → rel_cache_sound t → path_to t vid path →
  (length path <= fuel)%nat →
  ∃ t1 t2 rel,
    absolute_path fuel t vid = Ok (t1, path) ∧
    relative_path fuel t vid = Ok (t2, rel) ∧
    rel `suffix_of` path.
Proof.
  intros Habs Hrel Hpath Hlen.
  destruct (absolute_path_sound fuel t vid path Habs Hpath Hlen) as (t1 & Ht1 & _).
  destruct (path_to_rel_path t vid path Hpath) as (rel & Hrp & Hsuffix).
  destruct (relative_path_sound fuel t vid rel Hrel Hrp) as (t2 & Ht2 & _).
  { apply suffix_length in Hsuffix. lia. }
  by exists t1, t2, rel.
Qed.


Lemma records_track_sound : cache_sound records_track ∧ rel_cache_sound records_track.
Proof.
  split; intros vid v path Hv Hc; unfold records_track in Hv; simpl in Hv;
    rewrite !lookup_insert in Hv;
    repeat case_decide; try (injection Hv as <-; by vm_compute in Hc);
    by rewrite lookup_empty in Hv.
Qed.

Lemma records_city_path :
  path_to records_track "city" ["root"; "records"; "address"; "city"].
Proof.
  apply (path_below records_track "city" records_city "address"
           ["root"; "records"; "address"]); [by vm_compute|by vm_compute|].
  apply (path_below records_track "address"
           (plain Cls.Folder "address" "address" 0 (Some "records") []) "records"
           ["root"; "records"]); [by vm_compute|by vm_compute|].
  apply (path_below records_track "records"
           (plain Cls.NamedList "records" "records" 0 (Some "root") []) "root"
           ["root"]); [by vm_compute|by vm_compute|].
  by apply (path_root records_track "root" (plain Cls.Folder "root" "root" 0 None [])).
Qed.

Lemma relative_path_names_witness :
  ∃ t', relative_path 2 records_track "city" = Ok (t', ["address"; "city"]).
Proof.
  destruct (relative_path_names 2 records_track "city" ["address"; "city"])
    as (t' & Ht' & _).
  - apply records_track_sound.
  - apply (rel_path_below records_track "city" records_city "address"
             (plain Cls.Folder "address" "address" 0 (Some "records") [])
             ["address"]); [by vm_compute..|].
    by apply (rel_path_in_list records_track "address"
                (plain Cls.Folder "address" "address" 0 (Some "records") [])
                "records" (plain Cls.NamedList "records" "records" 0 (Some "root") [])).
  - simpl. lia.
  - by exists t'.
Defined.

Lemma relative_path_suffix_witness :
  ∃ t1 t2 rel,
    absolute_path 4 records_track "city"
      = Ok (t1, ["root"; "records"; "address"; "city"]) ∧
    relative_path 4 records_track "city" = Ok (t2, rel) ∧
    rel `suffix_of` ["root"; "records"; "address"; "city"].
Proof.
  apply (relative_path_suffix 4 records_track "city"
           ["root"; "records"; "address"; "city"]).
  - apply records_track_sound.
  - apply records_track_sound.
  - apply records_city_path.
  - simpl. lia.
Defined.


(** ** Reports of a translation *)

Section ReportProperties.

Context {V : Type}.
Variable is_Primitive : V → bool.
Variable is_List : V → bool.
Variable is_NamedList : V → bool.
Variable simple_expected_values : V → list (string * json).
Variable py_eq : json → json → bool.

Lemma counter_get_add (counter : gmap string Z) (key key' : string) (d : Z) :
  counter_get (counter_add counter key d) key'
  = if decide (key = key') then counter_get counter key + d else counter_get counter key'.
Proof.
  unfold counter_add, counter_get at 1. rewrite lookup_insert.
  by destruct (decide (key = key')) as [->|].
Qed.

(** X23: whatever a new reporter is used for, the mismatch counter of a variable
    is minus the number of failures recorded for it, so it is never
    positive; the match counter is never negative; and a report on a
    variable that is not a primitive changes nothing. *)
Theorem Reporter_counts (uses : list (Reporter_use (V := V))) (var_id : VariableId) :
  let self := Reporter_after is_Primitive is_List is_NamedList
                simple_expected_values py_eq uses in
  counter_get (primitive_mismatch self) var_id
    = - Z.of_nat (length (failures_for self var_id)) ∧
  0 <= counter_get (primitive_match self) var_id ∧
  ∀ other variable value,
    is_Primitive variable = false →
    report is_Primitive is_List is_NamedList simple_expected_values py_eq
      self other variable value = self.
Proof.
  intros self. split; [|split].
  - subst self. unfold Reporter_after.
    assert (Hinit : counter_get (primitive_mismatch Reporter_init) var_id
                    = - Z.of_nat (length (failures_for Reporter_init var_id))) by done.
    revert Hinit. generalize Reporter_init.
    induction uses as [|use rest IH]; intros r Hr; [done|].
    cbn [foldl]. apply IH. destruct use as [name|id variable value]; [done|].
    cbn [Reporter_step]. unfold report, report_list.
    destruct (is_Primitive variable); [|by repeat case_match].
    unfold report_primitive.
    destruct (document_name r); [|done].
    destruct (dict_get _ _) as [expected|]; [|done].
    destruct (py_eq expected value); [done|].
    cbn [primitive_mismatch]. rewrite counter_get_add.
    unfold failures_for in *. cbn [primitive_failures].
    rewrite filter_app, length_app, filter_cons, filter_nil.
    repeat case_decide; simplify_eq/=; lia.
  - subst self. unfold Reporter_after.
    assert (Hinit : 0 <= counter_get (primitive_match Reporter_init) var_id) by done.
    revert Hinit. generalize Reporter_init.
    induction uses as [|use rest IH]; intros r Hr; [done|].
    cbn [foldl]. apply IH. destruct use as [name|id variable value]; [done|].
    cbn [Reporter_step]. unfold report, report_list.
    destruct (is_Primitive variable); [|by repeat case_match].
    unfold report_primitive.
    destruct (document_name r); [|done].
    destruct (dict_get _ _) as [expected|]; [|done].
    destruct (py_eq expected value); [|done].
    cbn [primitive_match]. rewrite counter_get_add.
    destruct (decide (id = var_id)) as [->|]; lia.
  - intros other variable value Hp. unfold report, report_list. rewrite Hp.
    by repeat case_match.
Qed.

End ReportProperties.


(** ** Assignment of a parent *)

(** Along parents that never end, with no path in a cache on the way,
    [absolute_path] exhausts every depth. *)
Lemma absolute_path_endless (t : Track) (on_the_way : VariableId → Prop) :
  (∀ x, on_the_way x →
     ∃ v p, variables t !! x = Some v ∧ _cache v !! "absolute_path" = None ∧
            truthy (parent v) = Some p ∧ on_the_way p) →
  ∀ depth x, on_the_way x → absolute_path depth t x = Raise RecursionError.
Proof.
  intros Hclosed depth. induction depth as [|depth IH]; intros x Hx; [done|].
  destruct (Hclosed x Hx) as (v & p & Hv & Hc & Hp & Hon).
  simpl. unfold track_getitem. rewrite Hv. simpl. rewrite Hc, Hp. simpl.
  by rewrite (IH p Hon).
Qed.

(** X24: the validation of a parent looks for no cycle.  A folder is accepted as
    the parent of the folder that holds it; after the assignment the
    absolute paths of both raise RecursionError at every depth. *)
Theorem parent_cycle_accepted (fuel : nat) (t : Track) (a b : VariableId)
    (va vb : Var) :
  variables t !! a = Some va → variables t !! b = Some vb →
  cls va = Cls.Folder → cls vb = Cls.Folder →
  parent vb = Some a → a ≠ "" → b ≠ "" →
  ∃ t', setattr_parent fuel t a (Some b) = Ok t' ∧
        ∀ depth, absolute_path depth t' a = Raise RecursionError ∧
                 absolute_path depth t' b = Raise RecursionError.
Proof.
  intros Ha Hb Hca Hcb Hpar Hane Hbne.
  eexists. split.
  - unfold setattr_parent, track_getitem. rewrite Ha. cbn [mbind result_bind].
    unfold validate_parent, track_contains, track_getitem.
    rewrite bool_decide_eq_false_2 by done.
    rewrite bool_decide_eq_true_2 by (by rewrite Hb). rewrite Hb.
    cbn [negb mbind result_bind]. unfold isinstance. rewrite Hca, Hcb.
    reflexivity.
  - set (t' := with_variables _ _).
    assert (Hla : variables t' !! a
                  = Some (set_parent (invalidate_cache va) (Some b))).
    { unfold t'. destruct t as [vs src]. cbn in *.
      by rewrite lookup_alter_eq, lookup_fmap, Ha. }
    assert (Hlb : a ≠ b → variables t' !! b = Some (invalidate_cache vb)).
    { intros Hne. unfold t'. destruct t as [vs src]. cbn in *.
      by rewrite lookup_alter_ne, lookup_fmap, Hb by done. }
    assert (Hclosed : ∀ x, x = a ∨ x = b →
              ∃ v p, variables t' !! x = Some v ∧
                     _cache v !! "absolute_path" = None ∧
                     truthy (parent v) = Some p ∧ (p = a ∨ p = b)).
    { intros x [->| ->].
      - eexists _, b. split; [exact Hla|]. split; [done|]. split; [|by right].
        unfold truthy. cbn [parent set_parent].
        by rewrite bool_decide_eq_false_2.
      - destruct (decide (a = b)) as [<-|Hne].
        + eexists _, a. split; [exact Hla|]. split; [done|]. split; [|by left].
          unfold truthy. cbn [parent set_parent].
          by rewrite bool_decide_eq_false_2.
        + eexists _, a. split; [exact (Hlb Hne)|]. split; [done|].
          split; [|by left]. unfold truthy.
          cbn [parent invalidate_cache set_cache]. rewrite Hpar.
          by rewrite bool_decide_eq_false_2. }
    intros depth. split.
    + apply (absolute_path_endless t' (λ x, x = a ∨ x = b) Hclosed). by left.
    + apply (absolute_path_endless t' (λ x, x = a ∨ x = b) Hclosed). by right.
Qed.

Lemma parent_cycle_accepted_witness :
  ∃ t', setattr_parent 2 nest_track "a" (Some "b") = Ok t' ∧
        absolute_path 5 t' "b" = Raise RecursionError.
Proof.
  destruct (parent_cycle_accepted 2 nest_track "a" "b"
              (plain Cls.Folder "a" "a" 0 None [])
              (plain Cls.Folder "b" "b" 0 (Some "a") []))
    as (t' & Hset & Hloop); try done.
  exists t'. split; [exact Hset|]. apply Hloop.
Defined.


(** ** Assignment of sources to a list *)

Lemma filter_agree {A : Type} (P Q : A → Prop) `{!∀ x, Decision (P x)}
    `{!∀ x, Decision (Q x)} (l : list A) :
  (∀ x, x ∈ l → P x ↔ Q x) → filter P l = filter Q l.
Proof.
  induction l as [|x l IH]; intros Hagree; [done|].
  rewrite !filter_cons.
  assert (filter P l = filter Q l) as ->
    by (apply IH; intros y Hy; apply Hagree; by right).
  destruct (decide (P x)) as [HP|HP], (decide (Q x)) as [HQ|HQ]; try done.
  - exfalso. apply HQ, Hagree; [by left|done].
  - exfalso. apply HP, Hagree; [by left|done].
Qed.

Lemma filter_all {A : Type} (P : A → Prop) `{!∀ x, Decision (P x)} (l : list A) :
  (∀ x, x ∈ l → P x) → filter P l = l.
Proof.
  induction l as [|x l IH]; intros Hall; [done|].
  rewrite filter_cons, decide_True by (apply Hall; by left).
  rewrite IH; [done|]. intros y Hy. apply Hall. by right.
Qed.

Lemma set_sources_same (v : Var) : set_sources v (sources v) = v.
Proof. by destruct v. Qed.

Lemma set_sources_twice (v : Var) (s s' : list VariableId) :
  set_sources (set_sources v s) s' = set_sources v s'.
Proof. done. Qed.

Lemma with_variables_same (t : Track) : with_variables t (variables t) = t.
Proof. by destruct t. Qed.

Lemma list_remove_elem (k : VariableId) (ss : list VariableId) :
  k ∈ ss →
  ∃ ss', list_remove k ss = Ok ss' ∧
         filter (λ s, s ≠ k) ss' = filter (λ s, s ≠ k) ss ∧
         length (filter (λ s, s = k) ss) = S (length (filter (λ s, s = k) ss')).
Proof.
  induction ss as [|y ss IH]; [by intros ?%elem_of_nil|].
  intros Hin. cbn [list_remove]. rewrite !filter_cons.
  destruct (decide (y = k)) as [->|Hne].
  - exists ss. split; [done|]. split.
    + by rewrite decide_False by (intros H; by apply H).
    + done.
  - destruct IH as (ss' & -> & Hf & Hc).
    { apply elem_of_cons in Hin as [?|?]; [congruence|done]. }
    exists (y :: ss'). split; [done|]. rewrite !filter_cons.
    rewrite !decide_True by done. rewrite decide_False by done.
    split; [by rewrite Hf|done].
Qed.

Lemma filter_none_eq (k : VariableId) (ss : list VariableId) :
  length (filter (λ s, s = k) ss) = 0%nat → filter (λ s, s ≠ k) ss = ss.
Proof.
  induction ss as [|y ss IH]; [done|]. rewrite !filter_cons.
  destruct (decide (y = k)) as [->|Hne]; [done|].
  intros H. rewrite decide_True by done. by rewrite IH.
Qed.

Lemma remove_from_children_block (k c : VariableId) (n : nat) (t : Track) (cv : Var) :
  variables t !! c = Some cv →
  length (filter (λ s, s = k) (sources cv)) = n →
  remove_from_children t k (replicate n c)
  = Ok (with_variables t
          (<[c := set_sources cv (filter (λ s, s ≠ k) (sources cv))]> (variables t))).
Proof.
  revert t cv. induction n as [|n IH]; intros t cv Hc Hn.
  - cbn. rewrite filter_none_eq by done.
    by rewrite set_sources_same, insert_id, with_variables_same.
  - cbn [replicate remove_from_children]. unfold remove_source, track_getitem.
    rewrite Hc. cbn [mbind result_bind].
    destruct (list_remove_elem k (sources cv)) as (ss' & -> & Hf & Hcount).
    { destruct (filter (λ s, s = k) (sources cv)) as [|x l] eqn:E; [done|].
      assert (x ∈ filter (λ s, s = k) (sources cv)) as Hx by (rewrite E; by left).
      by apply list_elem_of_filter in Hx as [-> ?]. }
    cbn [mbind result_bind].
    rewrite (IH _ (set_sources cv ss')).
    + destruct t as [vs src]. cbn. rewrite insert_insert_eq. by rewrite Hf.
    + destruct t as [vs src]. cbn. by rewrite lookup_insert_eq.
    + cbn. lia.
Qed.

Lemma remove_from_children_app (t : Track) (k : VariableId) (l1 l2 : list VariableId) :
  remove_from_children t k (l1 ++ l2)
  = t' ← remove_from_children t k l1; remove_from_children t' k l2.
Proof.
  revert t. induction l1 as [|c l1 IH]; intros t; [done|].
  cbn [app remove_from_children].
  destruct (remove_source t k c) as [t1|]; [|done]. cbn [mbind result_bind]. apply IH.
Qed.


Lemma remove_from_collected (k : VariableId) (removed : gset VariableId)
    (kids : list (VariableId * Var)) (t : Track) :
  NoDup kids.*1 → k ∉ removed →
  (∀ c cv, (c, cv) ∈ kids →
     variables t !! c
     = Some (set_sources cv (filter (λ s, s ∉ removed) (sources cv)))) →
  ∃ t', remove_from_children t k (collected_under k kids) = Ok t' ∧
        source t' = source t ∧
        (∀ c cv, (c, cv) ∈ kids →
           variables t' !! c
           = Some (set_sources cv (filter (λ s, s ∉ {[k]} ∪ removed) (sources cv)))) ∧
        (∀ c, c ∉ kids.*1 → variables t' !! c = variables t !! c).
Proof.
  intros Hnd Hk. revert t.
  induction kids as [|[c cv] kids IH]; intros t Hstate.
  - exists t. split; [done|]. split; [done|]. split; [|done].
    by intros c cv ?%elem_of_nil.
  - apply NoDup_cons in Hnd as [Hc Hnd]. cbn in Hc.
    unfold collected_under. cbn [mbind list_bind]. fold (collected_under k kids).
    rewrite remove_from_children_app.
    assert (variables t !! c
            = Some (set_sources cv (filter (λ s, s ∉ removed) (sources cv)))) as Hcv
      by (apply Hstate; by left).
    assert (length (filter (λ s, s = k)
                      (sources (set_sources cv (filter (λ s, s ∉ removed) (sources cv)))))
            = length (filter (λ s, s = k) (sources cv))) as Hcount.
    { cbn [sources set_sources]. f_equal. clear -Hk.
      induction (sources cv) as [|y ss IH]; [done|]. rewrite !filter_cons.
      destruct (decide (y ∉ removed)) as [Hy|Hy]; rewrite ?filter_cons.
      - destruct (decide (y = k)); by rewrite IH.
      - rewrite decide_False; [done|]. intros ->. by apply Hy. }
    cbn [fst snd].
    rewrite (remove_from_children_block k c _ t _ Hcv Hcount).
    cbn [mbind result_bind].
    set (t1 := with_variables t _).
    destruct (IH Hnd t1) as (t' & Hrun & Hsrc & Hkids & Hother).
    { intros c' cv' Hin. unfold t1. cbn.
      rewrite lookup_insert_ne; [apply Hstate; by right|].
      intros ->. apply Hc. apply list_elem_of_fmap. by exists (c', cv'). }
    exists t'. split; [exact Hrun|]. split; [by rewrite Hsrc|]. split.
    + intros c' cv' [[= -> ->]|Hin]%elem_of_cons; [|by apply Hkids].
      rewrite Hother by done. unfold t1. cbn. rewrite lookup_insert_eq.
      f_equal. cbn [sources set_sources]. rewrite set_sources_twice. f_equal.
      clear. induction (sources cv) as [|y ss IH]; [done|]. rewrite !filter_cons.
      destruct (decide (y ∉ removed)) as [Hy|Hy]; rewrite ?filter_cons.
      * destruct (decide (y ≠ k)) as [Hne|Heq].
        -- rewrite decide_True by set_solver. by rewrite IH.
        -- rewrite decide_False by set_solver. by rewrite IH.
      * rewrite decide_False by set_solver. by rewrite IH.
    + intros c' Hc'. apply not_elem_of_cons in Hc' as [Hne Hc'].
      rewrite Hother by done. unfold t1. cbn. by rewrite lookup_insert_ne.
Qed.

Lemma prune_child_sources_state (kids : list (VariableId * Var)) (safe : gset VariableId)
    (items : list (VariableId * list VariableId)) (t : Track)
    (removed : gset VariableId) :
  NoDup kids.*1 → NoDup items.*1 →
  (∀ k, k ∈ items.*1 → k ∉ removed) →
  (∀ k l, (k, l) ∈ items → l = collected_under k kids) →
  (∀ c cv, (c, cv) ∈ kids →
     variables t !! c
     = Some (set_sources cv (filter (λ s, s ∉ removed) (sources cv)))) →
  ∃ t', prune_child_sources t items safe = Ok t' ∧
        source t' = source t ∧
        (∀ c cv, (c, cv) ∈ kids →
           variables t' !! c
           = Some (set_sources cv
                     (filter (λ s, s ∉ removed ∪
                                     list_to_set (filter (λ k, k ∉ safe) items.*1))
                             (sources cv)))) ∧
        (∀ c, c ∉ kids.*1 → variables t' !! c = variables t !! c).
Proof.
  intros Hkids. revert t removed.
  induction items as [|[k l] items IH]; intros t removed Hnd Hfresh Hitems Hstate.
  - exists t. split; [done|]. split; [done|]. split; [|done].
    intros c cv Hin. rewrite (Hstate c cv Hin). do 2 f_equal.
    apply filter_agree. intros s _. cbn. set_solver.
  - cbn [fmap list_fmap] in Hnd. apply NoDup_cons in Hnd as [Hk Hnd]. cbn in Hk.
    cbn [prune_child_sources].
    destruct (decide (k ∈ safe)) as [Hsafe|Hunsafe]; cbn [mbind result_bind].
    + destruct (IH t removed Hnd) as (t' & Hrun & Hsrc & Hst & Hother).
      { intros k' Hk'. apply Hfresh. by right. }
      { intros k' l' Hin. apply Hitems. by right. }
      { done. }
      exists t'. split; [exact Hrun|]. split; [done|]. split; [|done].
      intros c cv Hin. rewrite (Hst c cv Hin). do 2 f_equal.
      apply filter_agree. intros s _. cbn [fmap list_fmap fst]. rewrite filter_cons.
      by rewrite decide_False by (intros H; by apply H).
    + assert (l = collected_under k kids) as -> by (apply Hitems; by left).
      destruct (remove_from_collected k removed kids t Hkids)
        as (t1 & Hrun1 & Hsrc1 & Hst1 & Hother1).
      { apply Hfresh. by left. }
      { done. }
      rewrite Hrun1. cbn [mbind result_bind].
      destruct (IH t1 ({[k]} ∪ removed) Hnd) as (t' & Hrun & Hsrc & Hst & Hother).
      { intros k' Hk'. apply not_elem_of_union. split.
        - apply not_elem_of_singleton. intros ->. done.
        - apply Hfresh. by right. }
      { intros k' l' Hin. apply Hitems. by right. }
      { done. }
      exists t'. split; [exact Hrun|]. split; [by rewrite Hsrc|]. split.
      * intros c cv Hin. rewrite (Hst c cv Hin). do 2 f_equal.
        apply filter_agree. intros s _. cbn [fmap list_fmap fst]. rewrite filter_cons.
        rewrite decide_True by done. set_solver.
      * intros c Hc. by rewrite Hother, Hother1.
Qed.


Lemma dict_set_keys {A : Type} (key : string) (v : A) (items : list (string * A)) :
  (dict_set key v items).*1
  = if decide (key ∈ items.*1) then items.*1 else (items.*1 ++ [key])%list.
Proof.
  destruct (decide (key ∈ items.*1)) as [Hin|Hnin].
  - by apply dict_set_keys_present.
  - rewrite dict_set_fresh by done. by rewrite fmap_app.
Qed.

Lemma dict_get_elem {A : Type} (key : string) (v : A) (items : list (string * A)) :
  NoDup items.*1 → (key, v) ∈ items → dict_get key items = Some v.
Proof.
  induction items as [|[k w] items IH]; [by intros _ ?%elem_of_nil|].
  cbn [fmap list_fmap fst]. intros [Hk Hnd]%NoDup_cons Hin. cbn [dict_get].
  apply elem_of_cons in Hin as [[= <- <-]|Hin]; [by rewrite decide_True|].
  rewrite decide_False; [by apply IH|].
  intros ->. apply Hk. apply list_elem_of_fmap. by exists (key, v).
Qed.

Lemma append_child_get (d : list (VariableId * list VariableId))
    (s c k : VariableId) :
  default [] (dict_get k (append_child d s c))
  = if decide (s = k) then (default [] (dict_get s d) ++ [c])%list
    else default [] (dict_get k d).
Proof.
  unfold append_child. destruct (decide (s = k)) as [->|Hne].
  - by rewrite dict_get_set_eq.
  - by rewrite dict_get_set_ne.
Qed.

Lemma append_child_keys (d : list (VariableId * list VariableId)) (s c : VariableId) :
  (NoDup d.*1 → NoDup (append_child d s c).*1) ∧
  ∀ k, k ∈ (append_child d s c).*1 ↔ k = s ∨ k ∈ d.*1.
Proof.
  unfold append_child. rewrite dict_set_keys.
  destruct (decide (s ∈ d.*1)) as [Hin|Hnin]; split.
  - done.
  - intros k. split; [by right|]. by intros [->|?].
  - intros Hnd. apply NoDup_app. split; [done|]. split.
    + intros x Hx [->|?%elem_of_nil]%elem_of_cons; done.
    + apply NoDup_singleton.
  - intros k. rewrite elem_of_app, elem_of_cons, elem_of_nil. tauto.
Qed.

Lemma collect_one_child (c : VariableId) (ss : list VariableId)
    (d : list (VariableId * list VariableId)) :
  let d' := foldl (λ acc source_id, append_child acc source_id c) d ss in
  (NoDup d.*1 → NoDup d'.*1) ∧
  (∀ k, k ∈ d'.*1 ↔ k ∈ ss ∨ k ∈ d.*1) ∧
  (∀ k, default [] (dict_get k d')
        = (default [] (dict_get k d)
           ++ replicate (length (filter (λ s, s = k) ss)) c)%list).
Proof.
  revert d. induction ss as [|s ss IH]; intros d d'.
  - split; [done|]. split.
    + intros k. rewrite elem_of_nil. tauto.
    + intros k. cbn. by rewrite app_nil_r.
  - subst d'. cbn [foldl].
    destruct (IH (append_child d s c)) as (Hnd & Hkeys & Hget).
    destruct (append_child_keys d s c) as [Hnd1 Hkeys1].
    split; [auto|]. split.
    + intros k. rewrite Hkeys, Hkeys1, elem_of_cons. tauto.
    + intros k. rewrite Hget, append_child_get, filter_cons.
      destruct (decide (s = k)) as [->|Hne].
      * cbn [length replicate]. by rewrite <- app_assoc.
      * done.
Qed.

Lemma collect_children (kids : list (VariableId * Var))
    (d : list (VariableId * list VariableId)) :
  let d' := foldl (λ acc kid,
                     foldl (λ acc source_id, append_child acc source_id kid.1) acc
                           (sources kid.2)) d kids in
  (NoDup d.*1 → NoDup d'.*1) ∧
  (∀ k, k ∈ d'.*1 ↔ (∃ kid, kid ∈ kids ∧ k ∈ sources kid.2) ∨ k ∈ d.*1) ∧
  (∀ k, default [] (dict_get k d')
        = (default [] (dict_get k d) ++ collected_under k kids)%list).
Proof.
  revert d. induction kids as [|[c cv] kids IH]; intros d d'.
  - split; [done|]. split.
    + intros k. split; [by right|]. by intros [(? & ?%elem_of_nil & _)|?].
    + intros k. cbn. by rewrite app_nil_r.
  - subst d'. cbn [foldl fst snd].
    destruct (collect_one_child c (sources cv) d) as (Hnd1 & Hkeys1 & Hget1).
    destruct (IH (foldl (λ acc source_id, append_child acc source_id c) d (sources cv)))
      as (Hnd & Hkeys & Hget).
    split; [auto|]. split.
    + intros k. rewrite Hkeys, Hkeys1. split.
      * intros [(kid & Hin & Hk)|[Hk|Hk]].
        -- left. exists kid. split; [by right|done].
        -- left. exists (c, cv). split; [by left|done].
        -- by right.
      * intros [(kid & [->|Hin]%elem_of_cons & Hk)|Hk].
        -- right. by left.
        -- left. by exists kid.
        -- right. by right.
    + intros k. rewrite Hget, Hget1. unfold collected_under. cbn [mbind list_bind].
      by rewrite <- app_assoc.
Qed.

Lemma safe_below_elem (fuel : nat) (upstream : Track) (source_var : Var)
    (keys : list VariableId) (safe safe' : gset VariableId) :
  safe_below fuel upstream source_var keys safe = Ok safe' →
  ∀ s, s ∈ safe' ↔
       s ∈ safe ∨ (s ∈ keys ∧
                   check_ancestor fuel upstream source_var s false = Ok true).
Proof.
  revert safe. induction keys as [|k keys IH]; intros safe.
  - intros [= <-] s. rewrite elem_of_nil. tauto.
  - cbn [safe_below].
    destruct (check_ancestor fuel upstream source_var k false) as [found|] eqn:Hfound;
      [|done].
    cbn [mbind result_bind]. intros Hrun s. rewrite (IH _ Hrun), elem_of_cons.
    destruct found.
    + rewrite elem_of_union, elem_of_singleton. split.
      * intros [[->|?]|[? ?]]; auto.
      * intros [?|[[->|?] ?]]; auto.
    + split.
      * intros [?|[? ?]]; auto.
      * intros [?|[[->|?] ?]]; auto. congruence.
Qed.

Lemma collect_safe_elem (fuel : nat) (upstream : Track) (value keys : list VariableId)
    (safe safe' : gset VariableId) :
  collect_safe fuel upstream value keys safe = Ok safe' →
  ∀ s, s ∈ safe' ↔
       s ∈ safe ∨ (s ∈ keys ∧ descends_from_one fuel upstream value s = true).
Proof.
  revert safe. induction value as [|src value IH]; intros safe.
  - intros [= <-] s. cbn. split; [auto|]. by intros [?|[_ ?]].
  - cbn [collect_safe]. unfold track_getitem.
    destruct (variables upstream !! src) as [sv|] eqn:Hsv; [|done].
    cbn [mbind result_bind].
    destruct (safe_below fuel upstream sv keys safe) as [safe1|] eqn:H1; [|done].
    cbn [mbind result_bind]. intros Hrun s.
    rewrite (IH _ Hrun), (safe_below_elem _ _ _ _ _ _ H1).
    unfold descends_from_one. cbn [existsb]. rewrite Hsv.
    fold (descends_from_one fuel upstream value s).
    destruct (check_ancestor fuel upstream sv s false) as [[]|];
      rewrite ?orb_true_iff; cbn [orb]; split; intros; naive_solver.
Qed.


Lemma keyed_children_elem (t : Track) (self : Var) (c : VariableId) (cv : Var) :
  (c, cv) ∈ keyed_children t self ↔
  variables t !! c = Some cv ∧ parent cv = Some (var_id self).
Proof.
  unfold keyed_children. rewrite list_elem_of_filter, elem_of_map_to_list. cbn. tauto.
Qed.

Lemma keyed_children_NoDup (t : Track) (self : Var) :
  NoDup (keyed_children t self).*1.
Proof.
  unfold keyed_children.
  apply (sublist_NoDup _ (map_to_list (variables t)).*1).
  - apply NoDup_fst_map_to_list.
  - apply fmap_sublist, sublist_filter.
Qed.

(** X25: a successful assignment of sources to a list or a named list stores the
    sources and prunes those of the children: each child keeps, in their
    order, exactly its sources that descend from one of the new sources of
    the list in the upstream track; no other variable changes. *)
Theorem setattr_sources_prunes (fuel : nat) (t t' upstream : Track) (vid : VariableId)
    (self : Var) (value : list VariableId) :
  variables t !! vid = Some self →
  isinstance self Cls.GenericList = true →
  source t = Some upstream →
  setattr_sources fuel t vid value = Ok t' →
  sources <$> variables t' !! vid = Some value ∧
  ∀ c, c ≠ vid →
    variables t' !! c =
      (λ cv, if decide (parent cv = Some (var_id self))
             then set_sources cv
                    (filter (λ s, descends_from_one fuel upstream value s = true)
                            (sources cv))
             else cv) <$> variables t !! c.
Proof.
  intros Hself Hlist Hsrc. unfold setattr_sources, track_getitem.
  rewrite Hself. cbn [mbind result_bind].
  destruct (validate_sources t self value false) as [[]|]; [|done].
  cbn [mbind result_bind]. rewrite Hlist, Hsrc. cbn [mbind result_bind].
  set (kids := keyed_children t self).
  set (items := collect_child_sources kids).
  destruct (collect_safe fuel upstream value items.*1 ∅) as [safe|] eqn:Hsafe; [|done].
  cbn [mbind result_bind].
  destruct (collect_children kids []) as (Hnd & Hkeys & Hget).
  fold (collect_child_sources kids) in Hnd, Hkeys, Hget. fold items in Hnd, Hkeys, Hget.
  destruct (prune_child_sources_state kids safe items t ∅)
    as (t1 & Hrun & _ & Hstate & Hother).
  { apply keyed_children_NoDup. }
  { apply Hnd, NoDup_nil_2. }
  { intros k _. apply not_elem_of_empty. }
  { intros k l Hin. apply dict_get_elem in Hin; [|apply Hnd, NoDup_nil_2].
    specialize (Hget k). rewrite Hin in Hget. exact Hget. }
  { intros c cv [Hc _]%keyed_children_elem. rewrite Hc. f_equal.
    rewrite filter_all; [by rewrite set_sources_same|].
    intros s _. apply not_elem_of_empty. }
  rewrite Hrun. cbn [mbind result_bind]. intros [= <-].
  assert (Hkid : ∀ c cv, variables t !! c = Some cv →
            parent cv = Some (var_id self) →
            variables t1 !! c
            = Some (set_sources cv
                      (filter (λ s, descends_from_one fuel upstream value s = true)
                              (sources cv)))).
  { intros c cv Hc Hp. rewrite (Hstate c cv) by (by apply keyed_children_elem).
    do 2 f_equal. apply filter_agree. intros s Hs.
    assert (s ∈ items.*1) as Hkey.
    { apply Hkeys. left. exists (c, cv). split; [by apply keyed_children_elem|done]. }
    pose proof (collect_safe_elem _ _ _ _ _ _ Hsafe s) as Hin.
    rewrite elem_of_union, elem_of_list_to_set, list_elem_of_filter, Hin.
    split.
    - intros Hnot. destruct (descends_from_one fuel upstream value s); [done|].
      exfalso. apply Hnot. right. split; [|done]. intros [?%elem_of_empty|[_ ?]]; done.
    - intros Hd [?%elem_of_empty|[Hnot _]]; [done|]. apply Hnot. by right. }
  assert (Hrest : ∀ c, (∀ cv, variables t !! c = Some cv →
                              parent cv ≠ Some (var_id self)) →
                       variables t1 !! c = variables t !! c).
  { intros c Hc. apply Hother. intros ([c' cv] & -> & Hin)%list_elem_of_fmap.
    apply keyed_children_elem in Hin as [Hl Hp]. by apply (Hc cv). }
  split.
  - cbn. rewrite lookup_alter_eq.
    destruct (decide (parent self = Some (var_id self))) as [Hp|Hp].
    + by rewrite (Hkid vid self Hself Hp).
    + rewrite Hrest, Hself; [done|]. intros cv. rewrite Hself. by intros [= <-].
  - intros c Hne. cbn. rewrite lookup_alter_ne by done.
    destruct (variables t !! c) as [cv|] eqn:Hc; cbn.
    + destruct (decide (parent cv = Some (var_id self))) as [Hp|Hp].
      * by apply Hkid.
      * rewrite Hrest, Hc; [done|]. intros cv'. rewrite Hc. by intros [= <-].
    + rewrite Hrest, Hc; [done|]. intros cv'. by rewrite Hc.
Qed.

Lemma setattr_sources_prunes_witness :
  ∃ t', setattr_sources 3 pruning_track "l" ["uf"] = Ok t' ∧
        sources <$> variables t' !! "l" = Some ["uf"] ∧
        sources <$> variables t' !! "c" = Some ["ut"].
Proof.
  destruct (setattr_sources 3 pruning_track "l" ["uf"]) as [t'|] eqn:Hset;
    [|by vm_compute in Hset].
  destruct (setattr_sources_prunes 3 pruning_track t' pruning_upstream "l"
              (plain Cls.List "l" "l" 0 None []) ["uf"]) as [Hl Hc]; try done.
  exists t'. split; [done|]. split; [exact Hl|].
  by rewrite Hc.
Defined.
